(** * Session orchestration and state reconciliation of useGameStore

    A shallow embedding of the zustand store of the frontend
    (store/useGameStore.ts, the revision with [isAiThinking] and
    [isAction]): the Firestore documents of one room, the local store
    state, the actions [sendMessage], [performRoll], [_triggerGmResponse],
    the chat listener of [joinRoom], and the JSON handling of the reply of
    the narration service.

    Conventions of the embedding.
    - JavaScript strings are [string]s of bytes, the UTF-8 encoding of
      the text.
    - JavaScript numbers are doubles: [Js.Number] holds the integers,
      the infinities and NaN, and a product is rounded to the nearest
      double ([Js.round64]) before its floor is taken. The draw of
      [Math.random()] is a rational that is a double of the interval
      [0, 1).
    - An awaited Firestore write either completes or throws; which one is
      read from a script of replies carried by the world.
    - The store is a module: its code is strict, so that an assignment
      to a property of a primitive value throws.
    - The reply of the narration service is read at the shape announced in
      [GM_JSON_SYSTEM_PROMPT], a member counting as absent when its
      value is falsy. A reply in which a truthy member has another type
      than announced (a narrative that is no string, a list of choices
      that is no array of strings) is outside the embedding:
      [as_response] returns [None] on it, and no statement covers it.
    - A turn takes what the awaited call of the narration service comes
      to; the request it sends is [Ollama.request]. Alerts and
      navigation are left out. *)

From Stdlib Require Import List String Ascii ZArith QArith Qround Lia Bool.
From Stdlib Require Import DecimalString.
From Stdlib Require DecimalPos.
Import ListNotations.

Set Implicit Arguments.
Open Scope string_scope.

(* ================================================================= *)
(** ** JavaScript string primitives *)

Module Js.

(** Truthiness of a value of type [string | undefined | null]. *)
Definition truthy (v : option string) : bool :=
  match v with
  | Some s => negb (s =? "")
  | None => false
  end.

(** [a || b] on such values, with a string default. *)
Definition or_else (v : option string) (d : string) : string :=
  match v with
  | Some s => if s =? "" then d else s
  | None => d
  end.

(** [String.prototype.toLowerCase]: the case mapping of the runtime,
    which follows the Unicode tables the runtime ships. The store is
    embedded over any such mapping. *)
Class CaseMapping := toLowerCase : string -> string.

(** What the properties below use of the mapping: the empty string, and
    no other, maps to the empty string. *)
Definition proper (cm : CaseMapping) : Prop :=
  forall s, toLowerCase s = "" <-> s = "".

(** A case mapping for the sample texts, which are ASCII: the letters A
    to Z go to a to z, and every other byte is kept. *)
Definition lower_ascii (c : ascii) : ascii :=
  let n := nat_of_ascii c in
  if andb (65 <=? n)%nat (n <=? 90)%nat then ascii_of_nat (n + 32) else c.

Fixpoint ascii_lower (s : string) : string :=
  match s with
  | EmptyString => EmptyString
  | String c r => String (lower_ascii c) (ascii_lower r)
  end.

Definition ascii_case : CaseMapping := ascii_lower.

(** White space and line terminators of one byte: TAB, LF, VT, FF, CR
    and SPACE. *)
Definition is_space (c : ascii) : bool :=
  let n := nat_of_ascii c in
  orb (andb (9 <=? n)%nat (n <=? 13)%nat) (n =? 32)%nat.

(** The third byte of a white-space code point that starts with the
    bytes E2 80: U+2000 to U+200A, U+2028, U+2029 and U+202F. *)
Definition is_space_E2_80 (n2 : nat) : bool :=
  orb (andb (128 <=? n2)%nat (n2 <=? 138)%nat)
      (orb (n2 =? 168)%nat (orb (n2 =? 169)%nat (n2 =? 175)%nat)).

(** The number of bytes of the white-space or line-terminator code
    point at the head of [s], 0 when [s] starts otherwise. The code
    points are those [trim] and [parseInt] strip: U+0009 to U+000D,
    U+0020, U+00A0, U+1680, U+2000 to U+200A, U+2028, U+2029, U+202F,
    U+205F, U+3000 and U+FEFF, in UTF-8. *)
Definition space_width (s : string) : nat :=
  match s with
  | EmptyString => 0%nat
  | String c r =>
      let n := nat_of_ascii c in
      if is_space c then 1%nat
      else if (n =? 194)%nat then
        match r with
        | String c1 _ => if (nat_of_ascii c1 =? 160)%nat then 2%nat else 0%nat
        | EmptyString => 0%nat
        end
      else if (n =? 225)%nat then
        match r with
        | String c1 (String c2 _) =>
            if andb (nat_of_ascii c1 =? 154)%nat (nat_of_ascii c2 =? 128)%nat
            then 3%nat else 0%nat
        | _ => 0%nat
        end
      else if (n =? 226)%nat then
        match r with
        | String c1 (String c2 _) =>
            if andb (nat_of_ascii c1 =? 128)%nat
                    (is_space_E2_80 (nat_of_ascii c2))
            then 3%nat
            else if andb (nat_of_ascii c1 =? 129)%nat
                         (nat_of_ascii c2 =? 159)%nat
            then 3%nat else 0%nat
        | _ => 0%nat
        end
      else if (n =? 227)%nat then
        match r with
        | String c1 (String c2 _) =>
            if andb (nat_of_ascii c1 =? 128)%nat (nat_of_ascii c2 =? 128)%nat
            then 3%nat else 0%nat
        | _ => 0%nat
        end
      else if (n =? 239)%nat then
        match r with
        | String c1 (String c2 _) =>
            if andb (nat_of_ascii c1 =? 187)%nat (nat_of_ascii c2 =? 191)%nat
            then 3%nat else 0%nat
        | _ => 0%nat
        end
      else 0%nat
  end.

Fixpoint trimStart (s : string) : string :=
  match space_width s with
  | 1%nat => match s with
         | String _ r => trimStart r
         | _ => s
         end
  | 2%nat => match s with
         | String _ (String _ r) => trimStart r
         | _ => s
         end
  | 3%nat => match s with
         | String _ (String _ (String _ r)) => trimStart r
         | _ => s
         end
  | _ => s
  end.

(** Whether [s] is made of white space and line terminators only. *)
Fixpoint all_space (s : string) : bool :=
  match s with
  | EmptyString => true
  | _ =>
      match space_width s with
      | 1%nat => match s with
             | String _ r => all_space r
             | _ => false
             end
      | 2%nat => match s with
             | String _ (String _ r) => all_space r
             | _ => false
             end
      | 3%nat => match s with
             | String _ (String _ (String _ r)) => all_space r
             | _ => false
             end
      | _ => false
      end
  end.

Fixpoint trimEnd (s : string) : string :=
  match s with
  | EmptyString => EmptyString
  | String c r => if all_space s then EmptyString else String c (trimEnd r)
  end.

Definition trim (s : string) : string := trimEnd (trimStart s).

(** [s.replace(c, '')] for a one-character pattern: the first occurrence
    goes, the rest stays. *)
Fixpoint remove_first (c : ascii) (s : string) : string :=
  match s with
  | EmptyString => EmptyString
  | String a r => if Ascii.eqb a c then r else String a (remove_first c r)
  end.

(** *** parseInt without a radix argument *)

Definition digit_of (radix : Z) (c : ascii) : option Z :=
  let n := Z.of_nat (nat_of_ascii c) in
  let v :=
    if andb (48 <=? n)%Z (n <=? 57)%Z then Some (n - 48)%Z
    else if andb (97 <=? n)%Z (n <=? 122)%Z then Some (n - 87)%Z
    else if andb (65 <=? n)%Z (n <=? 90)%Z then Some (n - 55)%Z
    else None in
  match v with
  | Some d => if (d <? radix)%Z then Some d else None
  | None => None
  end.

(** The longest prefix of digits of the radix, read left to right;
    [None] when the prefix is empty. *)
Fixpoint digits_prefix (radix : Z) (acc : option Z) (s : string) : option Z :=
  match s with
  | EmptyString => acc
  | String c r =>
      match digit_of radix c with
      | Some d =>
          digits_prefix radix
            (Some (match acc with Some a => a * radix + d | None => d end)%Z) r
      | None => acc
      end
  end.

Definition strip_sign (s : string) : Z * string :=
  match s with
  | String "-" r => ((-1)%Z, r)
  | String "+" r => (1%Z, r)
  | _ => (1%Z, s)
  end.

Definition strip_hex_prefix (s : string) : Z * string :=
  match s with
  | String "0" (String "x" r) => (16%Z, r)
  | String "0" (String "X" r) => (16%Z, r)
  | _ => (10%Z, s)
  end.

(** *** Numbers

    A number is an IEEE 754 double. The numbers of the store are
    integers, infinities or NaN; the one fraction is the product in the
    dice resolver, rounded from the exact product before its floor is
    taken. The sign of zero is left out: nothing in the store tells -0
    from 0. *)

Inductive Number :=
| Int (z : Z)
| Infinity (negative : bool)
| NaN.

Definition Number_eqb (a b : Number) : bool :=
  match a, b with
  | Int x, Int y => (x =? y)%Z
  | Infinity x, Infinity y => Bool.eqb x y
  | _, _ => false
  end.

(** The floor of the binary logarithm of [n / d], for positive [n], [d]. *)
Definition mag (n d : Z) : Z :=
  let k := (Z.log2 n - Z.log2 d)%Z in
  let above :=
    if (0 <=? k)%Z then (d * 2 ^ k <=? n)%Z else (d <=? n * 2 ^ (- k))%Z in
  if above then k else (k - 1)%Z.

(** The integer nearest to [n / d], the even one of two. *)
Definition round_half_even (n d : Z) : Z :=
  let q := (n / d)%Z in
  let r := (n mod d)%Z in
  if (2 * r <? d)%Z then q
  else if (d <? 2 * r)%Z then (q + 1)%Z
  else if Z.even q then q else (q + 1)%Z.

(** The double nearest to a rational, as a signed significand of at most
    53 bits and an exponent of two not below that of the subnormals.
    The exponent is not bounded above here: [of_Z] and [round64] are
    used below the overflow threshold or test it. *)
Definition nearest (x : Q) : Z * Z :=
  let n := Z.abs (Qnum x) in
  let d := Zpos (Qden x) in
  if (n =? 0)%Z then (0%Z, 0%Z)
  else
    let e := Z.max (mag n d - 52) (-1074) in
    let m :=
      if (0 <=? e)%Z then round_half_even n (d * 2 ^ e)
      else round_half_even (n * 2 ^ (- e)) d in
    ((Z.sgn (Qnum x) * m)%Z, e).

Definition round64 (x : Q) : Q :=
  let '(m, e) := nearest x in
  if (0 <=? e)%Z then inject_Z (m * 2 ^ e) else Qmake m (Z.to_pos (2 ^ (- e))).

(** The rationals that are doubles, the overflow threshold apart. *)
Definition is_double (x : Q) : Prop := round64 x == x.

(** The double nearest to an integer; from 2^1024 on it is an infinity. *)
Definition of_Z (z : Z) : Number :=
  let '(m, e) := nearest (inject_Z z) in
  let v := if (0 <=? e)%Z then (m * 2 ^ e)%Z else (m / 2 ^ (- e))%Z in
  if (2 ^ 1024 <=? Z.abs v)%Z then Infinity (v <? 0)%Z else Int v.

(** [parseInt(s)]: the digits are read exactly and the value is rounded
    to a double once. *)
Definition parseInt (s : string) : Number :=
  let '(sign, s1) := strip_sign (trimStart s) in
  let '(radix, s2) := strip_hex_prefix s1 in
  match digits_prefix radix None s2 with
  | Some v => of_Z (sign * v)
  | None => NaN
  end.

(** [n || d] for a number [n]: NaN and 0 are falsy. *)
Definition num_or_else (n : Number) (d : Number) : Number :=
  match n with
  | Int v => if (v =? 0)%Z then d else n
  | Infinity _ => n
  | NaN => d
  end.

(** [Math.floor(rnd * max) + 1] for a fraction [rnd]. *)
Definition floor_mul_succ (rnd : Q) (max : Number) : Number :=
  match max with
  | Int m => of_Z (Qfloor (round64 (rnd * inject_Z m)) + 1)
  | Infinity negative =>
      match Qcompare rnd 0 with
      | Eq => NaN
      | Gt => Infinity negative
      | Lt => Infinity (negb negative)
      end
  | NaN => NaN
  end.

(** The decimal rendering of an integer. *)
Definition string_of_Z (z : Z) : string := NilZero.string_of_int (Z.to_int z).

(** *** Number to string

    Below 10^21 an integer is printed in full. From there on the
    shortest decimal significand that reads back as the same double is
    printed with an exponent. *)

Definition reads_back (a s p : Z) : bool := Number_eqb (of_Z (s * p)) (Int a).

(** The significand of [k] digits that reads back as [a], the nearer
    one of the two around [a / 10^(n-k)], if there is one; the upper one
    may be [10^k]. *)
Definition significand (a n k : Z) : option Z :=
  let p := (10 ^ (n - k))%Z in
  let lo := (a / p)%Z in
  let hi := (lo + 1)%Z in
  match reads_back a lo p, reads_back a hi p with
  | true, true =>
      let dl := (a - lo * p)%Z in
      let dh := (hi * p - a)%Z in
      Some (if (dl <? dh)%Z then lo
            else if (dh <? dl)%Z then hi
            else if Z.even lo then lo else hi)
  | true, false => Some lo
  | false, true => Some hi
  | false, false => None
  end.

(** The shortest significand, from [k] digits on; 17 digits tell any
    two doubles apart. *)
Fixpoint shortest (a n k : Z) (fuel : nat) : Z * Z :=
  match fuel with
  | O => ((a / 10 ^ (n - k))%Z, k)
  | S fuel' =>
      match significand a n k with
      | Some s => (s, k)
      | None => shortest a n (k + 1) fuel'
      end
  end.

(** [d.ddd...e+x] for an integer [a] of [n] digits, 21 < n. *)
Definition exponential (a : Z) : string :=
  let n := Z.of_nat (String.length (string_of_Z a)) in
  let '(s, k) := shortest a n 1 17 in
  let '(s, x) := if (s =? 10 ^ k)%Z then (1%Z, n) else (s, (n - 1)%Z) in
  let mantissa :=
    match string_of_Z s with
    | String d (String d' rest) => String d (String "." (String d' rest))
    | ds => ds
    end in
  mantissa ++ "e+" ++ string_of_Z x.

Definition toString (x : Number) : string :=
  match x with
  | NaN => "NaN"
  | Infinity false => "Infinity"
  | Infinity true => "-Infinity"
  | Int z =>
      if (Z.abs z <? 10 ^ 21)%Z then string_of_Z z
      else (if (z <? 0)%Z then "-" else "") ++ exponential (Z.abs z)
  end.

End Js.

(* ================================================================= *)
(** ** Data model *)

Record Player := mkPlayer {
  p_id : string;
  p_name : string;
  avatar : option string;
  characterClass : option string;
  stats : list (string * Z);
  isReady : bool;
  choices : option (list string)
}.

Inductive Role := user | assistant | system.

Record ChatMessage := mkChatMessage {
  m_id : string;
  role : Role;
  content : string;
  senderName : option string;
  isAction : option bool;
  timestamp : nat
}.

Record RollRequest := mkRollRequest {
  playerId : string;
  playerName : string;
  diceType : string;
  reason : string
}.

Inductive GameStatus := lobby | playing.

Record GameRoom := mkGameRoom {
  room_id : string;
  hostId : string;
  gameStatus : GameStatus;
  activeRoll : option RollRequest;
  currentScene : option string
}.

(** The data fields of the zustand store. *)
Record GameState := mkGameState {
  gs_room : option GameRoom;
  gs_players : list Player;
  chatHistory : list ChatMessage;
  gs_playerId : option string;
  isLoading : bool;
  isAiThinking : bool;
  lastHandledMessageId : option string
}.

(** The documents of the room in Firestore: the room document, the
    [players] collection and the [messages] collection in timestamp
    order; [db_clock] is the server clock behind [serverTimestamp()]. *)
Record Store := mkStore {
  db_room : GameRoom;
  db_players : list Player;
  db_messages : list ChatMessage;
  db_clock : nat
}.

(* ================================================================= *)
(** ** Plain objects used as maps

    An object is the list of its own string keys with their values, in
    the order the keys were created. [Object.keys] lists the keys that
    are array indices first, in ascending order, and then the other
    keys in the order of their creation. *)

Module Obj.

Fixpoint index_value (acc : Z) (s : string) : option Z :=
  match s with
  | EmptyString => Some acc
  | String c r =>
      let n := Z.of_nat (nat_of_ascii c) in
      if andb (48 <=? n)%Z (n <=? 57)%Z
      then index_value (acc * 10 + (n - 48))%Z r
      else None
  end.

(** The array index a key stands for: the key is the decimal rendering,
    without leading zero, of an integer from 0 to 2^32 - 2. *)
Definition array_index (k : string) : option Z :=
  match k with
  | EmptyString => None
  | String "0" EmptyString => Some 0%Z
  | String "0" _ => None
  | _ =>
      match index_value 0 k with
      | Some v => if (v <=? 4294967294)%Z then Some v else None
      | None => None
      end
  end.

Fixpoint insert_index (v : Z) (k : string) (l : list (Z * string))
  : list (Z * string) :=
  match l with
  | [] => [(v, k)]
  | (v', k') :: r =>
      if (v <? v')%Z then (v, k) :: l else (v', k') :: insert_index v k r
  end.

Definition is_index (k : string) : bool :=
  match array_index k with Some _ => true | None => false end.

(** The order in which the keys created in the order [own] are listed. *)
Definition enumerate (own : list string) : list string :=
  map snd
    (fold_left (fun acc k => match array_index k with
                             | Some v => insert_index v k acc
                             | None => acc
                             end) own [])
  ++ filter (fun k => negb (is_index k)) own.

Section Members.
Variable V : Type.

(** The own keys, in the order of their creation. *)
Definition own (o : list (string * V)) : list string := map fst o.

(** [Object.keys(o)]. *)
Definition keys (o : list (string * V)) : list string := enumerate (own o).

Definition has (k : string) (o : list (string * V)) : bool :=
  existsb (fun e => fst e =? k) o.

(** [o[k]] for an own key; [None] stands for a key that is not an own
    key of [o]. *)
Fixpoint get (k : string) (o : list (string * V)) : option V :=
  match o with
  | [] => None
  | (k', v) :: r => if k' =? k then Some v else get k r
  end.

(** The own data property [k] created or overwritten, as [JSON.parse]
    does for a member: an own key keeps its place, a new key is created
    last. *)
Fixpoint define (k : string) (v : V) (o : list (string * V))
  : list (string * V) :=
  match o with
  | [] => [(k, v)]
  | (k', v') :: r => if k' =? k then (k, v) :: r else (k', v') :: define k v r
  end.

(** The assignment [o[k] = v]. It writes the own property, or creates
    it, except for the key [__proto__] when it is not an own key: that
    assignment reaches the setter of [Object.prototype], which replaces
    the prototype of [o] and creates no own key. *)
Definition set (k : string) (v : V) (o : list (string * V))
  : list (string * V) :=
  if andb (k =? "__proto__") (negb (has k o)) then o else define k v o.

End Members.

End Obj.

(* ================================================================= *)
(** ** JSON values and JSON.parse *)

#[local] Set Warnings "-register-all".

Inductive Json :=
| JNull
| JBool (b : bool)
| JNum (lexeme : string)
| JStr (s : string)
| JArr (items : list Json)
| JObj (members : list (string * Json)).

Module JSON.

(** The double quote, character 34. *)
Definition dquote : ascii := Ascii false true false false false true false false.

Definition is_ws (c : ascii) : bool :=
  let n := nat_of_ascii c in
  orb (orb (n =? 32)%nat (n =? 9)%nat) (orb (n =? 10)%nat (n =? 13)%nat).

Fixpoint skip_ws (s : string) : string :=
  match s with
  | EmptyString => EmptyString
  | String c r => if is_ws c then skip_ws r else s
  end.

Definition is_digit (c : ascii) : bool :=
  let n := nat_of_ascii c in andb (48 <=? n)%nat (n <=? 57)%nat.

(** The leading decimal digits of [s] and what follows them. *)
Fixpoint span_digits (s : string) : string * string :=
  match s with
  | EmptyString => (EmptyString, EmptyString)
  | String c r =>
      if is_digit c
      then let '(d, t) := span_digits r in (String c d, t)
      else (EmptyString, s)
  end.

Definition parse_int_part (s : string) : option (string * string) :=
  match s with
  | String "0" r => Some ("0", r)
  | String c r =>
      if is_digit c
      then let '(d, t) := span_digits r in Some (String c d, t)
      else None
  | EmptyString => None
  end.

Definition parse_frac_part (s : string) : option (string * string) :=
  match s with
  | String "." r =>
      match span_digits r with
      | (EmptyString, _) => None
      | (d, t) => Some (String "." d, t)
      end
  | _ => Some (EmptyString, s)
  end.

Definition parse_exp_digits (mark : string) (r : string)
  : option (string * string) :=
  match span_digits r with
  | (EmptyString, _) => None
  | (d, t) => Some (mark ++ d, t)
  end.

Definition parse_exp_part (s : string) : option (string * string) :=
  match s with
  | String e r =>
      if orb (Ascii.eqb e "e") (Ascii.eqb e "E") then
        match r with
        | String "+" r' => parse_exp_digits (String e "+") r'
        | String "-" r' => parse_exp_digits (String e "-") r'
        | _ => parse_exp_digits (String e EmptyString) r
        end
      else Some (EmptyString, s)
  | EmptyString => Some (EmptyString, s)
  end.

(** A number of the JSON grammar, kept as its lexeme. *)
Definition parse_number (s : string) : option (string * string) :=
  let '(sign, s0) :=
    match s with String "-" r => ("-", r) | _ => (EmptyString, s) end in
  match parse_int_part s0 with
  | None => None
  | Some (i, s1) =>
      match parse_frac_part s1 with
      | None => None
      | Some (f, s2) =>
          match parse_exp_part s2 with
          | None => None
          | Some (e, s3) => Some (sign ++ i ++ f ++ e, s3)
          end
      end
  end.

Definition byte (z : Z) : ascii := ascii_of_nat (Z.to_nat z).

(** The UTF-8 bytes of a code point. *)
Definition utf8 (cp : Z) : string :=
  (if cp <? 128 then String (byte cp) EmptyString
   else if cp <? 2048 then
     String (byte (192 + cp / 64)) (String (byte (128 + cp mod 64)) EmptyString)
   else if cp <? 65536 then
     String (byte (224 + cp / 4096))
       (String (byte (128 + (cp / 64) mod 64))
          (String (byte (128 + cp mod 64)) EmptyString))
   else
     String (byte (240 + cp / 262144))
       (String (byte (128 + (cp / 4096) mod 64))
          (String (byte (128 + (cp / 64) mod 64))
             (String (byte (128 + cp mod 64)) EmptyString))))%Z.

Definition hex4 (a b c d : ascii) : option Z :=
  match Js.digit_of 16 a, Js.digit_of 16 b, Js.digit_of 16 c, Js.digit_of 16 d with
  | Some x, Some y, Some z, Some w => Some (((x * 16 + y) * 16 + z) * 16 + w)%Z
  | _, _, _, _ => None
  end.

Definition simple_escape (e : ascii) : option ascii :=
  if Ascii.eqb e dquote then Some dquote
  else if Ascii.eqb e "\" then Some "\"%char
  else if Ascii.eqb e "/" then Some "/"%char
  else if Ascii.eqb e "b" then Some (ascii_of_nat 8)
  else if Ascii.eqb e "f" then Some (ascii_of_nat 12)
  else if Ascii.eqb e "n" then Some (ascii_of_nat 10)
  else if Ascii.eqb e "r" then Some (ascii_of_nat 13)
  else if Ascii.eqb e "t" then Some (ascii_of_nat 9)
  else None.

Definition cons_str (p : string) (r : option (string * string))
  : option (string * string) :=
  match r with
  | Some (s, t) => Some (p ++ s, t)
  | None => None
  end.

(** The low half of a surrogate pair written as a second escape. *)
Definition low_surrogate (s : string) : option (Z * string) :=
  match s with
  | String "\" (String "u" (String a (String b (String c (String d r))))) =>
      match hex4 a b c d with
      | Some lo => if andb (56320 <=? lo)%Z (lo <=? 57343)%Z
                   then Some (lo, r) else None
      | None => None
      end
  | _ => None
  end.

(** The characters of a string literal after its opening quote, up to the
    closing quote. *)
Fixpoint parse_string (s : string) : option (string * string) :=
  match s with
  | EmptyString => None
  | String c r =>
      if Ascii.eqb c dquote then Some (EmptyString, r)
      else if Ascii.eqb c "\" then
        match r with
        | String e r2 =>
            match simple_escape e with
            | Some ch => cons_str (String ch EmptyString) (parse_string r2)
            | None =>
                if Ascii.eqb e "u" then
                  match r2 with
                  | String a (String b (String x (String d r3))) =>
                      match hex4 a b x d with
                      | Some hi =>
                          if andb (55296 <=? hi)%Z (hi <=? 56319)%Z then
                            match r3 with
                            | String "\" (String "u"
                                (String a' (String b' (String x' (String d' r4)))))
                              =>
                                match low_surrogate r3 with
                                | Some (lo, _) =>
                                    cons_str
                                      (utf8 (65536 + (hi - 55296) * 1024
                                             + (lo - 56320)))
                                      (parse_string r4)
                                | None => cons_str (utf8 hi) (parse_string r3)
                                end
                            | _ => cons_str (utf8 hi) (parse_string r3)
                            end
                          else cons_str (utf8 hi) (parse_string r3)
                      | None => None
                      end
                  | _ => None
                  end
                else None
            end
        | EmptyString => None
        end
      else if (nat_of_ascii c <? 32)%nat then None
      else cons_str (String c EmptyString) (parse_string r)
  end.

Definition drop_prefix (p s : string) : option string :=
  if String.prefix p s
  then Some (substring (String.length p) (String.length s - String.length p) s)
  else None.

(** Recursive descent, one unit of fuel for each value, member and item. *)
Fixpoint parse_value (fuel : nat) (s : string) : option (Json * string) :=
  match fuel with
  | O => None
  | S f =>
      match s with
      | String "{" r =>
          match skip_ws r with
          | String "}" t => Some (JObj [], t)
          | r' => parse_members f [] r'
          end
      | String "[" r =>
          match skip_ws r with
          | String "]" t => Some (JArr [], t)
          | r' => parse_items f [] r'
          end
      | String c r =>
          if Ascii.eqb c dquote then
            match parse_string r with
            | Some (v, t) => Some (JStr v, t)
            | None => None
            end
          else if Ascii.eqb c "t" then
            match drop_prefix "true" s with
            | Some t => Some (JBool true, t) | None => None end
          else if Ascii.eqb c "f" then
            match drop_prefix "false" s with
            | Some t => Some (JBool false, t) | None => None end
          else if Ascii.eqb c "n" then
            match drop_prefix "null" s with
            | Some t => Some (JNull, t) | None => None end
          else
            match parse_number s with
            | Some (n, t) => Some (JNum n, t)
            | None => None
            end
      | EmptyString => None
      end
  end

with parse_members (fuel : nat) (acc : list (string * Json)) (s : string)
  : option (Json * string) :=
  match fuel with
  | O => None
  | S f =>
      match s with
      | String c r =>
          if Ascii.eqb c dquote then
            match parse_string r with
            | Some (k, t) =>
                match skip_ws t with
                | String ":" t1 =>
                    match parse_value f (skip_ws t1) with
                    | Some (v, t2) =>
                        match skip_ws t2 with
                        | String "," t3 =>
                            parse_members f (Obj.define k v acc) (skip_ws t3)
                        | String "}" t3 => Some (JObj (Obj.define k v acc), t3)
                        | _ => None
                        end
                    | None => None
                    end
                | _ => None
                end
            | None => None
            end
          else None
      | EmptyString => None
      end
  end

with parse_items (fuel : nat) (acc : list Json) (s : string)
  : option (Json * string) :=
  match fuel with
  | O => None
  | S f =>
      match parse_value f s with
      | Some (v, t) =>
          match skip_ws t with
          | String "," t1 => parse_items f (acc ++ [v]) (skip_ws t1)
          | String "]" t1 => Some (JArr (acc ++ [v]), t1)
          | _ => None
          end
      | None => None
      end
  end.

(** [JSON.parse(text)]; [None] stands for the SyntaxError it throws. *)
Definition parse (text : string) : option Json :=
  match parse_value (S (String.length text)) (skip_ws text) with
  | Some (v, t) =>
      match skip_ws t with
      | EmptyString => Some v
      | _ => None
      end
  | None => None
  end.

End JSON.

(* ================================================================= *)
(** ** The reply of the narration service *)

(** [roll_request] of the reply. *)
Record RollAsk := mkRollAsk {
  targetClassName : option string;
  ask_diceType : option string;
  ask_reason : option string
}.

(** The structured GM response, at the shape of [GM_JSON_SYSTEM_PROMPT];
    [None] in a field stands for an absent or null member. *)
Record GmResponse := mkGmResponse {
  narrative : option string;
  scene_image_prompt : option string;
  roll_request : option RollAsk;
  gm_choices : option (list (string * list string))
}.

(** The value of the lexeme of a JSON number. *)
Fixpoint digits_value (acc : Z) (s : string) : Z :=
  match s with
  | EmptyString => acc
  | String c r =>
      match Js.digit_of 10 c with
      | Some d => digits_value (acc * 10 + d) r
      | None => acc
      end
  end.

Definition number_value (lexeme : string) : Q :=
  let '(negative, s0) :=
    match lexeme with
    | String "-" r => (true, r)
    | _ => (false, lexeme)
    end in
  let '(int_part, s1) := JSON.span_digits s0 in
  let '(frac_part, s2) :=
    match s1 with
    | String "." r => JSON.span_digits r
    | _ => (EmptyString, s1)
    end in
  let exponent :=
    match s2 with
    | String _ (String "-" r) => (- digits_value 0 r)%Z
    | String _ (String "+" r) => digits_value 0 r
    | String _ r => digits_value 0 r
    | EmptyString => 0%Z
    end in
  let x :=
    inject_Z (digits_value 0 (int_part ++ frac_part))
    * Qpower 10 (exponent - Z.of_nat (String.length frac_part)) in
  if negative then - x else x.

(** [!v] for a JSON value: null, false, a number that is 0 as a double
    and the empty string are falsy. *)
Definition falsy (j : Json) : bool :=
  match j with
  | JNull => true
  | JBool b => negb b
  | JNum lexeme => Qeq_bool (Js.round64 (number_value lexeme)) 0
  | JStr s => s =? ""
  | JArr _ => false
  | JObj _ => false
  end.

Module Shape.

(** A member that is a string, or absent: not there, or falsy. *)
Definition opt_string (ms : list (string * Json)) (k : string)
  : option (option string) :=
  match Obj.get k ms with
  | None => Some None
  | Some (JStr s) => Some (Some s)
  | Some j => if falsy j then Some None else None
  end.

Fixpoint strings (items : list Json) : option (list string) :=
  match items with
  | [] => Some []
  | JStr s :: r =>
      match strings r with Some l => Some (s :: l) | None => None end
  | _ :: _ => None
  end.

Fixpoint choice_lists (ms : list (string * Json))
  : option (list (string * list string)) :=
  match ms with
  | [] => Some []
  | (k, JArr items) :: r =>
      match strings items, choice_lists r with
      | Some l, Some m => Some ((k, l) :: m)
      | _, _ => None
      end
  | _ :: _ => None
  end.

Definition roll_ask (ms : list (string * Json)) : option RollAsk :=
  match opt_string ms "targetClassName", opt_string ms "diceType",
        opt_string ms "reason" with
  | Some t, Some d, Some r => Some (mkRollAsk t d r)
  | _, _, _ => None
  end.

(** [roll_request]: absent when falsy; a truthy value that is no object
    has no member, so that it is a request without target. *)
Definition roll_member (ms : list (string * Json)) : option (option RollAsk) :=
  match Obj.get "roll_request" ms with
  | None => Some None
  | Some (JObj rs) => option_map Some (roll_ask rs)
  | Some j =>
      if falsy j then Some None else Some (Some (mkRollAsk None None None))
  end.

(** [choices]: absent when falsy, else an object of arrays of strings. *)
Definition choices_member (ms : list (string * Json))
  : option (option (list (string * list string))) :=
  match Obj.get "choices" ms with
  | None => Some None
  | Some (JObj cs) => option_map Some (choice_lists cs)
  | Some j => if falsy j then Some None else None
  end.

Definition response (ms : list (string * Json)) : option GmResponse :=
  match opt_string ms "narrative", opt_string ms "scene_image_prompt",
        roll_member ms, choices_member ms with
  | Some n, Some sc, Some r, Some c => Some (mkGmResponse n sc r c)
  | _, _, _, _ => None
  end.

End Shape.

(** The parsed reply, an object or an array, read as a [GmResponse];
    [None] when a truthy member has another type than the prompt
    announces. An array has none of the members. *)
Definition as_response (j : Json) : option GmResponse :=
  match j with
  | JObj ms => Shape.response ms
  | JArr _ => Shape.response []
  | _ => None
  end.

(* ================================================================= *)
(** ** Response parsing: JSON.parse, then the brace pattern *)

Module Regex.

(** The suffix of [s] that starts at the first [c]. *)
Fixpoint from_first (c : ascii) (s : string) : option string :=
  match s with
  | EmptyString => None
  | String a r => if Ascii.eqb a c then Some s else from_first c r
  end.

(** The prefix of [s] that ends at the last [c]. *)
Fixpoint upto_last (c : ascii) (s : string) : option string :=
  match s with
  | EmptyString => None
  | String a r =>
      match upto_last c r with
      | Some t => Some (String a t)
      | None => if Ascii.eqb a c then Some (String a EmptyString) else None
      end
  end.

(** Whether [c] occurs in [s]. *)
Fixpoint occurs (c : ascii) (s : string) : bool :=
  match s with
  | EmptyString => false
  | String a r => if Ascii.eqb a c then true else occurs c r
  end.

(** [raw.match(/\{[\s\S]*\}/)]: the leftmost match of an opening brace,
    as many characters of any kind as possible, and a closing brace. *)
Definition match_braces (raw : string) : option string :=
  match from_first "{" raw with
  | Some s => upto_last "}" s
  | None => None
  end.

End Regex.

Inductive Parsed :=
| ParsedOk (j : Json)
| ParseError (message : string).

(** The parse of [rawContent] in [_triggerGmResponse]. *)
Definition parse_reply (rawContent : string) : Parsed :=
  match JSON.parse rawContent with
  | Some j => ParsedOk j
  | None =>
      match Regex.match_braces rawContent with
      | Some jsonMatch =>
          match JSON.parse jsonMatch with
          | Some j => ParsedOk j
          | None => ParseError "Unrecoverable JSON error"
          end
      | None => ParseError "No JSON object found in response"
      end
  end.

(* ================================================================= *)
(** ** Response repair: every class gets at least two choices *)

Definition defaults : list string :=
  ["Observe surroundings"; "Ready weapon"; "Discuss with party"; "Search area"].

Definition includes_str (l : list string) (d : string) : bool :=
  existsb (String.eqb d) l.

(** [defaults.find(d => !currentChoices.includes(d)) || "Wait"]. *)
Definition nextDefault (currentChoices : list string) : string :=
  Js.or_else (find (fun d => negb (includes_str currentChoices d)) defaults)
    "Wait".

(** The loop [while (currentChoices.length < 2) push(nextDefault)]; the
    fuel bounds the number of iterations. *)
Fixpoint pad_loop (fuel : nat) (currentChoices : list string) : list string :=
  match fuel with
  | O => currentChoices
  | S f =>
      if (List.length currentChoices <? 2)%nat
      then pad_loop f (currentChoices ++ [nextDefault currentChoices])
      else currentChoices
  end.

Definition pad (currentChoices : list string) : list string :=
  pad_loop (2 - List.length currentChoices) currentChoices.

(** [Object.keys(choices).find(k => k.toLowerCase() === c.toLowerCase())]. *)
Definition find_key {cm : Js.CaseMapping} (ch : list (string * list string)) (c : string)
  : option string :=
  find (fun k => Js.toLowerCase k =? Js.toLowerCase c) (Obj.keys ch).

(** The body of [players.forEach] in the repair. *)
Definition repair_player {cm : Js.CaseMapping} (ch : list (string * list string)) (p : Player)
  : list (string * list string) :=
  match characterClass p with
  | None => ch
  | Some pClass =>
      if pClass =? "" then ch
      else
        let found := find_key ch pClass in
        let choiceKey := Js.or_else found pClass in
        let ch1 := if Js.truthy found then ch else Obj.set choiceKey [] ch in
        match Obj.get choiceKey ch1 with
        | Some currentChoices => Obj.set choiceKey (pad currentChoices) ch1
        | None => ch1
        end
  end.

(** The repair of the parsed reply against the players of the store:
    nothing when a roll request is present. *)
Definition repair {cm : Js.CaseMapping} (players : list Player) (gm : GmResponse) : GmResponse :=
  match roll_request gm with
  | Some _ => gm
  | None =>
      let ch := match gm_choices gm with Some c => c | None => [] end in
      mkGmResponse (narrative gm) (scene_image_prompt gm) (roll_request gm)
        (Some (fold_left repair_player players ch))
  end.

(* ================================================================= *)
(** ** Firestore writes *)

Inductive RoomUpdate :=
| SetCurrentScene (scene : string)
| SetActiveRoll (r : RollRequest)
| DeleteActiveRoll
| SetGameStatus (g : GameStatus).

Inductive PlayerUpdate :=
| SetChoices (c : option (list string))
| SetIsReady (b : bool).

(** One [batch.update] of a write batch. *)
Inductive BatchOp :=
| UpdateRoom (u : RoomUpdate)
| UpdatePlayer (pid : string) (u : PlayerUpdate).

Definition apply_room (u : RoomUpdate) (r : GameRoom) : GameRoom :=
  match u with
  | SetCurrentScene sc =>
      mkGameRoom (room_id r) (hostId r) (gameStatus r) (activeRoll r) (Some sc)
  | SetActiveRoll a =>
      mkGameRoom (room_id r) (hostId r) (gameStatus r) (Some a) (currentScene r)
  | DeleteActiveRoll =>
      mkGameRoom (room_id r) (hostId r) (gameStatus r) None (currentScene r)
  | SetGameStatus g =>
      mkGameRoom (room_id r) (hostId r) g (activeRoll r) (currentScene r)
  end.

Definition apply_player (u : PlayerUpdate) (p : Player) : Player :=
  match u with
  | SetChoices c =>
      mkPlayer (p_id p) (p_name p) (avatar p) (characterClass p) (stats p)
        (isReady p) c
  | SetIsReady b =>
      mkPlayer (p_id p) (p_name p) (avatar p) (characterClass p) (stats p)
        b (choices p)
  end.

Definition has_player (pid : string) (ps : list Player) : bool :=
  existsb (fun p => p_id p =? pid) ps.

Definition update_player (pid : string) (u : PlayerUpdate) (ps : list Player)
  : list Player :=
  map (fun p => if p_id p =? pid then apply_player u p else p) ps.

(** [setDoc] on a player document: the document is replaced, or created
    at the end of the collection. *)
Fixpoint put_player (np : Player) (ps : list Player) : list Player :=
  match ps with
  | [] => [np]
  | p :: r => if p_id p =? p_id np then np :: r else p :: put_player np r
  end.

Definition with_room (s : Store) (r : GameRoom) : Store :=
  mkStore r (db_players s) (db_messages s) (db_clock s).

Definition with_players (s : Store) (ps : list Player) : Store :=
  mkStore (db_room s) ps (db_messages s) (db_clock s).

(** The effect of one update; an update of a missing document fails. *)
Definition apply_op (op : BatchOp) (s : Store) : option Store :=
  match op with
  | UpdateRoom u => Some (with_room s (apply_room u (db_room s)))
  | UpdatePlayer pid u =>
      if has_player pid (db_players s)
      then Some (with_players s (update_player pid u (db_players s)))
      else None
  end.

(** The effect of a batch: every update in order, or none of them. *)
Fixpoint apply_batch (ops : list BatchOp) (s : Store) : option Store :=
  match ops with
  | [] => Some s
  | op :: r =>
      match apply_op op s with
      | Some s' => apply_batch r s'
      | None => None
      end
  end.

(** The fields of a new chat message; the id and the timestamp come
    from the server. *)
Record MessageData := mkMessageData {
  d_role : Role;
  d_content : string;
  d_senderName : option string;
  d_isAction : option bool
}.

Definition append_message (docId : string) (d : MessageData) (s : Store)
  : Store :=
  mkStore (db_room s) (db_players s)
    (db_messages s ++
       [mkChatMessage docId (d_role d) (d_content d) (d_senderName d)
          (d_isAction d) (db_clock s)])
    (S (db_clock s)).

(* ================================================================= *)
(** ** The store monad: local state, Firestore and exceptions *)

Inductive JsError :=
| NetworkError
| JsonError (message : string)
| TypeError
| FirestoreError.

(** What the backend answers to one awaited write. *)
Inductive WriteReply :=
| Rejected
| Accepted (docId : string).

(** The world of one client: the documents in Firestore, the zustand
    state of the client, and the replies of the backend to the writes
    still to come (past the script every write is rejected). *)
Record World := mkWorld {
  store : Store;
  state : GameState;
  replies : list WriteReply
}.

Inductive Completion (A : Type) :=
| Returned (a : A)
| Threw (e : JsError).

Arguments Returned {A} a.
Arguments Threw {A} e.

Definition M (A : Type) : Type := World -> Completion A * World.

Definition ret {A} (a : A) : M A := fun w => (Returned a, w).

Definition bind {A B} (m : M A) (k : A -> M B) : M B :=
  fun w =>
    match m w with
    | (Returned a, w') => k a w'
    | (Threw e, w') => (Threw e, w')
    end.

Definition throw {A} (e : JsError) : M A := fun w => (Threw e, w).

Declare Scope js_scope.
Delimit Scope js_scope with js.
Notation "x <- m ;; k" := (bind m (fun x => k))
  (at level 61, m at next level, right associativity) : js_scope.
Notation "m ;; k" := (bind m (fun _ => k))
  (at level 61, right associativity) : js_scope.
Open Scope js_scope.

(** [try { body } catch (e) { handler } finally { fin }]. *)
Definition try_catch_finally {A} (body : M A) (handler : JsError -> M A)
  (fin : M unit) : M A :=
  fun w =>
    let '(r1, w1) := body w in
    let '(r2, w2) :=
      match r1 with
      | Returned a => (Returned a, w1)
      | Threw e => handler e w1
      end in
    match fin w2 with
    | (Returned _, w3) => (r2, w3)
    | (Threw e, w3) => (Threw e, w3)
    end.

(** zustand [get()] and [set(...)]. *)
Definition get_state : M GameState := fun w => (Returned (state w), w).

Definition set_state (f : GameState -> GameState) : M unit :=
  fun w => (Returned tt, mkWorld (store w) (f (state w)) (replies w)).

Definition put_isAiThinking (b : bool) (g : GameState) : GameState :=
  mkGameState (gs_room g) (gs_players g) (chatHistory g) (gs_playerId g)
    (isLoading g) b (lastHandledMessageId g).

Definition put_lastHandledMessageId (m : option string) (g : GameState)
  : GameState :=
  mkGameState (gs_room g) (gs_players g) (chatHistory g) (gs_playerId g)
    (isLoading g) (isAiThinking g) m.

Definition put_chatHistory (msgs : list ChatMessage) (g : GameState)
  : GameState :=
  mkGameState (gs_room g) (gs_players g) msgs (gs_playerId g)
    (isLoading g) (isAiThinking g) (lastHandledMessageId g).

(** An awaited write: the next reply of the backend decides. *)
Definition await_write (effect : string -> Store -> option Store) : M unit :=
  fun w =>
    match replies w with
    | Accepted docId :: rest =>
        match effect docId (store w) with
        | Some s' => (Returned tt, mkWorld s' (state w) rest)
        | None => (Threw FirestoreError, mkWorld (store w) (state w) rest)
        end
    | Rejected :: rest =>
        (Threw FirestoreError, mkWorld (store w) (state w) rest)
    | [] => (Threw FirestoreError, w)
    end.

(** [addDoc(collection(db, 'rooms', room.id, 'messages'), data)]. *)
Definition addDoc (d : MessageData) : M unit :=
  await_write (fun docId s => Some (append_message docId d s)).

(** [updateDoc(doc(db, 'rooms', room.id), u)]. *)
Definition updateDoc_room (u : RoomUpdate) : M unit :=
  await_write (fun _ s => apply_op (UpdateRoom u) s).

(** [updateDoc(doc(db, 'rooms', room.id, 'players', pid), u)]. *)
Definition updateDoc_player (pid : string) (u : PlayerUpdate) : M unit :=
  await_write (fun _ s => apply_op (UpdatePlayer pid u) s).

(** [setDoc(doc(db, 'rooms', room.id, 'players', p.id), p)]. *)
Definition setDoc_player (p : Player) : M unit :=
  await_write (fun _ s => Some (with_players s (put_player p (db_players s)))).

(** [batch.commit()]: a batch without updates resolves at once. *)
Definition commit (ops : list BatchOp) : M unit :=
  match ops with
  | [] => ret tt
  | _ => await_write (fun _ s => apply_batch ops s)
  end.

(* ================================================================= *)
(** ** Actions of the store *)

Definition find_player (pid : string) (ps : list Player) : option Player :=
  find (fun p => p_id p =? pid) ps.

(** [sendMessage(prompt, isAction = false)]. *)
Definition sendMessage (prompt : string) (isAction : bool) : M unit :=
  g <- get_state ;;
  match gs_room g with
  | None => ret tt
  | Some room =>
      if negb (Js.truthy (gs_playerId g)) then ret tt
      else if negb (Js.truthy (Some (Js.trim prompt))) then ret tt
      else
        let playerId := Js.or_else (gs_playerId g) "" in
        let me := find_player playerId (gs_players g) in
        addDoc (mkMessageData user prompt
                  (Some (Js.or_else (option_map p_name me) "Player"))
                  (Some isAction)) ;;
        if isAction
        then updateDoc_player playerId (SetChoices None)
        else ret tt
  end.

(** [parseInt(rollReq.diceType.replace('d', '')) || 20]. *)
Definition dice_max (diceType : string) : Js.Number :=
  Js.num_or_else (Js.parseInt (Js.remove_first "d" diceType)) (Js.Int 20).

(** A value of [Math.random()]: a double, at least 0 and below 1. *)
Definition random_draw (rnd : Q) : Prop :=
  Js.is_double rnd /\ 0 <= rnd /\ rnd < 1.

(** [Math.floor(Math.random() * max) + 1], for the draw [rnd]. *)
Definition dice_result (rnd : Q) (max : Js.Number) : Js.Number :=
  Js.floor_mul_succ rnd max.

Definition roll_content (rollReq : RollRequest) (result : Js.Number) : string :=
  "[Dice Roll] " ++ reason rollReq ++ ": Rolled a " ++ Js.toString result
    ++ " (" ++ diceType rollReq ++ ")".

(** [performRoll(rollReq)]; [rnd] is the value of [Math.random()]. *)
Definition performRoll (rnd : Q) (rollReq : RollRequest) : M unit :=
  g <- get_state ;;
  match gs_room g with
  | None => ret tt
  | Some room =>
      if negb (Js.truthy (gs_playerId g)) then ret tt
      else
        let max := dice_max (diceType rollReq) in
        let result := dice_result rnd max in
        addDoc (mkMessageData user (roll_content rollReq result)
                  (Some "System") (Some true)) ;;
        updateDoc_room DeleteActiveRoll
  end.

(** [setReadyState(isReady)]. *)
Definition setReadyState (ready : bool) : M unit :=
  g <- get_state ;;
  match gs_room g with
  | None => ret tt
  | Some room =>
      if negb (Js.truthy (gs_playerId g)) then ret tt
      else updateDoc_player (Js.or_else (gs_playerId g) "") (SetIsReady ready)
  end.

(** The character data handed to [createCharacter], and the six scores
    it draws. *)
Record CharData := mkCharData {
  c_name : string;
  c_avatar : option string;
  c_characterClass : option string
}.

Definition join_content (p : Player) : string :=
  p_name p ++ " ("
    ++ match characterClass p with Some c => c | None => "undefined" end
    ++ ") has joined.".

(** [createCharacter(charData)]; [scores] are the drawn ability scores. *)
Definition createCharacter (charData : CharData) (scores : list (string * Z))
  : M unit :=
  g <- get_state ;;
  match gs_room g with
  | None => ret tt
  | Some room =>
      if negb (Js.truthy (gs_playerId g)) then ret tt
      else
        let playerId := Js.or_else (gs_playerId g) "" in
        let known := find_player playerId (gs_players g) in
        if andb (4 <=? List.length (gs_players g))%nat
                (match known with Some _ => false | None => true end)
        then ret tt
        else
          let newPlayer :=
            mkPlayer playerId (c_name charData) (c_avatar charData)
              (c_characterClass charData) scores false None in
          setDoc_player newPlayer ;;
          match known with
          | Some _ => ret tt
          | None =>
              addDoc (mkMessageData system (join_content newPlayer) None None)
          end
  end.

(* ================================================================= *)
(** ** The orchestration turn *)

(** What the awaited call of the narration service comes to: the call
    fails, the content does not parse, it parses to a value on which
    the turn throws a TypeError, or it parses to a response. *)
Inductive LlmOutcome :=
| NetworkFailure
| ParseFailure (message : string)
| TypeFailure
| Reply (gm : GmResponse).

Definition turn_fails (outcome : LlmOutcome) : bool :=
  match outcome with
  | NetworkFailure => true
  | ParseFailure _ => true
  | TypeFailure => true
  | Reply _ => false
  end.

(** The outcome of a call that delivered [rawContent]. On null the turn
    throws when it reads [roll_request]; on a boolean, a number or a
    string it throws when it assigns [choices]. [None] when the content
    parses to a value outside the embedding. *)
Definition outcome_of_content (rawContent : string) : option LlmOutcome :=
  match parse_reply rawContent with
  | ParseError m => Some (ParseFailure m)
  | ParsedOk (JObj ms) => option_map Reply (as_response (JObj ms))
  | ParsedOk (JArr items) => option_map Reply (as_response (JArr items))
  | ParsedOk _ => Some TypeFailure
  end.

(** [p.characterClass === target]. *)
Definition is_class (target : string) (p : Player) : bool :=
  match characterClass p with
  | Some c => c =? target
  | None => false
  end.

(** [batch.update(doc(db, 'rooms', room.id, 'players', p.id),
    { choices: null })]. *)
Definition clear_op (p : Player) : BatchOp :=
  UpdatePlayer (p_id p) (SetChoices None).

(** The roll-request branch of the batch. *)
Definition roll_ops (players : list Player) (ask : RollAsk)
  (target : string) : list BatchOp :=
  match find (is_class target) players with
  | Some targetPlayer =>
      UpdateRoom (SetActiveRoll
                    (mkRollRequest (p_id targetPlayer) (p_name targetPlayer)
                       (Js.or_else (ask_diceType ask) "d20")
                       (Js.or_else (ask_reason ask) "Check")))
      :: map clear_op players
  | None => []
  end.

(** [choiceKey ? gmResponse.choices[choiceKey] : ["Look around", "Wait"]]
    for the key found for [playerClass]. *)
Definition choicesToUpdate {cm : Js.CaseMapping} (ch : list (string * list string))
  (playerClass : string) : list string :=
  match find_key ch playerClass with
  | Some choiceKey =>
      if choiceKey =? "" then ["Look around"; "Wait"]
      else match Obj.get choiceKey ch with
           | Some l => l
           | None => ["Look around"; "Wait"]
           end
  | None => ["Look around"; "Wait"]
  end.

(** The update of one player in the choices branch. *)
Definition choice_op {cm : Js.CaseMapping} (ch : list (string * list string)) (player : Player)
  : list BatchOp :=
  match characterClass player with
  | None => []
  | Some playerClass =>
      if playerClass =? "" then []
      else [UpdatePlayer (p_id player)
              (SetChoices (Some (choicesToUpdate ch playerClass)))]
  end.

(** The choices branch of the batch. *)
Definition choices_ops {cm : Js.CaseMapping} (room : GameRoom) (players : list Player)
  (ch : list (string * list string)) : list BatchOp :=
  (match activeRoll room with
   | Some _ => [UpdateRoom DeleteActiveRoll]
   | None => []
   end) ++ flat_map (choice_op ch) players.

(** The updates put in the write batch for the response [gm], from the
    room and the players read at the start of the turn. *)
Definition batch_ops {cm : Js.CaseMapping} (room : GameRoom) (players : list Player)
  (gm : GmResponse) : list BatchOp :=
  let choices_branch :=
    match gm_choices gm with
    | Some ch => choices_ops room players ch
    | None => []
    end in
  (if Js.truthy (scene_image_prompt gm)
   then [UpdateRoom (SetCurrentScene (Js.or_else (scene_image_prompt gm) ""))]
   else []) ++
  (match roll_request gm with
   | Some ask =>
       if Js.truthy (targetClassName ask)
       then roll_ops players ask (Js.or_else (targetClassName ask) "")
       else choices_branch
   | None => choices_branch
   end).

(** The writes of the turn for a parsed response: the narrative message,
    then the batch. *)
Definition reconcile {cm : Js.CaseMapping} (room : GameRoom) (players : list Player)
  (parsed : GmResponse) : M unit :=
  let gmResponse := repair players parsed in
  (match narrative gmResponse with
   | Some n =>
       if n =? "" then ret tt
       else addDoc (mkMessageData assistant n (Some "GM") None)
   | None => ret tt
   end) ;;
  commit (batch_ops room players gmResponse).

Definition gm_error_message : MessageData :=
  mkMessageData system
    "(GM Error: The spirits are confused. Please try acting again.)"
    None None.

(** The [try]/[catch]/[finally] of [_triggerGmResponse], from the point
    where the awaited call comes back. *)
Definition resume_turn {cm : Js.CaseMapping} (room : GameRoom) (players : list Player)
  (outcome : LlmOutcome) : M unit :=
  try_catch_finally
    (match outcome with
     | NetworkFailure => throw NetworkError
     | ParseFailure m => throw (JsonError m)
     | TypeFailure => throw TypeError
     | Reply gm => reconcile room players gm
     end)
    (fun _ => addDoc gm_error_message)
    (set_state (put_isAiThinking false)).

(** A step that only touches the zustand state. *)
Definition local {A} (f : GameState -> A * GameState) : M A :=
  fun w =>
    let '(a, g) := f (state w) in
    (Returned a, mkWorld (store w) g (replies w)).

(** The start of [_triggerGmResponse], up to the awaited call: the room
    and the players it reads, or [None] when it returns at once. *)
Definition begin_turn_local (g : GameState)
  : option (GameRoom * list Player) * GameState :=
  match gs_room g with
  | None => (None, g)
  | Some room => (Some (room, gs_players g), put_isAiThinking true g)
  end.

Definition begin_turn : M (option (GameRoom * list Player)) :=
  local begin_turn_local.

(** [_triggerGmResponse], the awaited call coming to [outcome]. *)
Definition _triggerGmResponse {cm : Js.CaseMapping} (outcome : LlmOutcome) : M unit :=
  t <- begin_turn ;;
  match t with
  | None => ret tt
  | Some (room, players) => resume_turn room players outcome
  end.

(** The status write of [startGame()], as a step of the room; the turn
    [startGame] starts is a step of its own. *)
Definition startGame_write : M unit :=
  g <- get_state ;;
  match gs_room g with
  | None => ret tt
  | Some room => updateDoc_room (SetGameStatus playing)
  end.

(* ================================================================= *)
(** ** The chat listener of joinRoom and its trigger guard *)

Definition is_action (m : ChatMessage) : bool :=
  match isAction m with Some b => b | None => false end.

Definition is_user (m : ChatMessage) : bool :=
  match role m with user => true | _ => false end.

Definition opt_eqb (a : string) (b : option string) : bool :=
  match b with Some s => a =? s | None => false end.

(** The condition of the [if] in the listener, for the last message. *)
Definition trigger_guard (g : GameState) (lastMsg : ChatMessage) : bool :=
  is_user lastMsg && is_action lastMsg &&
  match gs_room g with
  | Some room =>
      match activeRoll room with Some _ => false | None => true end
      && opt_eqb (hostId room) (gs_playerId g)
  | None => false
  end &&
  negb (isAiThinking g) &&
  negb (opt_eqb (m_id lastMsg) (lastHandledMessageId g)).

(** [msgs[msgs.length - 1]]; [None] stands for undefined. *)
Definition last_message (msgs : list ChatMessage) : option ChatMessage :=
  List.last (map Some msgs) None.

(** The callback of the messages subscription: the id of the message a
    turn is started for, if any, and the state it leaves. *)
Definition on_messages (msgs : list ChatMessage) (g : GameState)
  : option string * GameState :=
  let g1 := put_chatHistory msgs g in
  match last_message msgs with
  | Some lastMsg =>
      if trigger_guard g1 lastMsg
      then
        let g2 := put_lastHandledMessageId (Some (m_id lastMsg)) g1 in
        (Some (m_id lastMsg), snd (begin_turn_local g2))
      else (None, g1)
  | None => (None, g1)
  end.

(** What happens to the zustand state of a process: the callbacks of the
    three subscriptions, the auth callback, the loading flag, the start
    and the end of a turn, and [cleanup]. *)
Inductive StoreEvent :=
| MessagesSnapshot (msgs : list ChatMessage)
| RoomSnapshot (room : GameRoom)
| PlayersSnapshot (players : list Player)
| AuthChanged (uid : option string)
| Loading (b : bool)
| TurnStarted
| TurnFinished
| Cleanup.

Definition on_event (e : StoreEvent) (g : GameState)
  : option string * GameState :=
  match e with
  | MessagesSnapshot msgs => on_messages msgs g
  | RoomSnapshot room =>
      (None, mkGameState (Some room) (gs_players g) (chatHistory g)
               (gs_playerId g) (isLoading g) (isAiThinking g)
               (lastHandledMessageId g))
  | PlayersSnapshot players =>
      (None, mkGameState (gs_room g) players (chatHistory g)
               (gs_playerId g) (isLoading g) (isAiThinking g)
               (lastHandledMessageId g))
  | AuthChanged uid =>
      (None, mkGameState (gs_room g) (gs_players g) (chatHistory g)
               uid (isLoading g) (isAiThinking g) (lastHandledMessageId g))
  | Loading b =>
      (None, mkGameState (gs_room g) (gs_players g) (chatHistory g)
               (gs_playerId g) b (isAiThinking g) (lastHandledMessageId g))
  | TurnStarted => (None, snd (begin_turn_local g))
  | TurnFinished => (None, put_isAiThinking false g)
  | Cleanup =>
      (None, mkGameState None [] [] (gs_playerId g) (isLoading g)
               (isAiThinking g) (lastHandledMessageId g))
  end.

(** The message ids the guard started a turn for, along a run of the
    process, in order. *)
Fixpoint fired (es : list StoreEvent) (g : GameState) : list string :=
  match es with
  | [] => []
  | e :: r =>
      match on_event e g with
      | (Some m, g') => m :: fired r g'
      | (None, g') => fired r g'
      end
  end.


(** The message lists the callbacks of a run see, in order. *)
Fixpoint snapshots (es : list StoreEvent) : list (list ChatMessage) :=
  match es with
  | [] => []
  | MessagesSnapshot msgs :: r => msgs :: snapshots r
  | _ :: r => snapshots r
  end.

(** The chat log is append-only: every list the listener sees extends
    the list before it. *)
Fixpoint append_only (prev : list ChatMessage) (ls : list (list ChatMessage))
  : Prop :=
  match ls with
  | [] => True
  | l :: r => (exists added, l = (prev ++ added)%list) /\ append_only l r
  end.


(* ================================================================= *)
(** ** The room as a transition system

    The documents of the room, and the turns that have read the room and
    the players and still wait for the narration service. A turn commits
    against what it read at its start, whatever happened to the
    documents while it waited. *)

Record Sys := mkSys {
  sys_store : Store;
  sys_turns : list (GameRoom * list Player)
}.

(** The room document [createRoom] writes, before anyone joins. *)
Definition new_room (roomId host : string) : Store :=
  mkStore
    (mkGameRoom roomId host lobby None
       (Some "ancient mysterious map, parchment, table top view, dnd mood"))
    [] [] 0.

(** The world of a client with local state [g] in front of the
    documents [s], the backend answering [rs]. *)
Definition client (s : Store) (g : GameState) (rs : list WriteReply) : World :=
  mkWorld s g rs.

(** One step of the room. A turn starts from the copy of the room and of
    the players its client holds, which the listeners bring up to date
    some time after the documents change. With [overlap = false] a turn
    starts only when no other turn is waiting; with [lag = false] it
    starts only from a copy equal to the documents. *)
Inductive step {cm : Js.CaseMapping} (overlap lag : bool) : Sys -> Sys -> Prop :=
| step_begin : forall s room players,
    overlap = true \/ sys_turns s = [] ->
    lag = true \/
      (room = db_room (sys_store s) /\ players = db_players (sys_store s)) ->
    step overlap lag s
      (mkSys (sys_store s) ((room, players) :: sys_turns s))
| step_resume : forall s before room players after outcome g rs,
    sys_turns s = (before ++ (room, players) :: after)%list ->
    step overlap lag s
      (mkSys (store (snd (resume_turn room players outcome
                            (client (sys_store s) g rs))))
         (before ++ after))
| step_sendMessage : forall s prompt isAction g rs,
    step overlap lag s
      (mkSys (store (snd (sendMessage prompt isAction
                            (client (sys_store s) g rs))))
         (sys_turns s))
| step_performRoll : forall s rnd rollReq g rs,
    step overlap lag s
      (mkSys (store (snd (performRoll rnd rollReq
                            (client (sys_store s) g rs))))
         (sys_turns s))
| step_setReadyState : forall s ready g rs,
    step overlap lag s
      (mkSys (store (snd (setReadyState ready (client (sys_store s) g rs))))
         (sys_turns s))
| step_createCharacter : forall s charData scores g rs,
    step overlap lag s
      (mkSys (store (snd (createCharacter charData scores
                            (client (sys_store s) g rs))))
         (sys_turns s))
| step_startGame : forall s g rs,
    step overlap lag s
      (mkSys (store (snd (startGame_write (client (sys_store s) g rs))))
         (sys_turns s)).

(** The states of the room that can be reached from its creation. *)
Inductive reachable {cm : Js.CaseMapping} (overlap lag : bool) : Sys -> Prop :=
| reach_new : forall roomId host,
    reachable overlap lag (mkSys (new_room roomId host) [])
| reach_step : forall s s',
    reachable overlap lag s -> step overlap lag s s' -> reachable overlap lag s'.

Definition no_choices (p : Player) : Prop :=
  match choices p with
  | None => True
  | Some l => l = []
  end.

(** Invariant 1 of the data model: a pending roll leaves no participant
    with choices. *)
Definition roll_excludes_choices (s : Store) : Prop :=
  activeRoll (db_room s) <> None -> Forall no_choices (db_players s).

(* ================================================================= *)
(** ** A table of four, used to run the definitions *)

Module Table.

Definition ann : Player :=
  mkPlayer "u1" "Ann" None (Some "Fighter") [] true None.

Definition bob : Player :=
  mkPlayer "u2" "Bob" None (Some "Wizard") [] true (Some ["Cast"; "Hide"]).

Definition room : GameRoom :=
  mkGameRoom "r1" "u1" playing None (Some "a cave").

Definition docs : Store := mkStore room [ann; bob] [] 0.

(** The local state of the host, all subscriptions delivered. *)
Definition host : GameState :=
  mkGameState (Some room) [ann; bob] [] (Some "u1") false false None.

Definition d6 : RollRequest := mkRollRequest "u1" "Ann" "d6" "Pick the lock".

End Table.

Module Chat.

Definition m1 : ChatMessage :=
  mkChatMessage "m1" user "Open the door" (Some "Ann") (Some true) 0.

Definition m2 : ChatMessage :=
  mkChatMessage "m2" assistant "The door creaks." (Some "GM") None 1.

(** The listener called twice with the same log, then with a longer one,
    the turn of the first call ending in between. *)
Definition run : list StoreEvent :=
  [MessagesSnapshot [m1]; TurnFinished; MessagesSnapshot [m1];
   MessagesSnapshot [m1; m2]].

End Chat.

(** The list the choices map holds for a class: the value of the first
    key equal to the class up to case, and the empty list without such a
    key. *)
Definition entry_for {cm : Js.CaseMapping} (ch : list (string * list string)) (c : string)
  : list string :=
  match find_key ch c with
  | Some k => match Obj.get k ch with Some l => l | None => [] end
  | None => []
  end.

(** The state of a class in the choices map [ch] during the repair of
    the map [ch0]: padded, when its first matching key holds the padded
    list of the class and is the key [ch0] had, if it had one; or as in
    [ch0]. *)
Definition padded_for {cm : Js.CaseMapping} (ch0 ch : list (string * list string)) (c : string)
  : Prop :=
  exists k,
    find_key ch c = Some k /\
    Obj.get k ch = Some (pad (entry_for ch0 c)) /\
    (forall k0, find_key ch0 c = Some k0 -> k = k0).

Definition pristine_for {cm : Js.CaseMapping} (ch0 ch : list (string * list string)) (c : string)
  : Prop :=
  find_key ch c = find_key ch0 c /\ entry_for ch c = entry_for ch0 c.

(* ================================================================= *)
(** ** Views of a batch

    What a sequence of updates does to the room document and to one
    player document, update by update. *)

Definition room_after (ops : list BatchOp) (r : GameRoom) : GameRoom :=
  fold_left (fun r' op => match op with
                          | UpdateRoom u => apply_room u r'
                          | UpdatePlayer _ _ => r'
                          end) ops r.

Definition player_after (ops : list BatchOp) (p : Player) : Player :=
  fold_left (fun q op => match op with
                         | UpdateRoom _ => q
                         | UpdatePlayer pid u =>
                             if p_id q =? pid then apply_player u q else q
                         end) ops p.

(** The class a roll request names, if any. *)
Definition roll_target (gm : GmResponse) : option string :=
  match roll_request gm with
  | Some ask => targetClassName ask
  | None => None
  end.

(** The room document with the scene of the response, if it has one. *)
Definition with_scene (gm : GmResponse) (r : GameRoom) : GameRoom :=
  if Js.truthy (scene_image_prompt gm)
  then apply_room (SetCurrentScene (Js.or_else (scene_image_prompt gm) "")) r
  else r.

(** A player document with the choices the choices branch gives it. *)
Definition with_choices {cm : Js.CaseMapping} (ch : list (string * list string)) (p : Player)
  : Player :=
  match characterClass p with
  | None => p
  | Some c =>
      if c =? "" then p
      else apply_player (SetChoices (Some (choicesToUpdate ch c))) p
  end.

(* ================================================================= *)
(** ** Writes that cannot break the roll invariant

    The changes the actions of the players make to the documents: a new
    message, the choices of a player set to null, a ready flag, a player
    document written without choices, the active roll deleted, the game
    status. None of them sets an active roll or gives choices. *)

Inductive quiet : Store -> Store -> Prop :=
| quiet_refl : forall s, quiet s s
| quiet_trans : forall s1 s2 s3, quiet s1 s2 -> quiet s2 s3 -> quiet s1 s3
| quiet_message : forall s docId d, quiet s (append_message docId d s)
| quiet_clear : forall s pid,
    quiet s (with_players s (update_player pid (SetChoices None) (db_players s)))
| quiet_ready : forall s pid b,
    quiet s (with_players s (update_player pid (SetIsReady b) (db_players s)))
| quiet_put : forall s p,
    choices p = None ->
    quiet s (with_players s (put_player p (db_players s)))
| quiet_roll_deleted : forall s,
    quiet s (with_room s (apply_room DeleteActiveRoll (db_room s)))
| quiet_status : forall s g,
    quiet s (with_room s (apply_room (SetGameStatus g) (db_room s))).

(** A computation whose writes are all of that kind. *)
Definition Quiet {A} (m : M A) : Prop :=
  forall w, quiet (store w) (store (snd (m w))).



(* ================================================================= *)
(** ** The statements of the specification, in its own words

    These definitions follow the specification, not the store; they are
    what the store is compared with. *)

Module Spec.

(** Every write of a reconciliation applied to the documents: the
    narrative message when there is a narrative, and the updates of the
    batch. *)
Definition every_write {cm : Js.CaseMapping} (docId : string) (room : GameRoom)
  (players : list Player) (gm : GmResponse) (s : Store) : option Store :=
  let gm' := repair players gm in
  let s1 :=
    if Js.truthy (narrative gm')
    then append_message docId
           (mkMessageData assistant (Js.or_else (narrative gm') "")
              (Some "GM") None) s
    else s in
  apply_batch (batch_ops room players gm') s1.

(** "All writes in a reconciliation commit together or not at all." *)
Definition all_or_nothing {cm : Js.CaseMapping} (room : GameRoom) (players : list Player)
  (gm : GmResponse) (w : World) : Prop :=
  let s' := store (snd (reconcile room players gm w)) in
  s' = store w \/
  exists docId, every_write docId room players gm (store w) = Some s'.

(** "A roll request names a class matching some participant." *)
Definition roll_resolved (players : list Player) (gm : GmResponse) : bool :=
  match roll_request gm with
  | Some ask =>
      match targetClassName ask with
      | Some target =>
          match find (is_class target) players with
          | Some _ => true
          | None => false
          end
      | None => false
      end
  | None => false
  end.

(** "Choices branch (only when no roll request resolved to a
    participant): clear any stale activeRoll; for each participant with a
    class label, [...] set that participant's choices." *)
Definition choices_branch_applies {cm : Js.CaseMapping} (room : GameRoom) (players : list Player)
  (gm : GmResponse) : Prop :=
  roll_resolved players gm = false ->
  (activeRoll room <> None ->
   In (UpdateRoom DeleteActiveRoll) (batch_ops room players gm)) /\
  (forall p c, In p players -> characterClass p = Some c -> c <> "" ->
     In (UpdatePlayer (p_id p)
           (SetChoices
              (Some (choicesToUpdate
                       (match gm_choices gm with Some ch => ch | None => [] end)
                       c))))
        (batch_ops room players gm)).

(** "At least two distinct entries." *)
Definition two_distinct (l : list string) : Prop :=
  exists a b, a <> b /\ In a l /\ In b l.

(** "Every class-bearing participant receives at least two distinct
    choices whenever no roll is requested." *)
Definition repair_gives_two_distinct {cm : Js.CaseMapping} (players : list Player)
  (gm : GmResponse) : Prop :=
  roll_request gm = None ->
  forall p c, In p players -> characterClass p = Some c -> c <> "" ->
    exists ch k l,
      gm_choices (repair players gm) = Some ch /\
      find_key ch c = Some k /\ Obj.get k ch = Some l /\
      (2 <= List.length l)%nat /\ two_distinct l.

(** "For die descriptor d<N> with N a positive integer, result in
    [1, N]." *)
Definition dice_in_range (N : Z) (rnd : Q) : Prop :=
  exists r : Z,
    dice_result rnd (dice_max ("d" ++ Js.string_of_Z N)) = Js.Int r /\
    (1 <= r <= N)%Z.

(** "The error is caught inside the GM Orchestrator and does not
    propagate to the caller, a visible system chat message describing
    the failure is appended." *)
Definition failure_is_reported {cm : Js.CaseMapping} (outcome : LlmOutcome)
  (w : World) : Prop :=
  fst (_triggerGmResponse outcome w) = Returned tt /\
  exists m,
    db_messages (store (snd (_triggerGmResponse outcome w)))
    = (db_messages (store w) ++ [m])%list /\
    role m = system.

(** "The first substring bounded by an opening and the corresponding
    closing brace": from the first opening brace, the characters up to
    the closing brace that brings the nesting depth back to zero. *)
Fixpoint upto_matching (depth : nat) (s : string) : option string :=
  match s with
  | EmptyString => None
  | String c r =>
      if Ascii.eqb c "{" then
        match upto_matching (S depth) r with
        | Some t => Some (String c t)
        | None => None
        end
      else if Ascii.eqb c "}" then
        match depth with
        | O => None
        | S O => Some (String c EmptyString)
        | S d =>
            match upto_matching d r with
            | Some t => Some (String c t)
            | None => None
            end
        end
      else
        match upto_matching depth r with
        | Some t => Some (String c t)
        | None => None
        end
  end.

Definition corresponding_braces (raw : string) : option string :=
  match Regex.from_first "{" raw with
  | Some s => upto_matching 0 s
  | None => None
  end.

(** The algorithm of response repair as the specification words it. *)
Definition parse_reply (rawContent : string) : Parsed :=
  match JSON.parse rawContent with
  | Some j => ParsedOk j
  | None =>
      match corresponding_braces rawContent with
      | Some span =>
          match JSON.parse span with
          | Some j => ParsedOk j
          | None => ParseError "Unrecoverable JSON error"
          end
      | None => ParseError "No JSON object found in response"
      end
  end.

End Spec.

Module Cases.

(** A reply with a narrative, a scene and choices for both classes. *)
Definition gm_choices_reply : GmResponse :=
  mkGmResponse (Some "The door opens.") (Some "an open door") None
    (Some [("Fighter", ["Strike"; "Parry"]); ("Wizard", ["Cast"; "Hide"])]).

(** A roll request for a class nobody plays, next to a choices map. *)
Definition gm_unmatched_roll : GmResponse :=
  mkGmResponse (Some "A trap!") None
    (Some (mkRollAsk (Some "Bard") (Some "d20") (Some "Dodge")))
    (Some [("Fighter", ["Strike"; "Parry"]); ("Wizard", ["Cast"; "Hide"])]).

(** A roll request that names no class, and no choices map. *)
Definition gm_roll_without_target : GmResponse :=
  mkGmResponse (Some "Roll for it!") None
    (Some (mkRollAsk None (Some "d20") (Some "Luck"))) None.

(** A roll request for the fighter. *)
Definition gm_roll : GmResponse :=
  mkGmResponse (Some "A trap!") None
    (Some (mkRollAsk (Some "Fighter") None (Some "Dodge"))) None.

(** Choices that repeat one entry. *)
Definition gm_repeated : GmResponse :=
  mkGmResponse (Some "x") None None (Some [("Fighter", ["a"; "a"])]).

(** The room with a roll left pending. *)
Definition stale_room : GameRoom :=
  mkGameRoom "r1" "u1" playing (Some Table.d6) (Some "a cave").

(** A member name or a string value, between double quotes. *)
Definition quoted (s : string) : string :=
  String JSON.dquote (s ++ String JSON.dquote EmptyString).

(** An object between two words: the text
    [blah {"narrative":"x","choices":{"Fighter":["a"]}} blah]. *)
Definition raw_wrapped : string :=
  "blah {" ++ quoted "narrative" ++ ":" ++ quoted "x" ++ ","
    ++ quoted "choices" ++ ":{" ++ quoted "Fighter" ++ ":[" ++ quoted "a"
    ++ "]}} blah".

(** An object followed by a stray closing brace: the text
    [Sure! {"narrative":"x"} Enjoy :-}]. *)
Definition raw_stray_brace : string :=
  "Sure! {" ++ quoted "narrative" ++ ":" ++ quoted "x" ++ "} Enjoy :-}".

End Cases.

(** Two turns that wait at the same time: [startGame] called twice.
    The fighter joins a new room; the host starts the game, and a turn
    reads the room, which has no roll; before the narration service
    answers, [startGame] runs again and a second turn reads the same
    room; the first turn comes back with a roll request for the fighter,
    the second with choices. *)
Module Race.

#[local] Existing Instance Js.ascii_case.

Definition ann_client : GameState :=
  mkGameState (Some (db_room (new_room "r1" "u1"))) [] [] (Some "u1")
    false false None.

(** The backend accepts every write and names the new documents. *)
Definition accepts (a b : string) : list WriteReply :=
  [Accepted a; Accepted b].

Definition created : Sys := mkSys (new_room "r1" "u1") [].

Definition joined : Sys :=
  mkSys (store (snd (createCharacter (mkCharData "Ann" None (Some "Fighter")) []
                       (client (sys_store created) ann_client
                          (accepts "w1" "w2")))))
    (sys_turns created).

Definition started : Sys :=
  mkSys (store (snd (startGame_write
                       (client (sys_store joined) ann_client
                          (accepts "w3" "w4")))))
    (sys_turns joined).

Definition first_waits : Sys :=
  mkSys (sys_store started)
    ((db_room (sys_store started), db_players (sys_store started))
       :: sys_turns started).

Definition started_again : Sys :=
  mkSys (store (snd (startGame_write
                       (client (sys_store first_waits) ann_client
                          (accepts "w5" "w6")))))
    (sys_turns first_waits).

Definition both_wait : Sys :=
  mkSys (sys_store started_again)
    ((db_room (sys_store started_again), db_players (sys_store started_again))
       :: sys_turns started_again).

Definition roll_committed : Sys :=
  mkSys (store (snd (resume_turn (db_room (sys_store started))
                       (db_players (sys_store started)) (Reply Cases.gm_roll)
                       (client (sys_store both_wait) ann_client
                          (accepts "w7" "w8")))))
    ([(db_room (sys_store started_again),
       db_players (sys_store started_again))] ++ []).


(** One turn after the other, each from the documents as they are: the
    first gives the fighter choices, the second asks the fighter for a
    roll. *)
Definition choices_first : Sys :=
  mkSys (store (snd (resume_turn (db_room (sys_store started))
                       (db_players (sys_store started))
                       (Reply Cases.gm_choices_reply)
                       (client (sys_store first_waits) ann_client
                          (accepts "w5" "w6")))))
    ([] ++ []).

Definition second_waits : Sys :=
  mkSys (sys_store choices_first)
    ((db_room (sys_store choices_first), db_players (sys_store choices_first))
       :: sys_turns choices_first).

Definition rolled : Sys :=
  mkSys (store (snd (resume_turn (db_room (sys_store choices_first))
                       (db_players (sys_store choices_first))
                       (Reply Cases.gm_roll)
                       (client (sys_store second_waits) ann_client
                          (accepts "w7" "w8")))))
    ([] ++ []).

(** A third turn, after the second, from the copy of the room the
    client held before the second turn committed: it has no roll. *)
Definition third_waits : Sys :=
  mkSys (sys_store rolled)
    ((db_room (sys_store choices_first), db_players (sys_store choices_first))
       :: sys_turns rolled).

Definition lagged : Sys :=
  mkSys (store (snd (resume_turn (db_room (sys_store choices_first))
                       (db_players (sys_store choices_first))
                       (Reply Cases.gm_choices_reply)
                       (client (sys_store third_waits) ann_client
                          (accepts "w9" "w10")))))
    ([] ++ []).

(** A second participant joins, and the first creates a character
    again. *)
Definition bob_client : GameState :=
  mkGameState (Some (db_room (new_room "r1" "u1"))) [] [] (Some "u2")
    false false None.

Definition bob_joined : Sys :=
  mkSys (store (snd (createCharacter (mkCharData "Bob" None (Some "Wizard")) []
                       (client (sys_store joined) bob_client
                          (accepts "w3" "w4")))))
    (sys_turns joined).

Definition ann_again : Sys :=
  mkSys (store (snd (createCharacter (mkCharData "Anna" None (Some "Bard")) []
                       (client (sys_store bob_joined) ann_client
                          (accepts "w5" "w6")))))
    (sys_turns bob_joined).

End Race.

(* ================================================================= *)
(** ** The request to the narration service

    What [_triggerGmResponse] sends: the persona prompt, the user and
    assistant messages of the log, and a closing instruction. *)

Module Ollama.

(** One turn of the request: [{ role, content }]. *)
Record Message := mkMessage {
  o_role : Role;
  o_content : string
}.

(** The body of [axios.post(OLLAMA_API_URL, ...)]. *)
Record Request := mkRequest {
  model : string;
  format : string;
  messages : list Message;
  stream : bool
}.

Definition nl : string := String (ascii_of_nat 10) EmptyString.

Definition q : string := String JSON.dquote EmptyString.

(** [s.includes(t)]. *)
Fixpoint includes (s t : string) : bool :=
  if String.prefix t s then true
  else match s with
       | EmptyString => false
       | String _ r => includes r t
       end.

Definition GM_JSON_SYSTEM_PROMPT : string :=
  "[CRITICAL] YOU MUST RESPOND ONLY WITH VALID JSON." ++ nl ++
  nl ++
  "You are a professional Dungeons & Dragons (5e) Game Master." ++ nl ++
  "YOUR PLAYSTYLE: Aggressive, Fast-paced, Dice-heavy." ++ nl ++
  "NEVER repeat the same description. ALWAYS drive the action forward." ++ nl ++
  nl ++
  "JSON Format Structure:" ++ nl ++
  "{" ++ nl ++
  "  " ++ q ++ "narrative" ++ q ++ ": " ++ q ++ "Vivid description..." ++ q ++ "," ++ nl ++
  "  " ++ q ++ "scene_image_prompt" ++ q ++ ": " ++ q ++ "visual description..." ++ q ++ "," ++ nl ++
  "  // MANDATORY: ONE OF THESE TWO MUST BE PRESENT" ++ nl ++
  "  " ++ q ++ "roll_request" ++ q ++ ": { " ++ q ++ "targetClassName" ++ q ++ ": " ++ q ++ "..." ++ q ++ ", " ++ q ++ "diceType" ++ q ++ ": " ++ q ++ "d20" ++ q ++ ", " ++ q ++ "reason" ++ q ++ ": " ++ q ++ "..." ++ q ++ " }," ++ nl ++
  "  " ++ q ++ "choices" ++ q ++ ": { " ++ q ++ "Fighter" ++ q ++ ": [" ++ q ++ "..." ++ q ++ "], " ++ q ++ "Wizard" ++ q ++ ": [" ++ q ++ "..." ++ q ++ "] }" ++ nl ++
  "}" ++ nl ++
  nl ++
  "STRICT RULES:" ++ nl ++
  "1. " ++ q ++ "narrative" ++ q ++ ": Must end with a call to action." ++ nl ++
  "2. MANDATORY: You MUST provide EITHER " ++ q ++ "roll_request" ++ q ++ " OR " ++ q ++ "choices" ++ q ++ "." ++ nl ++
  "3. FIRST TURN: You MUST provide immediate " ++ q ++ "choices" ++ q ++ " for ALL players to start the adventure. Do not just describe the scene." ++ nl ++
  "4. AGGRESSIVELY use " ++ q ++ "roll_request" ++ q ++ " for uncertain actions." ++ nl ++
  "5. If NO roll needed, provide AT LEAST 2 distinct " ++ q ++ "choices" ++ q ++ " for EVERY class." ++ nl ++
  EmptyString.

Definition generic_instruction (playerClasses : string) : string :=
  "[GM INSTRUCTION]" ++ nl ++
  "        Current party: [" ++ playerClasses ++
  "]." ++ nl ++
  "        Based on the last action, what happens next?" ++ nl ++
  "        CRITICAL: You MUST now provide either a 'roll_request' (if uncertain) OR 'choices' for ALL players to advance the story.".

Definition resolve_instruction : string :=
  "[GM INSTRUCTION]" ++ nl ++
  "          CRITICAL: The player has ROLLED DICE as requested." ++ nl ++
  "          READ the last '[Dice Roll]' message carefully." ++ nl ++
  "          RESOLVE the outcome of this roll immediately based on D&D 5e rules (high is good, low is bad)." ++ nl ++
  "          ADVANCE the story based on this result. DO NOT repeat the previous scene description.".

(** [players.map(p => p.characterClass).filter(Boolean).join(', ')]. *)
Definition playerClasses (players : list Player) : string :=
  String.concat ", "
    (flat_map (fun p => match characterClass p with
                        | Some c => if c =? "" then [] else [c]
                        | None => []
                        end) players).

(** [msg.role === 'user' || msg.role === 'assistant']. *)
Definition replayed (msg : ChatMessage) : bool :=
  match role msg with
  | user => true
  | assistant => true
  | system => false
  end.

Definition opening : Message :=
  mkMessage user "Start the game with an engaging hook.".

(** [ollamaMessages], before the instruction is pushed. *)
Definition ollamaMessages (currentChatHistory : list ChatMessage)
  : list Message :=
  match map (fun msg => mkMessage (role msg) (content msg))
            (filter replayed currentChatHistory) with
  | [] => [opening]
  | ms => ms
  end.

(** [ollamaMessages[ollamaMessages.length - 1]]. *)
Definition lastUserMessage (ms : list Message) : option Message :=
  List.last (map Some ms) None.

Definition marks_roll (m : Message) : bool :=
  match o_role m with
  | user => includes (o_content m) "[Dice Roll]"
  | _ => false
  end.

Definition instructionContent (players : list Player) (ms : list Message)
  : string :=
  match lastUserMessage ms with
  | Some m =>
      if marks_roll m then resolve_instruction
      else generic_instruction (playerClasses players)
  | None => generic_instruction (playerClasses players)
  end.

(** The request of a turn, for the players the turn read and the chat
    history it was given. *)
Definition request (players : list Player)
  (currentChatHistory : list ChatMessage) : Request :=
  let ms := ollamaMessages currentChatHistory in
  mkRequest "llama3:8b" "json"
    (mkMessage system GM_JSON_SYSTEM_PROMPT
       :: ms ++ [mkMessage system (instructionContent players ms)])
    false.

End Ollama.

(** [_triggerGmResponse(currentChatHistory)], the narration service
    answering [service] to the request. *)
Definition _triggerGmResponse_call {cm : Js.CaseMapping} (currentChatHistory : list ChatMessage)
  (service : Ollama.Request -> LlmOutcome) : M unit :=
  t <- begin_turn ;;
  match t with
  | None => ret tt
  | Some (room, players) =>
      resume_turn room players
        (service (Ollama.request players currentChatHistory))
  end.

(** A turn that waits for the narration service: the room and the
    players it read, and the request it sent. *)
Record Pending := mkPending {
  pending_room : GameRoom;
  pending_players : list Player;
  pending_request : Ollama.Request
}.

(** [_triggerGmResponse(currentChatHistory)] up to the awaited [fetch]:
    all that runs before a caller who does not await the turn goes
    on. *)
Definition _triggerGmResponse_start (currentChatHistory : list ChatMessage)
  : M (option Pending) :=
  t <- begin_turn ;;
  match t with
  | None => ret None
  | Some (room, players) =>
      ret (Some (mkPending room players
                   (Ollama.request players currentChatHistory)))
  end.

(** The rest of the turn, from the answer of the narration service. *)
Definition _triggerGmResponse_finish {cm : Js.CaseMapping} (t : Pending)
  (outcome : LlmOutcome) : M unit :=
  resume_turn (pending_room t) (pending_players t) outcome.

(** [startGame()]: the status write, then the start of a turn that is
    not awaited. It returns while that turn waits. *)
Definition startGame : M (option Pending) :=
  g <- get_state ;;
  match gs_room g with
  | None => ret None
  | Some room =>
      updateDoc_room (SetGameStatus playing) ;;
      _triggerGmResponse_start []
  end.

(* ================================================================= *)
(** ** Rooms: create, join, leave *)

Definition put_isLoading (b : bool) (g : GameState) : GameState :=
  mkGameState (gs_room g) (gs_players g) (chatHistory g) (gs_playerId g)
    b (isAiThinking g) (lastHandledMessageId g).

(** [cleanup()], on the data fields of the store. *)
Definition cleanup (g : GameState) : GameState :=
  mkGameState None [] [] (gs_playerId g) (isLoading g) (isAiThinking g)
    (lastHandledMessageId g).

Inductive CreateResult :=
| LoginRequired
| RoomCreated (roomId : string) (docs : Store)
| CreateRejected.

(** [createRoom()]: the reply of the backend to the [addDoc] decides. *)
Definition createRoom (reply : WriteReply) (g : GameState)
  : CreateResult * GameState :=
  if negb (Js.truthy (gs_playerId g)) then (LoginRequired, g)
  else
    let g1 := put_isLoading true g in
    match reply with
    | Accepted roomId =>
        (RoomCreated roomId (new_room roomId (Js.or_else (gs_playerId g) "")),
         put_isLoading false g1)
    | Rejected => (CreateRejected, g1)
    end.

(** What [getDoc(roomRef)] comes to. *)
Inductive GetDoc :=
| DocExists
| DocMissing
| GetDocFailed.

Inductive JoinResult :=
| JoinIgnored
| Joined
| RoomNotFound
| JoinRejected.

(** [joinRoom(roomId)], up to the subscriptions, whose callbacks are the
    store events. *)
Definition joinRoom (snap : GetDoc) (g : GameState) : JoinResult * GameState :=
  if negb (Js.truthy (gs_playerId g)) then (JoinIgnored, g)
  else
    let g1 := put_isLoading true (cleanup g) in
    match snap with
    | GetDocFailed => (JoinRejected, g1)
    | DocMissing => (RoomNotFound, put_isLoading false g1)
    | DocExists => (Joined, put_isLoading false g1)
    end.

(* ================================================================= *)
(** ** What the screens compute from the store *)

Module Screens.

Inductive Screen :=
| Waiting
| Lobby
| Game.

(** [players.some(p => p.id === playerId)]. *)
Definition amIMember (players : list Player) (playerId : option string)
  : bool :=
  existsb (fun p => opt_eqb (p_id p) playerId) players.

(** The screen [Room] returns. *)
Definition Room (isAuthLoading : bool) (g : GameState) : Screen :=
  match gs_room g with
  | None => Waiting
  | Some room =>
      if orb isAuthLoading (isLoading g) then Waiting
      else if negb (amIMember (gs_players g) (gs_playerId g)) then Lobby
      else match gameStatus room with
           | lobby => Lobby
           | playing => Game
           end
  end.

(** [players.find(p => p.id === myPlayerId)]. *)
Definition me (players : list Player) (myPlayerId : option string)
  : option Player :=
  find (fun p => opt_eqb (p_id p) myPlayerId) players.

(** [room.hostId === myPlayerId]. *)
Definition isHost (room : GameRoom) (myPlayerId : option string) : bool :=
  opt_eqb (hostId room) myPlayerId.

(** [players.length > 0 && players.every(p => p.isReady)]. *)
Definition allReady (players : list Player) : bool :=
  andb (0 <? List.length players)%nat (forallb isReady players).

(** The start button of the lobby: shown to a member who is the host,
    and then enabled or not. *)
Definition start_shown (room : GameRoom) (players : list Player)
  (myPlayerId : option string) : bool :=
  match me players myPlayerId with
  | Some _ => isHost room myPlayerId
  | None => false
  end.

Definition start_disabled (loading : bool) (players : list Player) : bool :=
  orb (orb loading (negb (allReady players)))
      (List.length players =? 0)%nat.

(** The join button of a newcomer. *)
Definition join_disabled (loading : bool) (players : list Player) : bool :=
  orb loading (4 <=? List.length players)%nat.

(** [activeRoll?.playerId === myPlayerId]. *)
Definition isMyRoll (room : GameRoom) (myPlayerId : option string) : bool :=
  match activeRoll room with
  | Some r => opt_eqb (playerId r) myPlayerId
  | None => false
  end.

(** [handleRollClick]: the roll handed to [performRoll], if any. *)
Definition handleRollClick (room : GameRoom) (myPlayerId : option string)
  : option RollRequest :=
  match activeRoll room with
  | Some r => if isMyRoll room myPlayerId then Some r else None
  | None => None
  end.

(** The choices of the game screen: the menu shown, empty when the
    condition of the markup fails. *)
Definition choices_shown (room : GameRoom) (players : list Player)
  (myPlayerId : option string) (thinking : bool) : list string :=
  match activeRoll room with
  | Some _ => []
  | None =>
      match me players myPlayerId with
      | Some p =>
          match choices p with
          | Some l => if thinking then [] else l
          | None => []
          end
      | None => []
      end
  end.

(** The [disabled] of the Act button and of the Talk button. *)
Definition act_disabled (room : GameRoom) (thinking : bool) (prompt : string)
  : bool :=
  orb (orb thinking (match activeRoll room with Some _ => true | None => false end))
      (negb (Js.truthy (Some (Js.trim prompt)))).

Definition talk_disabled (prompt : string) : bool :=
  negb (Js.truthy (Some (Js.trim prompt))).

End Screens.

(* ================================================================= *)
(** ** Relations the writes of the store keep *)

(** A computation whose effect on the documents is within [R]. *)
Definition Writes {A} (R : Store -> Store -> Prop) (m : M A) : Prop :=
  forall w, R (store w) (store (snd (m w))).

(** The room keeps its id and its host, a game that is playing stays
    so, and the log keeps its messages. *)
Definition steady (s s' : Store) : Prop :=
  room_id (db_room s') = room_id (db_room s) /\
  hostId (db_room s') = hostId (db_room s) /\
  (gameStatus (db_room s) = playing -> gameStatus (db_room s') = playing) /\
  exists added, db_messages s' = (db_messages s ++ added)%list.

(** A player document without its choices. *)
Definition sheet (p : Player)
  : string * string * option string * option string * list (string * Z) * bool :=
  (p_id p, p_name p, avatar p, characterClass p, stats p, isReady p).

(** The party keeps its members and their sheets, the room its id, host
    and status, and the log grows by messages that are not of role
    user. *)
Definition narrated (s s' : Store) : Prop :=
  map sheet (db_players s') = map sheet (db_players s) /\
  room_id (db_room s') = room_id (db_room s) /\
  hostId (db_room s') = hostId (db_room s) /\
  gameStatus (db_room s') = gameStatus (db_room s) /\
  exists added,
    db_messages s' = (db_messages s ++ added)%list /\
    Forall (fun m => role m <> user) added.

(** The updates a reconciliation batches: the scene, the roll, and the
    choices of players. *)
Definition gentle (op : BatchOp) : bool :=
  match op with
  | UpdateRoom (SetGameStatus _) => false
  | UpdateRoom _ => true
  | UpdatePlayer _ (SetChoices _) => true
  | UpdatePlayer _ (SetIsReady _) => false
  end.

(** The map of a reply: what the repair starts from. *)
Definition reply_choices (gm : GmResponse) : list (string * list string) :=
  match gm_choices gm with
  | Some ch => ch
  | None => []
  end.

(** A run of the room: any number of steps. *)
Inductive run {cm : Js.CaseMapping} (overlap lag : bool) : Sys -> Sys -> Prop :=
| run_here : forall s, run overlap lag s s
| run_step : forall s s' s'',
    run overlap lag s s' -> step overlap lag s' s'' -> run overlap lag s s''.

(** The documents once the narrative of a response is in the log. *)
Definition with_narrative (docId : string) (gm : GmResponse) (s : Store)
  : Store :=
  match narrative gm with
  | Some n =>
      if n =? "" then s
      else append_message docId (mkMessageData assistant n (Some "GM") None) s
  | None => s
  end.

(* ================================================================= *)
(** ** The scores of a new character *)

(** [Math.floor(Math.random() * 16) + 3], for the draw [rnd]. The product
    of a double by 16, a power of two, is exact. *)
Definition ability_score (rnd : Q) : Z := (Qfloor (rnd * inject_Z 16) + 3)%Z.

(** The six values of [Math.random()] in [createCharacter], in the
    order of the object literal. *)
Record Draws := mkDraws {
  r_STR : Q;
  r_DEX : Q;
  r_CON : Q;
  r_INT : Q;
  r_WIS : Q;
  r_CHA : Q
}.

Definition drawn_stats (d : Draws) : list (string * Z) :=
  [("STR", ability_score (r_STR d)); ("DEX", ability_score (r_DEX d));
   ("CON", ability_score (r_CON d)); ("INT", ability_score (r_INT d));
   ("WIS", ability_score (r_WIS d)); ("CHA", ability_score (r_CHA d))].

(** A value of [Math.random()]. *)
Definition unit_draw (rnd : Q) : Prop := 0 <= rnd /\ rnd < 1.

(** The player document [createCharacter] writes for [pid]. *)
Definition newPlayer (pid : string) (charData : CharData)
  (scores : list (string * Z)) : Player :=
  mkPlayer pid (c_name charData) (c_avatar charData)
    (c_characterClass charData) scores false None.

(** The choices map grows: its keys stay, listed in the same order
    relative to each other, and the list of a key becomes the same list
    with entries after it. *)
Definition extends (ch ch' : list (string * list string)) : Prop :=
  (forall k, In k (Obj.keys ch) -> In k (Obj.keys ch')) /\
  filter (fun k => Obj.has k ch) (Obj.keys ch') = Obj.keys ch /\
  forall k l, Obj.get k ch = Some l ->
              exists extra, Obj.get k ch' = Some (l ++ extra)%list.


(* ================================================================= *)
(** ** Keys equal to a class up to case *)

(** [k] is the first key of the map, in the order [Object.keys] lists
    them, that is equal to the class [c] up to case. *)
Definition first_key {cm : Js.CaseMapping} (ch : list (string * list string))
  (c k : string) : Prop :=
  exists before after,
    Obj.keys ch = (before ++ k :: after)%list /\
    Js.toLowerCase k = Js.toLowerCase c /\
    Forall (fun k' => Js.toLowerCase k' <> Js.toLowerCase c) before.

(** No key of the map is equal to the class [c] up to case. *)
Definition no_key {cm : Js.CaseMapping} (ch : list (string * list string))
  (c : string) : Prop :=
  Forall (fun k' => Js.toLowerCase k' <> Js.toLowerCase c) (Obj.keys ch).

(** The fallback pool of the repair, and a list filled from it: a list
    of two entries or more as it is, a shorter one with the first
    entries of the pool that it does not hold, up to two entries. *)
Definition pool : list string :=
  ["Observe surroundings"; "Ready weapon"; "Discuss with party"; "Search area"].

Definition filled (l : list string) : list string :=
  (l ++ firstn (2 - List.length l)
          (filter (fun d => negb (existsb (String.eqb d) l)) pool))%list.

(** Every class that is played has a key, the first equal to it up to
    case, with two entries or more. *)
Definition complete_for {cm : Js.CaseMapping} (players : list Player)
  (ch : list (string * list string)) : Prop :=
  forall p c, In p players -> characterClass p = Some c -> c <> "" ->
    exists k l, first_key ch c k /\ Obj.get k ch = Some l /\
                (2 <= List.length l)%nat.

(* ================================================================= *)
(** ** What a batch leaves in the documents *)

(** The room document shows an update: the field holds what the update
    writes. *)
Definition room_shows (u : RoomUpdate) (r : GameRoom) : Prop :=
  match u with
  | SetCurrentScene sc => currentScene r = Some sc
  | SetActiveRoll a => activeRoll r = Some a
  | DeleteActiveRoll => activeRoll r = None
  | SetGameStatus st => gameStatus r = st
  end.

Definition player_shows (u : PlayerUpdate) (p : Player) : Prop :=
  match u with
  | SetChoices c => choices p = c
  | SetIsReady b => isReady p = b
  end.

(** The documents show an update: the room document does, or the
    document of the player does, which is there. *)
Definition shown (op : BatchOp) (s : Store) : Prop :=
  match op with
  | UpdateRoom u => room_shows u (db_room s)
  | UpdatePlayer pid u =>
      In pid (map p_id (db_players s)) /\
      forall q, In q (db_players s) -> p_id q = pid -> player_shows u q
  end.

(** All of a batch, and none of it. *)
Definition all_applied (ops : list BatchOp) (s' : Store) : Prop :=
  Forall (fun op => shown op s') ops.

Definition none_applied (s s' : Store) : Prop :=
  db_room s' = db_room s /\ db_players s' = db_players s.

(** Two updates write the same field of the same document. *)
Definition same_target (op op' : BatchOp) : bool :=
  match op, op' with
  | UpdateRoom u, UpdateRoom u' =>
      match u, u' with
      | SetCurrentScene _, SetCurrentScene _ => true
      | SetActiveRoll _, SetActiveRoll _ => true
      | SetActiveRoll _, DeleteActiveRoll => true
      | DeleteActiveRoll, SetActiveRoll _ => true
      | DeleteActiveRoll, DeleteActiveRoll => true
      | SetGameStatus _, SetGameStatus _ => true
      | _, _ => false
      end
  | UpdatePlayer pid u, UpdatePlayer pid' u' =>
      (pid =? pid') &&
      match u, u' with
      | SetChoices _, SetChoices _ => true
      | SetIsReady _, SetIsReady _ => true
      | _, _ => false
      end
  | _, _ => false
  end.

(* ================================================================= *)
(** ** Blank texts *)

Definition bytes (l : list nat) : string :=
  fold_right (fun n s => String (ascii_of_nat n) s) EmptyString l.

(** The white-space and line-terminator code points of ECMAScript, in
    UTF-8: U+0009 to U+000D, U+0020, U+00A0, U+1680, U+2000 to U+200A,
    U+2028, U+2029, U+202F, U+205F, U+3000 and U+FEFF. *)
Definition white_space : list string :=
  map bytes
    [[9]; [10]; [11]; [12]; [13]; [32]; [194; 160]; [225; 154; 128];
     [226; 128; 128]; [226; 128; 129]; [226; 128; 130]; [226; 128; 131];
     [226; 128; 132]; [226; 128; 133]; [226; 128; 134]; [226; 128; 135];
     [226; 128; 136]; [226; 128; 137]; [226; 128; 138]; [226; 128; 168];
     [226; 128; 169]; [226; 128; 175]; [226; 129; 159]; [227; 128; 128];
     [239; 187; 191]]%nat.

(** A text made of white space only; the empty text is one. *)
Inductive blank : string -> Prop :=
| blank_empty : blank ""
| blank_more : forall w s, In w white_space -> blank s -> blank (w ++ s).

(* ================================================================= *)
(** * Properties

    The properties hold for every case mapping of the runtime that
    sends the empty string, and no other, to the empty string. *)

Section Properties.

Context {cm : Js.CaseMapping}.
Hypothesis cm_proper : Js.proper cm.

(* ----------------------------------------------------------------- *)
(** ** Dice resolver *)

Ltac eval_digit :=
  repeat match goal with
  | |- context [Js.digit_of ?r (Ascii ?a ?b ?c ?d ?e ?f ?g ?h)] =>
      let v := eval vm_compute in (Js.digit_of r (Ascii a b c d e f g h)) in
      change (Js.digit_of r (Ascii a b c d e f g h)) with v
  end.

Lemma digits_prefix_acc (d : Decimal.uint) :
  forall acc : positive,
    Js.digits_prefix 10 (Some (Z.pos acc)) (NilEmpty.string_of_uint d)
    = Some (Z.pos (Pos.of_uint_acc d acc)).
Proof.
  induction d; intro acc;
    cbn [NilEmpty.string_of_uint Js.digits_prefix Pos.of_uint_acc];
    eval_digit; cbv iota; try reflexivity.
  all: rewrite <- IHd; f_equal; f_equal; lia.
Qed.

Lemma digits_prefix_zero (d : Decimal.uint) :
  Js.digits_prefix 10 (Some 0%Z) (NilEmpty.string_of_uint d)
  = Some (Z.of_N (Pos.of_uint d)).
Proof.
  induction d;
    cbn [NilEmpty.string_of_uint Js.digits_prefix Pos.of_uint];
    eval_digit; cbv iota; try reflexivity; try exact IHd.
  all: cbn [Z.mul Z.add Z.of_N]; apply digits_prefix_acc.
Qed.

Lemma digits_prefix_uint (d : Decimal.uint) :
  d <> Decimal.Nil ->
  Js.digits_prefix 10 None (NilEmpty.string_of_uint d)
  = Some (Z.of_N (Pos.of_uint d)).
Proof.
  destruct d; intro Hd; try congruence;
    cbn [NilEmpty.string_of_uint Js.digits_prefix Pos.of_uint];
    eval_digit; cbv iota.
  - apply digits_prefix_zero.
  - apply digits_prefix_acc.
  - apply digits_prefix_acc.
  - apply digits_prefix_acc.
  - apply digits_prefix_acc.
  - apply digits_prefix_acc.
  - apply digits_prefix_acc.
  - apply digits_prefix_acc.
  - apply digits_prefix_acc.
  - apply digits_prefix_acc.
Qed.

(** A string of decimal digits has no white space, sign or hex prefix in
    front: [parseInt] reads all of it in radix 10, and rounds the value
    to a double. *)
Lemma parseInt_uint (d : Decimal.uint) :
  d <> Decimal.Nil ->
  Js.parseInt (NilEmpty.string_of_uint d) = Js.of_Z (Z.of_N (Pos.of_uint d)).
Proof.
  intro Hd. unfold Js.parseInt.
  assert (Hpre : Js.strip_sign (Js.trimStart (NilEmpty.string_of_uint d))
                 = (1%Z, NilEmpty.string_of_uint d)).
  { destruct d; try congruence; reflexivity. }
  rewrite Hpre.
  assert (Hhex : Js.strip_hex_prefix (NilEmpty.string_of_uint d)
                 = (10%Z, NilEmpty.string_of_uint d)).
  { destruct d; try congruence; try reflexivity.
    destruct d; reflexivity. }
  rewrite Hhex, (digits_prefix_uint Hd).
  f_equal. destruct (Z.of_N (Pos.of_uint d)); reflexivity.
Qed.

Lemma parseInt_string_of_Z (N : Z) :
  (0 < N)%Z -> Js.parseInt (Js.string_of_Z N) = Js.of_Z N.
Proof.
  intro HN. destruct N as [|p|p]; try lia.
  unfold Js.string_of_Z, Z.to_int, NilZero.string_of_int, NilZero.string_of_uint.
  pose proof (DecimalPos.Unsigned.to_uint_nonnil p) as Hnil.
  pose proof (DecimalPos.Unsigned.of_to p) as Hval.
  destruct (Pos.to_uint p) eqn:E; try congruence;
    rewrite parseInt_uint by congruence; rewrite Hval; reflexivity.
Qed.

(** *** Rounding to a double *)

Lemma round_half_even_bounds (n d : Z) :
  (0 < d)%Z -> (n / d <= Js.round_half_even n d <= n / d + 1)%Z.
Proof.
  intro Hd. unfold Js.round_half_even.
  destruct (2 * (n mod d) <? d)%Z; [lia|].
  destruct (d <? 2 * (n mod d))%Z; [lia|].
  destruct (Z.even (n / d)); lia.
Qed.

Lemma round_half_even_exact (j d : Z) :
  (0 < d)%Z -> Js.round_half_even (j * d) d = j.
Proof.
  intro Hd. unfold Js.round_half_even.
  rewrite Z.div_mul, Z.mod_mul by lia.
  destruct (Z.ltb_spec (2 * 0) d); [reflexivity | lia].
Qed.

(** Below a grid point by more than half a step, the nearest point is a
    lower one. *)
Lemma round_half_even_below (n d M : Z) :
  (0 < d)%Z -> (2 * n < (2 * M - 1) * d)%Z ->
  (Js.round_half_even n d <= M - 1)%Z.
Proof.
  intros Hd H. unfold Js.round_half_even.
  pose proof (Z.div_mod n d ltac:(lia)) as Hdm.
  pose proof (Z.mod_pos_bound n d Hd) as Hr.
  set (q := (n / d)%Z) in *. set (r := (n mod d)%Z) in *.
  destruct (Z.ltb_spec (2 * r) d).
  - nia.
  - destruct (Z.ltb_spec d (2 * r)).
    + nia.
    + destruct (Z.even q); nia.
Qed.

(** The power of two [mag] gives is not above the quotient. *)
Lemma mag_lower (n d : Z) :
  (0 < n)%Z -> (0 < d)%Z ->
  ((0 <= Js.mag n d)%Z -> (d * 2 ^ Js.mag n d <= n)%Z) /\
  ((Js.mag n d < 0)%Z -> (d <= n * 2 ^ (- Js.mag n d))%Z).
Proof.
  intros Hn Hd. unfold Js.mag.
  pose proof (Z.log2_spec n Hn) as [Hn1 Hn2].
  pose proof (Z.log2_spec d Hd) as [Hd1 Hd2].
  pose proof (Z.log2_nonneg n) as Hln. pose proof (Z.log2_nonneg d) as Hld.
  set (ln := Z.log2 n) in *. set (ld := Z.log2 d) in *.
  replace (Z.succ ld) with (ld + 1)%Z in Hd2 by lia.
  rewrite Z.pow_add_r in Hd2 by lia. change (2 ^ 1)%Z with 2%Z in Hd2.
  destruct (Z.leb_spec 0 (ln - ld)) as [Hk | Hk].
  - destruct (Z.leb_spec (d * 2 ^ (ln - ld)) n) as [Ha | Ha].
    + split; [intros _; exact Ha | lia].
    + assert (Hsplit : (2 ^ ln = 2 ^ ld * 2 ^ (ln - ld))%Z).
      { rewrite <- Z.pow_add_r by lia. f_equal. lia. }
      split; intro Hs.
      * assert (Hp : (2 ^ (ln - ld) = 2 * 2 ^ (ln - ld - 1))%Z).
        { replace (ln - ld)%Z with (1 + (ln - ld - 1))%Z at 1 by lia.
          rewrite Z.pow_add_r by lia. reflexivity. }
        assert (Hpos : (0 < 2 ^ (ln - ld - 1))%Z) by (apply Z.pow_pos_nonneg; lia).
        nia.
      * assert (Hz : (ln - ld = 0)%Z) by lia.
        replace (- (ln - ld - 1))%Z with 1%Z by lia.
        rewrite Hz in Hsplit. change (2 ^ 0)%Z with 1%Z in Hsplit.
        change (2 ^ 1)%Z with 2%Z. nia.
  - assert (Hsplit : forall j, (0 <= j)%Z -> (ld = ln + j)%Z ->
                               (2 ^ ld = 2 ^ ln * 2 ^ j)%Z).
    { intros j Hj ->. apply Z.pow_add_r; lia. }
    destruct (Z.leb_spec d (n * 2 ^ (- (ln - ld)))) as [Ha | Ha].
    + split; [lia | intros _; exact Ha].
    + split; [lia | intros _].
      replace (- (ln - ld - 1))%Z with ((ld - ln) + 1)%Z by lia.
      rewrite Z.pow_add_r by lia. change (2 ^ 1)%Z with 2%Z.
      pose proof (Hsplit (ld - ln)%Z ltac:(lia) ltac:(lia)) as Hs.
      assert (Hpos : (0 < 2 ^ (ld - ln))%Z) by (apply Z.pow_pos_nonneg; lia).
      nia.
Qed.

(** Integers up to 2^53 are doubles. *)
Lemma of_Z_exact (z : Z) :
  (1 <= z <= 2 ^ 53)%Z -> Js.of_Z z = Js.Int z.
Proof.
  intros [Hlo Hhi]. unfold Js.of_Z, Js.nearest.
  cbn [inject_Z Qnum Qden].
  rewrite (Z.abs_eq z) by lia.
  destruct (Z.eqb_spec z 0) as [-> | _]; [lia|].
  rewrite (Z.sgn_pos z) by lia.
  destruct (mag_lower (n := z) (d := 1) ltac:(lia) ltac:(lia)) as [Hge _].
  set (g := Js.mag z 1) in *.
  assert (Hg : (g <= 53)%Z).
  { destruct (Z.le_gt_cases g 53) as [H | H]; [exact H | exfalso].
    specialize (Hge ltac:(lia)).
    assert (2 ^ 54 <= 2 ^ g)%Z by (apply Z.pow_le_mono_r; lia).
    assert (2 ^ 53 < 2 ^ 54)%Z by (apply Z.pow_lt_mono_r; lia).
    lia. }
  assert (Hv : (if (0 <=? Z.max (g - 52) (-1074))%Z
                then (1 * (if (0 <=? Z.max (g - 52) (-1074))%Z
                           then Js.round_half_even z (1 * 2 ^ Z.max (g - 52) (-1074))
                           else Js.round_half_even (z * 2 ^ (- Z.max (g - 52) (-1074))) 1)
                      * 2 ^ Z.max (g - 52) (-1074))%Z
                else (1 * (if (0 <=? Z.max (g - 52) (-1074))%Z
                           then Js.round_half_even z (1 * 2 ^ Z.max (g - 52) (-1074))
                           else Js.round_half_even (z * 2 ^ (- Z.max (g - 52) (-1074))) 1)
                      / 2 ^ (- Z.max (g - 52) (-1074)))%Z) = z).
  { destruct (Z.leb_spec 0 (Z.max (g - 52) (-1074))) as [He | He].
    - assert (Hcase : (g = 52 \/ g = 53)%Z) by lia.
      destruct Hcase as [-> | ->].
      + change (Z.max (52 - 52) (-1074)) with 0%Z.
        change (1 * 2 ^ 0)%Z with 1%Z. change (2 ^ 0)%Z with 1%Z.
        replace z with (z * 1)%Z at 1 by lia.
        rewrite round_half_even_exact by lia. lia.
      + change (Z.max (53 - 52) (-1074)) with 1%Z.
        specialize (Hge ltac:(lia)).
        assert (Hz : z = (2 ^ 53)%Z) by lia.
        rewrite Hz. reflexivity.
    - set (P := (2 ^ (- Z.max (g - 52) (-1074)))%Z).
      assert (HP : (0 < P)%Z) by (apply Z.pow_pos_nonneg; lia).
      replace (z * P)%Z with ((z * P) * 1)%Z by lia.
      rewrite round_half_even_exact by lia.
      rewrite Z.mul_1_l. apply Z.div_mul. lia. }
  rewrite Hv.
  destruct (Z.leb_spec (2 ^ 1024) (Z.abs z)) as [Hbig | _]; [| reflexivity].
  exfalso. rewrite Z.abs_eq in Hbig by lia.
  assert (2 ^ 53 < 2 ^ 1024)%Z by (apply Z.pow_lt_mono_r; lia). lia.
Qed.

Lemma mag_upper (n d : Z) :
  (0 < n)%Z -> (0 < d)%Z ->
  ((0 <= Js.mag n d + 1)%Z -> (n < d * 2 ^ (Js.mag n d + 1))%Z) /\
  ((Js.mag n d + 1 < 0)%Z -> (n * 2 ^ (- (Js.mag n d + 1)) < d)%Z).
Proof.
  intros Hn Hd. unfold Js.mag.
  pose proof (Z.log2_spec n Hn) as [Hn1 Hn2].
  pose proof (Z.log2_spec d Hd) as [Hd1 Hd2].
  pose proof (Z.log2_nonneg n) as Hln. pose proof (Z.log2_nonneg d) as Hld.
  set (ln := Z.log2 n) in *. set (ld := Z.log2 d) in *.
  replace (Z.succ ln) with (ln + 1)%Z in Hn2 by lia.
  rewrite Z.pow_add_r in Hn2 by lia. change (2 ^ 1)%Z with 2%Z in Hn2.
  destruct (Z.leb_spec 0 (ln - ld)) as [Hk | Hk].
  - destruct (Z.leb_spec (d * 2 ^ (ln - ld)) n) as [Ha | Ha].
    + split; [intros _ | lia].
      assert (Hsplit : (2 ^ ln = 2 ^ ld * 2 ^ (ln - ld))%Z).
      { rewrite <- Z.pow_add_r by lia. f_equal. lia. }
      rewrite Z.pow_add_r by lia. change (2 ^ 1)%Z with 2%Z.
      assert (Hpos : (0 < 2 ^ (ln - ld))%Z) by (apply Z.pow_pos_nonneg; lia).
      nia.
    + split; [intros _ | lia].
      replace (ln - ld - 1 + 1)%Z with (ln - ld)%Z by lia. exact Ha.
  - assert (Hsplit : forall j, (0 <= j)%Z -> (ld = ln + j)%Z ->
                               (2 ^ ld = 2 ^ ln * 2 ^ j)%Z).
    { intros j Hj ->. apply Z.pow_add_r; lia. }
    destruct (Z.leb_spec d (n * 2 ^ (- (ln - ld)))) as [Ha | Ha].
    + split; intro Hs.
      * assert (Hz : (ld = ln + 1)%Z) by lia.
        replace (ln - ld + 1)%Z with 0%Z by lia. change (2 ^ 0)%Z with 1%Z.
        pose proof (Hsplit 1%Z ltac:(lia) Hz) as Hp.
        change (2 ^ 1)%Z with 2%Z in Hp. lia.
      * pose proof (Hsplit (1 + (- (ln - ld + 1)))%Z ltac:(lia) ltac:(lia)) as Hp.
        rewrite Z.pow_add_r in Hp by lia. change (2 ^ 1)%Z with 2%Z in Hp.
        assert (Hpos : (0 < 2 ^ (- (ln - ld + 1)))%Z)
          by (apply Z.pow_pos_nonneg; lia).
        nia.
    + split; [lia | intros _].
      replace (- (ln - ld - 1 + 1))%Z with (- (ln - ld))%Z by lia. exact Ha.
Qed.

(** The floor of a rounded positive rational whose double has an
    exponent of at most 0. *)
Lemma Qfloor_round64 (n : Z) (d : positive) :
  (0 < n)%Z ->
  let e := Z.max (Js.mag n (Zpos d) - 52) (-1074) in
  (e <= 0)%Z ->
  Qfloor (Js.round64 (Qmake n d))
  = (Js.round_half_even (n * 2 ^ (- e)) (Zpos d) / 2 ^ (- e))%Z
  /\ Js.round64 (Qmake n d)
     == Qmake (Js.round_half_even (n * 2 ^ (- e)) (Zpos d)) (Z.to_pos (2 ^ (- e))).
Proof.
  intros Hn e He. unfold Js.round64, Js.nearest. cbn [Qnum Qden].
  rewrite (Z.abs_eq n) by lia.
  destruct (Z.eqb_spec n 0) as [-> | _]; [lia|].
  rewrite (Z.sgn_pos n) by lia. fold e.
  destruct (Z.leb_spec 0 e) as [H0 | H0].
  - assert (Hz : e = 0%Z) by lia. rewrite Hz.
    change (- 0)%Z with 0%Z. change (2 ^ 0)%Z with 1%Z.
    rewrite !Z.mul_1_r, Z.mul_1_l, Z.div_1_r.
    split; [apply Qfloor_Z | reflexivity].
  - rewrite Z.mul_1_l.
    assert (HP : (0 < 2 ^ (- e))%Z) by (apply Z.pow_pos_nonneg; lia).
    split; [| reflexivity].
    unfold Qfloor. rewrite Z2Pos.id by exact HP. reflexivity.
Qed.

(** A double below 1 is at most 1 - 2^-53. *)
Lemma double_below_one (rnd : Q) :
  Js.is_double rnd -> 0 <= rnd -> rnd < 1 ->
  rnd <= 9007199254740991 # 9007199254740992.
Proof.
  intros Hd H0 H1. destruct rnd as [a b].
  apply Qnot_lt_le. intro Habove.
  unfold Qlt, Qle in *. cbn [Qnum Qden] in H0, H1, Habove.
  assert (Ha : (0 < a)%Z) by lia.
  pose proof (mag_lower Ha (Pos2Z.is_pos b)) as [Hl1 Hl2].
  pose proof (mag_upper Ha (Pos2Z.is_pos b)) as [Hu1 Hu2].
  set (g := Js.mag a (Z.pos b)) in *.
  assert (Hg : g = (-1)%Z).
  { destruct (Z.lt_trichotomy g (-1)) as [H | [H | H]]; [exfalso | exact H | exfalso].
    - specialize (Hu2 ltac:(lia)).
      assert (2 ^ 1 <= 2 ^ (- (g + 1)))%Z by (apply Z.pow_le_mono_r; lia).
      change (2 ^ 1)%Z with 2%Z in *. nia.
    - specialize (Hl1 ltac:(lia)).
      assert (2 ^ 0 <= 2 ^ g)%Z by (apply Z.pow_le_mono_r; lia).
      change (2 ^ 0)%Z with 1%Z in *. nia. }
  destruct (@Qfloor_round64 a b Ha) as [_ Hr].
  { fold g. rewrite Hg. cbn. lia. }
  fold g in Hr. rewrite Hg in Hr.
  change (Z.max (-1 - 52) (-1074)) with (-53)%Z in Hr.
  change (- -53)%Z with 53%Z in Hr.
  unfold Js.is_double in Hd. rewrite Hr in Hd.
  set (m := Js.round_half_even (a * 2 ^ 53) (Z.pos b)) in *.
  unfold Qeq in Hd. cbn in Hd.
  pose proof (Pos2Z.is_pos b) as Hb.
  assert (9007199254740991 < m)%Z
    by (apply (Z.mul_lt_mono_pos_r (Z.pos b)); lia).
  assert (m < 9007199254740992)%Z
    by (apply (Z.mul_lt_mono_pos_r (Z.pos b)); lia).
  lia.
Qed.

(** The floor the dice resolver takes: the draw scaled to the faces,
    rounded as a double. *)
Lemma floor_mul_range (rnd : Q) (N : Z) :
  random_draw rnd -> (1 <= N <= 2 ^ 53)%Z ->
  let f := Qfloor (Js.round64 (rnd * inject_Z N)) in
  (0 <= f <= N - 1)%Z /\
  (Qfloor (rnd * inject_Z N) <= f <= Qfloor (rnd * inject_Z N) + 1)%Z /\
  (forall k : Z, rnd * inject_Z N == inject_Z k -> f = k).
Proof.
  intros (Hdbl & H0 & H1) [HN1 HN2] f.
  pose proof (double_below_one Hdbl H0 H1) as Hhi.
  destruct rnd as [a b]. unfold Qle in H0, Hhi. cbn [Qnum Qden] in H0, Hhi.
  assert (Hx : (Qmake a b * inject_Z N)%Q = Qmake (a * N) b).
  { unfold Qmult, inject_Z. cbn [Qnum Qden]. rewrite Pos.mul_1_r. reflexivity. }
  subst f. rewrite Hx.
  assert (Hfl : Qfloor (Qmake (a * N) b) = (a * N / Z.pos b)%Z) by reflexivity.
  rewrite Hfl.
  assert (Hint : forall k : Z, Qmake (a * N) b == inject_Z k ->
                               (a * N = k * Z.pos b)%Z).
  { intros k Hk. unfold Qeq in Hk. cbn in Hk. lia. }
  destruct (Z.eq_dec a 0) as [-> | Hane].
  - change (0 * N)%Z with 0%Z. change (Js.round64 (0 # b)) with (inject_Z 0).
    rewrite Qfloor_Z. rewrite Z.div_0_l by lia.
    split; [lia | split; [lia|]]. intros k Hk. apply Hint in Hk. nia.
  - assert (Hn : (0 < a * N)%Z) by nia.
    pose proof (mag_lower Hn (Pos2Z.is_pos b)) as [Hl1 _].
    set (g := Js.mag (a * N) (Z.pos b)) in *.
    assert (Hlt : (a * N < Z.pos b * N)%Z) by nia.
    assert (Hg : (g <= 52)%Z).
    { destruct (Z.le_gt_cases g 52) as [H | H]; [exact H | exfalso].
      specialize (Hl1 ltac:(lia)).
      assert (2 ^ 53 <= 2 ^ g)%Z by (apply Z.pow_le_mono_r; lia).
      nia. }
    destruct (@Qfloor_round64 (a * N) b Hn) as [Hf _]; [fold g; lia|].
    fold g in Hf. rewrite Hf. clear Hf.
    set (e := Z.max (g - 52) (-1074)) in *.
    set (P := (2 ^ (- e))%Z).
    assert (HP : (0 < P)%Z) by (apply Z.pow_pos_nonneg; lia).
    assert (HM : (2 ^ 52 < N * P)%Z).
    { subst P. destruct (Z.le_gt_cases (-1074) (g - 52)) as [H | H].
      - replace e with (g - 52)%Z by lia.
        replace (- (g - 52))%Z with (52 - g)%Z by lia.
        destruct (Z.le_gt_cases 0 g) as [Hg0 | Hg0].
        + specialize (Hl1 Hg0).
          assert (Hs : (2 ^ 52 = 2 ^ g * 2 ^ (52 - g))%Z).
          { rewrite <- Z.pow_add_r by lia. f_equal. lia. }
          assert (0 < 2 ^ (52 - g))%Z by (apply Z.pow_pos_nonneg; lia).
          assert (2 ^ g < N)%Z by nia.
          nia.
        + assert (2 ^ 52 < 2 ^ (52 - g))%Z by (apply Z.pow_lt_mono_r; lia).
          nia.
      - replace e with (-1074)%Z by lia.
        assert (2 ^ 52 < 2 ^ (- -1074))%Z by (apply Z.pow_lt_mono_r; lia).
        nia. }
    pose proof (@round_half_even_bounds (a * N * P) (Z.pos b) ltac:(lia)) as [Hb1 Hb2].
    assert (Hbelow : (Js.round_half_even (a * N * P) (Z.pos b) <= N * P - 1)%Z).
    { apply round_half_even_below; [lia|].
      change (2 ^ 52)%Z with 4503599627370496%Z in HM. nia. }
    set (m := Js.round_half_even (a * N * P) (Z.pos b)) in *.
    set (k := (a * N / Z.pos b)%Z).
    assert (Hk : (k * Z.pos b <= a * N < (k + 1) * Z.pos b)%Z).
    { pose proof (Z.div_mod (a * N) (Z.pos b) ltac:(lia)) as Hdm.
      pose proof (Z.mod_pos_bound (a * N) (Z.pos b) ltac:(lia)) as Hr.
      fold k in Hdm. nia. }
    assert (Hk0 : (0 <= k)%Z) by (apply Z.div_pos; lia).
    assert (Hq1 : (k * P <= a * N * P / Z.pos b)%Z).
    { apply Z.div_le_lower_bound; [lia | nia]. }
    assert (Hq2 : (a * N * P / Z.pos b < (k + 1) * P)%Z).
    { apply Z.div_lt_upper_bound; [lia | nia]. }
    assert (Hlow : (k <= m / P)%Z) by (apply Z.div_le_lower_bound; [lia | nia]).
    assert (Hup : (m / P <= k + 1)%Z) by (apply Z.div_le_upper_bound; [lia | nia]).
    assert (Htop : (m / P < N)%Z) by (apply Z.div_lt_upper_bound; [lia | nia]).
    split; [lia | split; [lia|]].
    intros j Hj. apply Hint in Hj.
    assert (Hm : m = (j * P)%Z).
    { subst m. replace (a * N * P)%Z with ((j * P) * Z.pos b)%Z by nia.
      apply round_half_even_exact. lia. }
    rewrite Hm. apply Z.div_mul. lia.
Qed.

Lemma dice_result_range (rnd : Q) (N : Z) :
  random_draw rnd -> (1 <= N <= 2 ^ 53)%Z ->
  exists r : Z,
    dice_result rnd (Js.Int N) = Js.Int r /\
    (1 <= r <= N)%Z /\
    (Qfloor (rnd * inject_Z N) + 1 <= r <= Qfloor (rnd * inject_Z N) + 2)%Z /\
    (forall k : Z, rnd * inject_Z N == inject_Z k -> r = (k + 1)%Z).
Proof.
  intros Hr HN.
  destruct (floor_mul_range Hr HN) as (Hf1 & Hf2 & Hf3).
  exists (Qfloor (Js.round64 (rnd * inject_Z N)) + 1)%Z.
  split; [| split; [lia | split; [lia|]]].
  - unfold dice_result, Js.floor_mul_succ. apply of_Z_exact. lia.
  - intros k Hk. rewrite (Hf3 k Hk). reflexivity.
Qed.

Lemma dice_max_of_faces (N : Z) :
  (1 <= N <= 2 ^ 53)%Z -> dice_max ("d" ++ Js.string_of_Z N) = Js.Int N.
Proof.
  intro HN. unfold dice_max.
  change (Js.remove_first "d" ("d" ++ Js.string_of_Z N)) with (Js.string_of_Z N).
  rewrite parseInt_string_of_Z by lia. rewrite (of_Z_exact HN).
  unfold Js.num_or_else.
  destruct (Z.eqb_spec N 0); [lia | reflexivity].
Qed.

Lemma toString_small (r : Z) :
  (Z.abs r < 10 ^ 21)%Z -> Js.toString (Js.Int r) = Js.string_of_Z r.
Proof.
  intro H. unfold Js.toString.
  destruct (Z.ltb_spec (Z.abs r) (10 ^ 21)); [reflexivity | lia].
Qed.

(** C7. For a die descriptor ["d" ++ N] with [N] a positive integer up
    to 2^53, and for a descriptor in which [parseInt] reads no number or
    reads 0, where [N] is 20, the result of the dice resolver is an
    integer in [1, N]: the floor of the draw scaled to [N], plus one,
    where rounding the product to a double can add one more, and does
    not when the product is an integer. The backend accepting its two
    writes, [performRoll] appends one message, of role user, tagged as
    an action and sent by System, whose content is "[Dice Roll] ", the
    reason, ": Rolled a ", the result in decimal, and the descriptor in
    brackets; it deletes [activeRoll] of the room document and leaves
    the other fields of the room and the player documents as they
    were. *)
Theorem dice_resolver_roll (g : GameState) (s : Store) (room : GameRoom)
  (rollReq : RollRequest) (rnd : Q) (docId docId' : string)
  (rest : list WriteReply) (N : Z) :
  gs_room g = Some room ->
  Js.truthy (gs_playerId g) = true ->
  random_draw rnd ->
  (diceType rollReq = "d" ++ Js.string_of_Z N /\ (1 <= N <= 2 ^ 53)%Z) \/
  ((Js.parseInt (Js.remove_first "d" (diceType rollReq)) = Js.NaN \/
    Js.parseInt (Js.remove_first "d" (diceType rollReq)) = Js.Int 0) /\
   N = 20%Z) ->
  exists r : Z,
    (1 <= r <= N)%Z /\
    (Qfloor (rnd * inject_Z N) + 1 <= r <= Qfloor (rnd * inject_Z N) + 2)%Z /\
    (forall k : Z, rnd * inject_Z N == inject_Z k -> r = (k + 1)%Z) /\
    performRoll rnd rollReq
      (mkWorld s g (Accepted docId :: Accepted docId' :: rest))
    = (Returned tt,
       mkWorld
         (mkStore
            (mkGameRoom (room_id (db_room s)) (hostId (db_room s))
               (gameStatus (db_room s)) None (currentScene (db_room s)))
            (db_players s)
            (db_messages s ++
               [mkChatMessage docId user
                  ("[Dice Roll] " ++ reason rollReq ++ ": Rolled a "
                     ++ Js.string_of_Z r ++ " (" ++ diceType rollReq ++ ")")
                  (Some "System") (Some true) (db_clock s)])
            (S (db_clock s)))
         g rest).
Proof.
  intros Hroom Hpid Hrnd Hdie.
  assert (Hmax : dice_max (diceType rollReq) = Js.Int N /\ (1 <= N <= 2 ^ 53)%Z).
  { destruct Hdie as [[Hd HN] | [Hp ->]].
    - rewrite Hd. split; [apply dice_max_of_faces; exact HN | exact HN].
    - split; [| split; [lia | apply Z.pow_le_mono_r with (a := 2%Z) (b := 5%Z) (c := 53%Z); lia]].
      unfold dice_max. destruct Hp as [-> | ->]; reflexivity. }
  destruct Hmax as [Hmax HN].
  destruct (dice_result_range Hrnd HN) as (r & Hres & Hr1 & Hr2 & Hr3).
  exists r. split; [exact Hr1 | split; [exact Hr2 | split; [exact Hr3|]]].
  unfold performRoll, bind, get_state. cbn [state].
  rewrite Hroom, Hpid, Hmax, Hres. unfold roll_content.
  rewrite toString_small.
  - reflexivity.
  - assert (2 ^ 53 < 10 ^ 21)%Z by reflexivity. lia.
Qed.

(* ----------------------------------------------------------------- *)
(** ** sendMessage *)

Lemma trimStart_all_space_bounded (n : nat) :
  forall s, (String.length s <= n)%nat ->
            Js.all_space s = true -> Js.trimStart s = "".
Proof.
  induction n as [|n IH]; intros s Hlen H.
  - destruct s; [reflexivity | cbn in Hlen; lia].
  - destruct s as [|c r]; [reflexivity|].
    cbn [Js.all_space Js.trimStart] in *.
    destruct (Js.space_width (String c r)) as [|[|[|[|w]]]]; try discriminate.
    + apply IH; [cbn in Hlen; lia | exact H].
    + destruct r as [|c1 r]; [discriminate|].
      apply IH; [cbn in Hlen; lia | exact H].
    + destruct r as [|c1 [|c2 r]]; try discriminate.
      apply IH; [cbn in Hlen; lia | exact H].
Qed.

Lemma trimStart_all_space (s : string) :
  Js.all_space s = true -> Js.trimStart s = "".
Proof. apply (trimStart_all_space_bounded (n := String.length s)). lia. Qed.

Lemma trim_all_space (s : string) : Js.all_space s = true -> Js.trim s = "".
Proof.
  intro H. unfold Js.trim. rewrite (trimStart_all_space _ H). reflexivity.
Qed.

Lemma in_white_space (w : string) :
  existsb (String.eqb w) white_space = true -> In w white_space.
Proof.
  intro H. apply existsb_exists in H. destruct H as [x [Hin He]].
  apply String.eqb_eq in He. subst x. exact Hin.
Qed.

Lemma width_of_white (w r : string) :
  In w white_space ->
  Js.space_width (w ++ r) = String.length w /\ w <> "".
Proof.
  intro H. unfold white_space in H. cbn [map] in H.
  repeat (destruct H as [<- | H]; [split; [reflexivity | discriminate]|]).
  destruct H.
Qed.

Lemma ascii_pin (c : ascii) (k : nat) :
  nat_of_ascii c = k -> c = ascii_of_nat k.
Proof. intros <-. symmetry. apply ascii_nat_embedding. Qed.

Ltac white_found w r :=
  exists w, r;
  split; [apply in_white_space; vm_compute; reflexivity | split; reflexivity].

Ltac solve_white :=
  cbn [andb]; cbv beta iota;
  match goal with
  | |- exists w r0, _ /\ String ?a (String ?b (String ?d ?r)) = _ /\ _ =>
      white_found (String a (String b (String d ""))) r
  | |- exists w r0, _ /\ String ?a (String ?b ?r) = _ /\ _ =>
      white_found (String a (String b "")) r
  | |- exists w r0, _ /\ String ?a ?r = _ /\ _ =>
      white_found (String a "") r
  end.

Lemma white_of_width (s : string) :
  match Js.space_width s with
  | O => True
  | n => exists w r, In w white_space /\ s = w ++ r /\ String.length w = n
  end.
Proof.
  destruct s as [|c r]; [exact I|].
  unfold Js.space_width.
  destruct (Js.is_space c) eqn:Hs.
  { unfold Js.is_space in Hs.
    assert (Hk : (nat_of_ascii c = 9 \/ nat_of_ascii c = 10 \/
                  nat_of_ascii c = 11 \/ nat_of_ascii c = 12 \/
                  nat_of_ascii c = 13 \/ nat_of_ascii c = 32)%nat).
    { apply Bool.orb_prop in Hs. destruct Hs as [Hs | Hs].
      - apply andb_prop in Hs. destruct Hs as [H1 H2].
        apply Nat.leb_le in H1. apply Nat.leb_le in H2. lia.
      - apply Nat.eqb_eq in Hs. lia. }
    repeat (destruct Hk as [Hk | Hk];
            [apply ascii_pin in Hk; subst c; solve_white |]).
    apply ascii_pin in Hk; subst c; solve_white. }
  destruct (Nat.eqb_spec (nat_of_ascii c) 194) as [H194 | _].
  { destruct r as [|c1 r1]; [exact I|].
    destruct (Nat.eqb_spec (nat_of_ascii c1) 160) as [H1 | _]; [| exact I].
    apply ascii_pin in H194, H1. subst c c1.
    solve_white. }
  destruct (Nat.eqb_spec (nat_of_ascii c) 225) as [H225 | _].
  { destruct r as [|c1 [|c2 r2]]; try exact I.
    destruct (Nat.eqb_spec (nat_of_ascii c1) 154) as [H1 | _]; [| exact I].
    destruct (Nat.eqb_spec (nat_of_ascii c2) 128) as [H2 | _]; [| exact I].
    apply ascii_pin in H225, H1, H2. subst c c1 c2.
    solve_white. }
  destruct (Nat.eqb_spec (nat_of_ascii c) 226) as [H226 | _].
  { destruct r as [|c1 [|c2 r2]]; try exact I.
    destruct (Nat.eqb_spec (nat_of_ascii c1) 128) as [H1 | _].
    - destruct (Js.is_space_E2_80 (nat_of_ascii c2)) eqn:H2.
      + cbn [andb]. unfold Js.is_space_E2_80 in H2.
        assert (Hk : (nat_of_ascii c2 = 128 \/ nat_of_ascii c2 = 129 \/
                      nat_of_ascii c2 = 130 \/ nat_of_ascii c2 = 131 \/
                      nat_of_ascii c2 = 132 \/ nat_of_ascii c2 = 133 \/
                      nat_of_ascii c2 = 134 \/ nat_of_ascii c2 = 135 \/
                      nat_of_ascii c2 = 136 \/ nat_of_ascii c2 = 137 \/
                      nat_of_ascii c2 = 138 \/ nat_of_ascii c2 = 168 \/
                      nat_of_ascii c2 = 169 \/ nat_of_ascii c2 = 175)%nat).
        { apply Bool.orb_prop in H2. destruct H2 as [H2 | H2].
          - apply andb_prop in H2. destruct H2 as [Ha Hb].
            apply Nat.leb_le in Ha. apply Nat.leb_le in Hb. lia.
          - apply Bool.orb_prop in H2. destruct H2 as [H2 | H2].
            + apply Nat.eqb_eq in H2. lia.
            + apply Bool.orb_prop in H2.
              destruct H2 as [H2 | H2]; apply Nat.eqb_eq in H2; lia. }
        apply ascii_pin in H226, H1. subst c c1.
        repeat (destruct Hk as [Hk | Hk];
                [apply ascii_pin in Hk; subst c2; solve_white |]).
        apply ascii_pin in Hk; subst c2; solve_white.
      + cbn [andb].
        replace (nat_of_ascii c1 =? 129)%nat with false; [exact I|].
        symmetry. apply Nat.eqb_neq. lia.
    - cbn [andb].
      destruct (Nat.eqb_spec (nat_of_ascii c1) 129) as [H1 | _]; [| exact I].
      destruct (Nat.eqb_spec (nat_of_ascii c2) 159) as [H2 | _]; [| exact I].
      apply ascii_pin in H226, H1, H2. subst c c1 c2.
      solve_white. }
  destruct (Nat.eqb_spec (nat_of_ascii c) 227) as [H227 | _].
  { destruct r as [|c1 [|c2 r2]]; try exact I.
    destruct (Nat.eqb_spec (nat_of_ascii c1) 128) as [H1 | _]; [| exact I].
    destruct (Nat.eqb_spec (nat_of_ascii c2) 128) as [H2 | _]; [| exact I].
    apply ascii_pin in H227, H1, H2. subst c c1 c2.
    solve_white. }
  destruct (Nat.eqb_spec (nat_of_ascii c) 239) as [H239 | _]; [| exact I].
  destruct r as [|c1 [|c2 r2]]; try exact I.
  destruct (Nat.eqb_spec (nat_of_ascii c1) 187) as [H1 | _]; [| exact I].
  destruct (Nat.eqb_spec (nat_of_ascii c2) 191) as [H2 | _]; [| exact I].
  apply ascii_pin in H239, H1, H2. subst c c1 c2.
  solve_white.
Qed.

Lemma blank_all_space (s : string) : blank s -> Js.all_space s = true.
Proof.
  induction 1 as [|w s Hw _ IH]; [reflexivity|].
  unfold white_space in Hw. cbn [map] in Hw.
  repeat (destruct Hw as [<- | Hw]; [exact IH|]).
  destruct Hw.
Qed.

Lemma all_space_blank_bounded (n : nat) :
  forall s, (String.length s <= n)%nat -> Js.all_space s = true -> blank s.
Proof.
  induction n as [|n IH]; intros s Hlen H.
  - destruct s; [constructor | cbn in Hlen; lia].
  - destruct s as [|c r]; [constructor|].
    pose proof (white_of_width (String c r)) as Hw.
    cbn [Js.all_space] in H.
    destruct (Js.space_width (String c r)) as [|[|[|[|k]]]]; try discriminate;
      destruct Hw as (w & r' & Hin & Hs & Hl).
    + destruct w as [|a [|b w]]; try discriminate Hl.
      cbn [append] in Hs. inversion Hs; subst.
      apply (@blank_more (String a "") _ Hin). apply IH; [cbn in Hlen; lia | exact H].
    + destruct w as [|a [|b [|d w]]]; try discriminate Hl.
      cbn [append] in Hs. inversion Hs; subst.
      apply (@blank_more (String a (String b "")) _ Hin).
      apply IH; [cbn in Hlen; lia | exact H].
    + destruct w as [|a [|b [|d [|e w]]]]; try discriminate Hl.
      cbn [append] in Hs. inversion Hs; subst.
      apply (@blank_more (String a (String b (String d ""))) _ Hin).
      apply IH; [cbn in Hlen; lia | exact H].
Qed.

Lemma all_space_blank (s : string) : Js.all_space s = true <-> blank s.
Proof.
  split; [| apply blank_all_space].
  apply (all_space_blank_bounded (n := String.length s)). lia.
Qed.

Lemma width_le_length (s : string) :
  (Js.space_width s <= String.length s)%nat.
Proof.
  pose proof (white_of_width s) as H.
  destruct (Js.space_width s) as [|k]; [lia|].
  destruct H as (w & r & _ & -> & <-).
  clear. induction w as [|a w IH]; cbn [append String.length]; lia.
Qed.

Lemma width_le_3 (s : string) : (Js.space_width s <= 3)%nat.
Proof.
  pose proof (white_of_width s) as H.
  destruct (Js.space_width s) as [|k]; [lia|].
  destruct H as (w & r & Hw & _ & <-).
  unfold white_space in Hw. cbn [map] in Hw.
  repeat (destruct Hw as [<- | Hw]; [cbn; lia|]).
  destruct Hw.
Qed.

Lemma trimStart_spec_bounded (n : nat) :
  forall s, (String.length s <= n)%nat ->
    Js.space_width (Js.trimStart s) = 0%nat /\
    (Js.trimStart s = "" -> Js.all_space s = true).
Proof.
  induction n as [|n IH]; intros s Hlen.
  - destruct s; [split; reflexivity | cbn in Hlen; lia].
  - destruct s as [|c r]; [split; reflexivity|].
    cbn [Js.trimStart Js.all_space].
    destruct (Js.space_width (String c r)) as [|[|[|[|k]]]] eqn:Hw.
    + split; [exact Hw | discriminate].
    + apply IH. cbn in Hlen; lia.
    + pose proof (width_le_length (String c r)) as Hle. rewrite Hw in Hle.
      destruct r as [|c1 r]; [cbn in Hle; lia|].
      apply IH. cbn in Hlen; lia.
    + pose proof (width_le_length (String c r)) as Hle. rewrite Hw in Hle.
      destruct r as [|c1 [|c2 r]]; try (cbn in Hle; lia).
      apply IH. cbn in Hlen; lia.
    + pose proof (width_le_3 (String c r)) as Hle. rewrite Hw in Hle. lia.
Qed.

(** [trim] leaves nothing exactly of the blank texts. *)
Lemma trim_blank (s : string) : Js.trim s = "" <-> blank s.
Proof.
  rewrite <- all_space_blank. split; [| apply trim_all_space].
  unfold Js.trim. intro H.
  destruct (@trimStart_spec_bounded (String.length s) s (le_n _)) as [Hw Hall].
  apply Hall.
  destruct (Js.trimStart s) as [|c r] eqn:Ht; [reflexivity|].
  cbn [Js.trimEnd] in H.
  destruct (Js.all_space (String c r)) eqn:Ha; [| discriminate H].
  cbn [Js.all_space] in Ha. rewrite Hw in Ha. discriminate Ha.
Qed.

(** C9. Without a room, without a bound identity, or with a prompt that
    is empty or made of white space only, [sendMessage] returns at once:
    no write is issued, and the documents, the local state and the
    replies of the backend still to come are what they were. *)
Theorem sendMessage_guard (prompt : string) (isAction : bool) (w : World) :
  gs_room (state w) = None \/
  gs_playerId (state w) = None \/ gs_playerId (state w) = Some "" \/
  blank prompt ->
  sendMessage prompt isAction w = (Returned tt, w).
Proof.
  intro H. unfold sendMessage, bind, get_state.
  destruct (gs_room (state w)) as [room|]; [| reflexivity].
  destruct (Js.truthy (gs_playerId (state w))) eqn:Hpid; [| reflexivity].
  destruct H as [H | [H | [H | H]]]; try discriminate.
  - rewrite H in Hpid. discriminate Hpid.
  - rewrite H in Hpid. discriminate Hpid.
  - rewrite (proj2 (trim_blank prompt) H). reflexivity.
Qed.

(** C10. With a room, a bound identity and a prompt that is not blank:
    an action, the backend accepting its two writes, appends exactly one
    user message tagged as an action and sets the choices of the caller
    to null, every other player document and the room document staying
    as they were; a message that is not an action leaves every player
    document and the room document as they were, whatever the backend
    answers. *)
Theorem sendMessage_frame (g : GameState) (s : Store) (room : GameRoom)
  (pid prompt : string) :
  gs_room g = Some room ->
  gs_playerId g = Some pid -> pid <> "" ->
  ~ blank prompt ->
  (forall docId docId' rest,
      let s' := store (snd (sendMessage prompt true
                    (mkWorld s g (Accepted docId :: Accepted docId' :: rest)))) in
      db_messages s' =
        (db_messages s ++
           [mkChatMessage docId user prompt
              (Some (Js.or_else
                       (option_map p_name (find_player pid (gs_players g)))
                       "Player"))
              (Some true) (db_clock s)])%list /\
      db_players s' =
        map (fun p => if p_id p =? pid
                      then mkPlayer (p_id p) (p_name p) (avatar p)
                             (characterClass p) (stats p) (isReady p) None
                      else p) (db_players s) /\
      db_room s' = db_room s) /\
  (forall rs,
      let s' := store (snd (sendMessage prompt false (mkWorld s g rs))) in
      db_players s' = db_players s /\ db_room s' = db_room s).
Proof.
  intros Hroom Hpid Hne Hblank.
  assert (Hprompt : Js.trim prompt <> "")
    by (intro H; apply Hblank; apply trim_blank; exact H).
  assert (Ht : Js.truthy (gs_playerId g) = true).
  { rewrite Hpid. cbn. destruct (String.eqb_spec pid ""); [contradiction | reflexivity]. }
  assert (Hp : Js.truthy (Some (Js.trim prompt)) = true).
  { cbn. destruct (String.eqb_spec (Js.trim prompt) ""); [contradiction | reflexivity]. }
  assert (Hor : Js.or_else (gs_playerId g) "" = pid).
  { rewrite Hpid. cbn. destruct (String.eqb_spec pid ""); [contradiction | reflexivity]. }
  split.
  - intros docId docId' rest.
    unfold sendMessage, bind, get_state. cbn [state].
    rewrite Hroom, Ht, Hp, Hor. cbn [negb].
    unfold addDoc, updateDoc_player, await_write, apply_op.
    cbn [replies store state append_message db_players db_room db_messages
         db_clock with_players].
    destruct (has_player pid (db_players s)) eqn:Hhas;
      cbn [snd store db_messages db_players db_room with_players].
    + split; [reflexivity | split; reflexivity].
    + split; [reflexivity | split; [| reflexivity]].
      unfold append_message. cbn [db_players].
      unfold has_player in Hhas. clear - Hhas.
      induction (db_players s) as [|p ps IH]; [reflexivity|].
      cbn [existsb map] in *. apply orb_false_elim in Hhas.
      destruct Hhas as [Hp Hps]. rewrite Hp. f_equal. exact (IH Hps).
  - intro rs. unfold sendMessage, bind, get_state. cbn [state].
    rewrite Hroom, Ht, Hp. cbn [negb].
    unfold addDoc, await_write.
    destruct rs as [|[|docId] rest]; cbn; split; reflexivity.
Qed.

(* ----------------------------------------------------------------- *)
(** ** Turn trigger guard *)

Lemma last_message_app (l : list ChatMessage) (x : ChatMessage) :
  last_message (l ++ [x]) = Some x.
Proof.
  unfold last_message. rewrite map_app. cbn [map]. apply last_last.
Qed.

Lemma last_message_in (l : list ChatMessage) (x : ChatMessage) :
  last_message l = Some x -> exists l', l = (l' ++ [x])%list.
Proof.
  destruct l as [|y l' _] using rev_ind.
  - discriminate.
  - rewrite last_message_app. intro H. inversion H. eauto.
Qed.

(** In a log with distinct ids, the last message of an extension is a
    message of the log it extends only when nothing was added. *)
Lemma last_of_extension (prev added : list ChatMessage) (x : ChatMessage) :
  NoDup (map m_id (prev ++ added)) ->
  last_message (prev ++ added) = Some x ->
  In (m_id x) (map m_id prev) ->
  added = [].
Proof.
  intros Hnd Hlast Hin.
  destruct added as [|y added' _] using rev_ind; [reflexivity|].
  exfalso. rewrite app_assoc, last_message_app in Hlast.
  inversion Hlast; subst y.
  rewrite app_assoc, map_app in Hnd. cbn [map] in Hnd.
  apply NoDup_remove_2 in Hnd. apply Hnd.
  rewrite app_nil_r, map_app. apply in_or_app. left. exact Hin.
Qed.

Lemma on_event_memo (e : StoreEvent) (g : GameState) :
  (forall msgs, e <> MessagesSnapshot msgs) ->
  fst (on_event e g) = None /\
  lastHandledMessageId (snd (on_event e g)) = lastHandledMessageId g.
Proof.
  intro He. destruct e; cbn; try (split; reflexivity).
  - exfalso. apply (He msgs). reflexivity.
  - unfold begin_turn_local. destruct (gs_room g); split; reflexivity.
Qed.

Lemma begin_turn_memo (g : GameState) :
  lastHandledMessageId (snd (begin_turn_local g)) = lastHandledMessageId g.
Proof. unfold begin_turn_local. destruct (gs_room g); reflexivity. Qed.

(** What one call of the listener does: it starts a turn for the last
    message, which the memo did not hold, and puts it in the memo; or it
    starts nothing and leaves the memo. *)
Lemma on_messages_cases (msgs : list ChatMessage) (g : GameState) :
  (exists x, last_message msgs = Some x /\
             lastHandledMessageId g <> Some (m_id x) /\
             fst (on_messages msgs g) = Some (m_id x) /\
             lastHandledMessageId (snd (on_messages msgs g)) = Some (m_id x)) \/
  (fst (on_messages msgs g) = None /\
   lastHandledMessageId (snd (on_messages msgs g)) = lastHandledMessageId g).
Proof.
  unfold on_messages. destruct (last_message msgs) as [x|] eqn:Hlast.
  - destruct (trigger_guard (put_chatHistory msgs g) x) eqn:Hg.
    + left. exists x. split; [reflexivity|]. split; [| split].
      * unfold trigger_guard in Hg. apply andb_prop in Hg. destruct Hg as [_ Hg].
        cbn [put_chatHistory lastHandledMessageId] in Hg.
        intro Heq. rewrite Heq in Hg. cbn [opt_eqb] in Hg.
        rewrite String.eqb_refl in Hg. discriminate.
      * reflexivity.
      * cbn [snd]. rewrite begin_turn_memo. reflexivity.
    + right. split; reflexivity.
  - right. split; reflexivity.
Qed.

(** The ids fired along a run are distinct, and none of them is an id
    [seen] before, provided the memo holds every seen id that is still
    the last of the log. *)
Lemma fired_fresh (es : list StoreEvent) :
  forall (g : GameState) (prev : list ChatMessage) (seen : list string),
    append_only prev (snapshots es) ->
    Forall (fun l => NoDup (map m_id l)) (snapshots es) ->
    (forall f, In f seen -> In f (map m_id prev)) ->
    (forall x, last_message prev = Some x -> In (m_id x) seen ->
               lastHandledMessageId g = Some (m_id x)) ->
    NoDup (fired es g) /\ (forall f, In f (fired es g) -> ~ In f seen).
Proof.
  induction es as [|e es IH]; intros g prev seen Happ Hnd Hseen Hmemo.
  - split; [constructor | intros f []].
  - destruct e as [msgs| | | | | | |];
      try (cbn [fired];
           match goal with |- context [on_event ?e g] =>
             destruct (@on_event_memo e g ltac:(discriminate)) as [H1 H2];
             destruct (on_event e g) as [o g'] eqn:Ev;
             cbn [fst snd] in H1, H2; subst o;
             apply (IH g' prev seen Happ Hnd Hseen);
             rewrite H2; exact Hmemo
           end).
    cbn [snapshots append_only] in Happ. destruct Happ as [[added Hadd] Happ].
    cbn [snapshots] in Hnd. inversion Hnd as [|? ? Hnd1 Hnd2]; subst.
    assert (Hstay : forall x, last_message (prev ++ added) = Some x ->
                              In (m_id x) seen ->
                              added = [] /\ lastHandledMessageId g = Some (m_id x)).
    { intros x Hl Hin.
      assert (added = []) by (eapply last_of_extension; eauto).
      subst added. rewrite List.app_nil_r in Hl. split; [reflexivity | auto]. }
    assert (Hsub : forall f, In f seen -> In f (map m_id (prev ++ added))).
    { intros f Hf. rewrite map_app. apply in_or_app. left. auto. }
    cbn [fired on_event].
    destruct (on_messages_cases (prev ++ added) g)
      as [[x [Hl [Hne [Hf Hm]]]] | [Hf Hm]];
      destruct (on_messages (prev ++ added) g) as [o g'];
      cbn [fst snd] in Hf, Hm; subst o.
    + destruct (IH g' (prev ++ added)%list (m_id x :: seen) Happ Hnd2) as [N1 N2].
      * intros f [Hf | Hf]; [| auto].
        subst f. apply in_map. apply last_message_in in Hl.
        destruct Hl as [l' Hl']. rewrite Hl'. apply in_or_app. right. left.
        reflexivity.
      * intros x' Hl' _. rewrite Hl in Hl'. inversion Hl'; subst x'. exact Hm.
      * split.
        -- constructor; [| exact N1]. intro Hin. apply (N2 _ Hin). left. reflexivity.
        -- intros f [Hf | Hf] Hin.
           ++ subst f. destruct (Hstay x Hl Hin) as [_ Hh]. contradiction.
           ++ apply (N2 _ Hf). right. exact Hin.
    + apply (IH g' (prev ++ added)%list seen Happ Hnd2 Hsub).
      intros x Hl Hin. rewrite Hm. apply (Hstay x Hl Hin).
Qed.

(** C3. Along every run of a process in which the chat listener sees an
    append-only log with distinct message ids, the trigger guard starts
    at most one turn for any message id, whatever the other events of
    the process do in between. *)
Theorem turn_fires_once (es : list StoreEvent) (g : GameState) (m : string) :
  append_only [] (snapshots es) ->
  Forall (fun l => NoDup (map m_id l)) (snapshots es) ->
  (count_occ string_dec (fired es g) m <= 1)%nat.
Proof.
  intros Happ Hnd.
  destruct (@fired_fresh es g [] [] Happ Hnd) as [N _].
  - intros f [].
  - intros x Hx. discriminate Hx.
  - revert m. apply (NoDup_count_occ string_dec). exact N.
Qed.

(* ----------------------------------------------------------------- *)
(** ** Errors of the orchestration turn *)

Lemma await_write_state (effect : string -> Store -> option Store) (w : World) :
  state (snd (await_write effect w)) = state w.
Proof.
  unfold await_write. destruct (replies w) as [|[|docId] rest]; try reflexivity.
  destruct (effect docId (store w)); reflexivity.
Qed.

Lemma commit_state (ops : list BatchOp) (w : World) :
  state (snd (commit ops w)) = state w.
Proof.
  destruct ops; [reflexivity|]. apply await_write_state.
Qed.

Lemma reconcile_state (room : GameRoom) (players : list Player)
  (gm : GmResponse) (w : World) :
  state (snd (reconcile room players gm w)) = state w.
Proof.
  unfold reconcile, bind.
  destruct (narrative (repair players gm)) as [n|].
  - destruct (n =? "").
    + cbn [ret]. apply commit_state.
    + unfold addDoc.
      pose proof (await_write_state
        (fun docId s => Some (append_message docId
           (mkMessageData assistant n (Some "GM") None) s)) w) as Hs.
      destruct (await_write _ w) as [[[]|e] w1]; cbn [snd] in *.
      * rewrite commit_state. exact Hs.
      * exact Hs.
  - cbn [ret]. apply commit_state.
Qed.

Lemma resume_turn_state (room : GameRoom) (players : list Player)
  (outcome : LlmOutcome) (w : World) :
  state (snd (resume_turn room players outcome w))
  = put_isAiThinking false (state w).
Proof.
  unfold resume_turn, try_catch_finally.
  assert (Hh : forall w0, state (snd (addDoc gm_error_message w0)) = state w0).
  { intro w0. apply await_write_state. }
  destruct outcome as [| m | | gm]; cbn [throw].
  - specialize (Hh w). destruct (addDoc gm_error_message w) as [r2 w2].
    cbn [snd set_state] in *. rewrite Hh. reflexivity.
  - specialize (Hh w). destruct (addDoc gm_error_message w) as [r2 w2].
    cbn [snd set_state] in *. rewrite Hh. reflexivity.
  - specialize (Hh w). destruct (addDoc gm_error_message w) as [r2 w2].
    cbn [snd set_state] in *. rewrite Hh. reflexivity.
  - pose proof (reconcile_state room players gm w) as Hr.
    destruct (reconcile room players gm w) as [[[]|e] w1]; cbn [snd] in Hr.
    + cbn [snd set_state state]. rewrite Hr. reflexivity.
    + specialize (Hh w1). destruct (addDoc gm_error_message w1) as [r2 w2].
      cbn [snd set_state state] in *. rewrite Hh, Hr. reflexivity.
Qed.

Lemma trigger_state (room : GameRoom) (outcome : LlmOutcome) (w : World) :
  gs_room (state w) = Some room ->
  state (snd (_triggerGmResponse outcome w)) = put_isAiThinking false (state w).
Proof.
  intro Hroom. unfold _triggerGmResponse, bind, begin_turn, local, begin_turn_local.
  rewrite Hroom. cbn [ret].
  rewrite resume_turn_state. reflexivity.
Qed.

(** C8 (amended). A turn that fails on the network, on the parse (a
    content [parse_reply] rejects is such a failure) or on a reply that
    is no object (null, a boolean, a number, a string) is handled inside
    [_triggerGmResponse]: the error itself never reaches the caller,
    and one write is tried, that of a message of role system, without
    sender and without action tag, whose content is "(GM Error: The
    spirits are confused. Please try acting again.)". When the backend
    accepts that write the message is appended to the log, the room and
    the players are untouched and the turn returns normally; when the
    backend rejects it, no message is appended and the turn ends with
    the error of the write. The in-flight flag is down after the turn
    on every exit path, whatever the outcome of the call and the
    answers of the backend, the rest of the local state unchanged, so
    that the guard fires again for a later action message. *)
Theorem turn_failure_is_recoverable (room : GameRoom) (outcome : LlmOutcome)
  (s : Store) (g : GameState) (rs : list WriteReply) :
  gs_room g = Some room ->
  let w := mkWorld s g rs in
  let idle :=
    mkGameState (gs_room g) (gs_players g) (chatHistory g) (gs_playerId g)
      (isLoading g) false (lastHandledMessageId g) in
  state (snd (_triggerGmResponse outcome w)) = idle /\
  (outcome = NetworkFailure \/ (exists m, outcome = ParseFailure m) \/
   outcome = TypeFailure ->
   fst (_triggerGmResponse outcome w) <> Threw NetworkError /\
   (forall m, fst (_triggerGmResponse outcome w) <> Threw (JsonError m)) /\
   fst (_triggerGmResponse outcome w) <> Threw TypeError /\
   (forall docId rest,
       rs = Accepted docId :: rest ->
       _triggerGmResponse outcome w
       = (Returned tt,
          mkWorld
            (mkStore (db_room s) (db_players s)
               (db_messages s ++
                  [mkChatMessage docId system
                     "(GM Error: The spirits are confused. Please try acting again.)"
                     None None (db_clock s)])
               (S (db_clock s)))
            idle rest)) /\
   (rs = [] \/ (exists rest, rs = Rejected :: rest) ->
    fst (_triggerGmResponse outcome w) = Threw FirestoreError /\
    store (snd (_triggerGmResponse outcome w)) = s)) /\
  (forall x : ChatMessage,
      role x = user -> isAction x = Some true ->
      activeRoll room = None ->
      gs_playerId g = Some (hostId room) ->
      lastHandledMessageId g <> Some (m_id x) ->
      trigger_guard (state (snd (_triggerGmResponse outcome w))) x = true) /\
  (forall rawContent m,
      parse_reply rawContent = ParseError m ->
      outcome_of_content rawContent = Some (ParseFailure m)) /\
  (forall rawContent j,
      parse_reply rawContent = ParsedOk j ->
      (forall ms, j <> JObj ms) -> (forall items, j <> JArr items) ->
      outcome_of_content rawContent = Some TypeFailure).
Proof.
  intros Hroom w idle.
  assert (Hstate : state (snd (_triggerGmResponse outcome w)) = idle).
  { rewrite (trigger_state outcome w Hroom). reflexivity. }
  split; [exact Hstate | split; [| split; [| split]]].
  3:{ intros rawContent m Hm. unfold outcome_of_content. rewrite Hm.
      reflexivity. }
  3:{ intros rawContent j Hj Hobj Harr. unfold outcome_of_content. rewrite Hj.
      destruct j as [| b | n | x | items | ms]; try reflexivity.
      - exfalso. apply (Harr items). reflexivity.
      - exfalso. apply (Hobj ms). reflexivity. }
  - intro Hfail.
    assert (Hrun : _triggerGmResponse outcome w
                   = match rs with
                     | Accepted docId :: rest =>
                         (Returned tt,
                          mkWorld (append_message docId gm_error_message s)
                            idle rest)
                     | Rejected :: rest =>
                         (Threw FirestoreError, mkWorld s idle rest)
                     | [] => (Threw FirestoreError, mkWorld s idle [])
                     end).
    { unfold _triggerGmResponse, bind, begin_turn, local, begin_turn_local.
      subst w. cbn [state]. rewrite Hroom. cbn [ret].
      unfold resume_turn, try_catch_finally.
      destruct Hfail as [-> | [[m ->] | ->]];
        cbn [throw]; unfold addDoc, await_write; cbn [replies store state];
        destruct rs as [|[|docId] rest]; reflexivity. }
    rewrite Hrun. split; [| split; [| split; [| split]]].
    + destruct rs as [|[|docId] rest]; discriminate.
    + intro m. destruct rs as [|[|docId] rest]; discriminate.
    + destruct rs as [|[|docId] rest]; discriminate.
    + intros docId rest ->. reflexivity.
    + intros [-> | [rest ->]]; split; reflexivity.
  - intros x Hu Ha Hroll Hpid Hmemo.
    rewrite Hstate. subst idle. unfold trigger_guard, is_user, is_action.
    cbn [gs_room gs_playerId isAiThinking lastHandledMessageId].
    rewrite Hu, Ha, Hroom, Hroll, Hpid. cbn [opt_eqb andb negb].
    rewrite String.eqb_refl. cbn [andb].
    destruct (lastHandledMessageId g) as [h|]; [| reflexivity].
    cbn [opt_eqb]. destruct (String.eqb_spec (m_id x) h); [| reflexivity].
    subst h. contradiction.
Qed.

(* ----------------------------------------------------------------- *)
(** ** State reconciler: the effect of a batch *)

Lemma apply_player_id (u : PlayerUpdate) (p : Player) :
  p_id (apply_player u p) = p_id p.
Proof. destruct u; reflexivity. Qed.

Lemma has_player_update (pid pid' : string) (u : PlayerUpdate)
  (ps : list Player) :
  has_player pid (update_player pid' u ps) = has_player pid ps.
Proof.
  unfold has_player, update_player.
  induction ps as [|p ps IH]; [reflexivity|].
  cbn [map existsb]. rewrite IH. f_equal.
  destruct (p_id p =? pid'); [rewrite apply_player_id|]; reflexivity.
Qed.

Lemma has_player_In (pid : string) (ps : list Player) :
  has_player pid ps = true <-> In pid (map p_id ps).
Proof.
  unfold has_player. rewrite existsb_exists. split.
  - intros [p [Hin Hp]]. apply String.eqb_eq in Hp. subst pid.
    apply in_map. exact Hin.
  - intro Hin. apply in_map_iff in Hin. destruct Hin as [p [Hp Hin]].
    exists p. split; [exact Hin | apply String.eqb_eq; exact Hp].
Qed.

(** A batch that commits leaves the documents its updates make, one
    after the other. *)
Lemma apply_batch_view (ops : list BatchOp) :
  forall s s', apply_batch ops s = Some s' ->
    s' = mkStore (room_after ops (db_room s))
           (map (player_after ops) (db_players s))
           (db_messages s) (db_clock s).
Proof.
  induction ops as [|op ops IH]; intros s s' H.
  - cbn in H. inversion H; subst s'. cbn. rewrite map_id. destruct s; reflexivity.
  - cbn [apply_batch] in H. destruct op as [u | pid u]; cbn [apply_op] in H.
    + apply IH in H. subst s'. reflexivity.
    + destruct (has_player pid (db_players s)); [| discriminate].
      apply IH in H. subst s'. cbn [with_players db_room db_players db_messages db_clock].
      f_equal. unfold update_player. rewrite map_map. reflexivity.
Qed.

(** A batch commits when the player documents it updates exist. *)
Lemma apply_batch_commits (ops : list BatchOp) :
  forall s,
    (forall pid u, In (UpdatePlayer pid u) ops ->
                   has_player pid (db_players s) = true) ->
    apply_batch ops s
    = Some (mkStore (room_after ops (db_room s))
              (map (player_after ops) (db_players s))
              (db_messages s) (db_clock s)).
Proof.
  induction ops as [|op ops IH]; intros s Hex.
  - cbn. rewrite map_id. destruct s; reflexivity.
  - cbn [apply_batch]. destruct op as [u | pid u]; cbn [apply_op].
    + rewrite IH; [reflexivity|].
      intros pid u' Hin. apply (Hex pid u'). right. exact Hin.
    + rewrite (Hex pid u (or_introl eq_refl)).
      rewrite IH.
      * cbn [with_players db_room db_players db_messages db_clock].
        f_equal. f_equal. unfold update_player. rewrite map_map. reflexivity.
      * intros pid' u' Hin. cbn [with_players db_players].
        rewrite has_player_update. apply (Hex pid' u'). right. exact Hin.
Qed.

Lemma player_after_app (a b : list BatchOp) (q : Player) :
  player_after (a ++ b) q = player_after b (player_after a q).
Proof. unfold player_after. apply fold_left_app. Qed.

Lemma room_after_app (a b : list BatchOp) (r : GameRoom) :
  room_after (a ++ b) r = room_after b (room_after a r).
Proof. unfold room_after. apply fold_left_app. Qed.

Lemma player_after_clear_done (l : list Player) (q : Player) :
  choices q = None -> player_after (map clear_op l) q = q.
Proof.
  induction l as [|p l IH]; intro Hq; [reflexivity|].
  cbn [map]. unfold player_after. cbn [fold_left clear_op].
  fold (player_after (map clear_op l)).
  destruct (p_id q =? p_id p); [| exact (IH Hq)].
  replace (apply_player (SetChoices None) q) with q; [exact (IH Hq)|].
  destruct q; cbn in Hq |- *. subst. reflexivity.
Qed.

(** The roll branch clears the choices of every player it lists. *)
Lemma player_after_clear (l : list Player) (q : Player) :
  In (p_id q) (map p_id l) ->
  player_after (map clear_op l) q = apply_player (SetChoices None) q.
Proof.
  induction l as [|p l IH]; intro Hin; [destruct Hin|].
  cbn [map]. unfold player_after. cbn [fold_left clear_op].
  fold (player_after (map clear_op l)).
  destruct (String.eqb_spec (p_id q) (p_id p)) as [He | Hne].
  - apply player_after_clear_done. reflexivity.
  - apply IH. destruct Hin as [Hin | Hin]; [congruence | exact Hin].
Qed.

Lemma player_after_choices_other (ch : list (string * list string))
  (l : list Player) (q : Player) :
  ~ In (p_id q) (map p_id l) ->
  player_after (flat_map (choice_op ch) l) q = q.
Proof.
  induction l as [|p l IH]; intro Hnin; [reflexivity|].
  cbn [flat_map]. rewrite player_after_app.
  assert (Hp : player_after (choice_op ch p) q = q).
  { unfold choice_op. destruct (characterClass p) as [c|]; [| reflexivity].
    destruct (c =? ""); [reflexivity|].
    unfold player_after. cbn [fold_left].
    destruct (String.eqb_spec (p_id q) (p_id p)) as [He | Hne]; [| reflexivity].
    exfalso. apply Hnin. left. symmetry. exact He. }
  rewrite Hp. apply IH. intro Hin. apply Hnin. right. exact Hin.
Qed.

(** With distinct ids, the choices branch gives every listed player the
    choices of its own class. *)
Lemma player_after_choices (ch : list (string * list string))
  (l : list Player) (q : Player) :
  NoDup (map p_id l) -> In q l ->
  player_after (flat_map (choice_op ch) l) q = with_choices ch q.
Proof.
  induction l as [|p l IH]; intros Hnd Hin; [destruct Hin|].
  cbn [map] in Hnd. inversion Hnd as [|? ? Hp Hl]; subst.
  cbn [flat_map]. rewrite player_after_app.
  destruct Hin as [He | Hin].
  - subst p.
    assert (Hq : player_after (choice_op ch q) q = with_choices ch q).
    { unfold choice_op, with_choices.
      destruct (characterClass q) as [c|]; [| reflexivity].
      destruct (c =? ""); [reflexivity|].
      unfold player_after. cbn [fold_left]. rewrite String.eqb_refl. reflexivity. }
    rewrite Hq. apply player_after_choices_other.
    replace (p_id (with_choices ch q)) with (p_id q); [exact Hp|].
    unfold with_choices. destruct (characterClass q) as [c|]; [| reflexivity].
    destruct (c =? ""); [reflexivity | symmetry; apply apply_player_id].
  - assert (Hq : player_after (choice_op ch p) q = q).
    { unfold choice_op. destruct (characterClass p) as [c|]; [| reflexivity].
      destruct (c =? ""); [reflexivity|].
      unfold player_after. cbn [fold_left].
      destruct (String.eqb_spec (p_id q) (p_id p)) as [He | Hne]; [| reflexivity].
      exfalso. apply Hp. rewrite <- He. apply in_map. exact Hin. }
    rewrite Hq. apply IH; assumption.
Qed.

Lemma room_without_roll (r : GameRoom) :
  activeRoll r = None -> apply_room DeleteActiveRoll r = r.
Proof. destruct r; cbn. intro H; subst; reflexivity. Qed.

Lemma scene_ops_room (gm : GmResponse) (r : GameRoom) :
  room_after
    (if Js.truthy (scene_image_prompt gm)
     then [UpdateRoom (SetCurrentScene (Js.or_else (scene_image_prompt gm) ""))]
     else []) r
  = with_scene gm r.
Proof.
  unfold with_scene. destruct (Js.truthy (scene_image_prompt gm)); reflexivity.
Qed.

Lemma scene_ops_player (gm : GmResponse) (q : Player) :
  player_after
    (if Js.truthy (scene_image_prompt gm)
     then [UpdateRoom (SetCurrentScene (Js.or_else (scene_image_prompt gm) ""))]
     else []) q
  = q.
Proof. destruct (Js.truthy (scene_image_prompt gm)); reflexivity. Qed.

Lemma room_after_players_only (ops : list BatchOp) (r : GameRoom) :
  (forall u, ~ In (UpdateRoom u) ops) -> room_after ops r = r.
Proof.
  revert r. induction ops as [|op ops IH]; intros r H; [reflexivity|].
  destruct op as [u | pid u].
  - exfalso. apply (H u). left. reflexivity.
  - unfold room_after. cbn [fold_left]. apply IH.
    intros u' Hin. apply (H u'). right. exact Hin.
Qed.

Lemma clear_ops_players_only (l : list Player) (u : RoomUpdate) :
  ~ In (UpdateRoom u) (map clear_op l).
Proof.
  intro Hin. apply in_map_iff in Hin. destruct Hin as [p [Hp _]]. discriminate Hp.
Qed.

Lemma choice_ops_target (ch : list (string * list string)) (l : list Player)
  (op : BatchOp) :
  In op (flat_map (choice_op ch) l) ->
  exists p c, In p l /\ characterClass p = Some c /\ c <> "" /\
              op = UpdatePlayer (p_id p)
                     (SetChoices (Some (choicesToUpdate ch c))).
Proof.
  intro Hin. apply in_flat_map in Hin. destruct Hin as [p [Hp Hop]].
  unfold choice_op in Hop. destruct (characterClass p) as [c|] eqn:Hc; [| destruct Hop].
  destruct (String.eqb_spec c ""); [destruct Hop|].
  destruct Hop as [Hop | []]. exists p, c. auto.
Qed.

(** The documents a batch leaves, branch by branch. *)
Lemma batch_ops_view (s : Store) (gm : GmResponse) :
  let room := db_room s in
  let players := db_players s in
  let ops := batch_ops room players gm in
  (forall ask target tp,
      roll_request gm = Some ask ->
      targetClassName ask = Some target -> target <> "" ->
      find (is_class target) players = Some tp ->
      apply_batch ops s
      = Some (mkStore
                (apply_room
                   (SetActiveRoll
                      (mkRollRequest (p_id tp) (p_name tp)
                         (Js.or_else (ask_diceType ask) "d20")
                         (Js.or_else (ask_reason ask) "Check")))
                   (with_scene gm room))
                (map (apply_player (SetChoices None)) players)
                (db_messages s) (db_clock s))) /\
  (forall ch,
      NoDup (map p_id players) ->
      Js.truthy (roll_target gm) = false ->
      gm_choices gm = Some ch ->
      apply_batch ops s
      = Some (mkStore
                (apply_room DeleteActiveRoll (with_scene gm room))
                (map (with_choices ch) players)
                (db_messages s) (db_clock s))).
Proof.
  intros room players ops. split.
  - intros ask target tp Hask Htarget Hne Hfind.
    assert (Hops : ops =
              ((if Js.truthy (scene_image_prompt gm)
                then [UpdateRoom (SetCurrentScene
                                    (Js.or_else (scene_image_prompt gm) ""))]
                else []) ++
               UpdateRoom (SetActiveRoll
                             (mkRollRequest (p_id tp) (p_name tp)
                                (Js.or_else (ask_diceType ask) "d20")
                                (Js.or_else (ask_reason ask) "Check")))
               :: map clear_op players)%list).
    { subst ops. unfold batch_ops. rewrite Hask, Htarget. cbn [Js.truthy Js.or_else].
      destruct (String.eqb_spec target ""); [contradiction|]. cbn [negb].
      unfold roll_ops. fold players. rewrite Hfind. reflexivity. }
    rewrite apply_batch_commits.
    + f_equal. fold room players. f_equal.
      * rewrite Hops, room_after_app, scene_ops_room.
        unfold room_after at 1. cbn [fold_left].
        fold (room_after (map clear_op players)).
        apply room_after_players_only. intro u. apply clear_ops_players_only.
      * apply map_ext_in. intros q Hq.
        rewrite Hops, player_after_app, scene_ops_player.
        unfold player_after at 1. cbn [fold_left].
        fold (player_after (map clear_op players)).
        apply player_after_clear. apply in_map. exact Hq.
    + intros pid u Hin. rewrite Hops in Hin. apply in_app_or in Hin.
      destruct Hin as [Hin | [Hin | Hin]].
      * destruct (Js.truthy (scene_image_prompt gm)); [| destruct Hin].
        destruct Hin as [Hin | []]. discriminate Hin.
      * discriminate Hin.
      * apply in_map_iff in Hin. destruct Hin as [p [Hp Hin]].
        inversion Hp; subst. apply has_player_In. apply in_map. exact Hin.
  - intros ch Hnd Htarget Hch.
    assert (Hops : ops =
              ((if Js.truthy (scene_image_prompt gm)
                then [UpdateRoom (SetCurrentScene
                                    (Js.or_else (scene_image_prompt gm) ""))]
                else []) ++
               (match activeRoll room with
                | Some _ => [UpdateRoom DeleteActiveRoll]
                | None => []
                end) ++ flat_map (choice_op ch) players)%list).
    { subst ops. unfold batch_ops. rewrite Hch. unfold roll_target in Htarget.
      destruct (roll_request gm) as [ask|]; [rewrite Htarget|]; reflexivity. }
    assert (Hnoroom : forall u, ~ In (UpdateRoom u) (flat_map (choice_op ch) players)).
    { intros u Hin. apply choice_ops_target in Hin.
      destruct Hin as [p [c [_ [_ [_ Hop]]]]]. discriminate Hop. }
    rewrite apply_batch_commits.
    + f_equal. fold room players. f_equal.
      * rewrite Hops, !room_after_app, scene_ops_room.
        rewrite (room_after_players_only _ _ Hnoroom).
        destruct (activeRoll room) as [r|] eqn:Hr.
        -- reflexivity.
        -- cbn. unfold with_scene.
           destruct (Js.truthy (scene_image_prompt gm)).
           ++ symmetry. apply room_without_roll. exact Hr.
           ++ symmetry. apply room_without_roll. exact Hr.
      * apply map_ext_in. intros q Hq.
        rewrite Hops, !player_after_app, scene_ops_player.
        replace (player_after
                   (match activeRoll room with
                    | Some _ => [UpdateRoom DeleteActiveRoll]
                    | None => []
                    end) q) with q
          by (destruct (activeRoll room); reflexivity).
        apply player_after_choices; assumption.
    + intros pid u Hin. rewrite Hops in Hin.
      apply in_app_or in Hin. destruct Hin as [Hin | Hin].
      * destruct (Js.truthy (scene_image_prompt gm)); [| destruct Hin].
        destruct Hin as [Hin | []]. discriminate Hin.
      * apply in_app_or in Hin. destruct Hin as [Hin | Hin].
        -- destruct (activeRoll room); [| destruct Hin].
           destruct Hin as [Hin | []]. discriminate Hin.
        -- apply choice_ops_target in Hin.
           destruct Hin as [p [c [Hp [_ [_ Hop]]]]].
           inversion Hop; subst. apply has_player_In. apply in_map. exact Hp.
Qed.

(* ----------------------------------------------------------------- *)
(** ** Response repair *)

Lemma find_skip {A : Type} (P : A -> bool) (a b : list A) (k : A) :
  P k = false -> find P (a ++ k :: b) = find P (a ++ b).
Proof.
  intro Hk. induction a as [|x a IH]; cbn [app find].
  - rewrite Hk. reflexivity.
  - destruct (P x); [reflexivity | exact IH].
Qed.

Lemma find_new {A : Type} (P : A -> bool) (a b : list A) (k : A) :
  find P (a ++ b) = None -> P k = true -> find P (a ++ k :: b) = Some k.
Proof.
  intros Hnone Hk. induction a as [|x a IH]; cbn [app find] in *.
  - rewrite Hk. reflexivity.
  - destruct (P x); [discriminate | exact (IH Hnone)].
Qed.

(** The first element that satisfies [P], as a position in the list. *)
Lemma find_first {A : Type} (P : A -> bool) (l : list A) (k : A) :
  find P l = Some k <->
  exists before after,
    l = (before ++ k :: after)%list /\ P k = true /\
    Forall (fun x => P x = false) before.
Proof.
  split.
  - induction l as [|x l IH]; cbn [find]; [discriminate|].
    destruct (P x) eqn:Hx.
    + intro H. inversion H; subst x. exists [], l. auto.
    + intro H. destruct (IH H) as [before [after [Hl [Hk Hb]]]].
      exists (x :: before), after. subst l. auto.
  - intros [before [after [Hl [Hk Hb]]]]. subst l.
    induction Hb as [|x before Hx _ IH]; cbn [app find].
    + rewrite Hk. reflexivity.
    + rewrite Hx. exact IH.
Qed.

Lemma find_none_all {A : Type} (P : A -> bool) (l : list A) :
  find P l = None <-> Forall (fun x => P x = false) l.
Proof.
  split.
  - intro H. apply Forall_forall. intros x Hx. exact (find_none _ _ H x Hx).
  - intro H. induction H as [|x l Hx _ IH]; cbn [find]; [reflexivity|].
    rewrite Hx. exact IH.
Qed.

(** *** The order of the keys *)

Lemma insert_index_split (v : Z) (k : string) (l : list (Z * string)) :
  exists a b, l = (a ++ b)%list /\ Obj.insert_index v k l = (a ++ (v, k) :: b)%list.
Proof.
  induction l as [|[v' k'] l IH]; cbn [Obj.insert_index].
  - exists [], []. auto.
  - destruct (v <? v')%Z.
    + exists [], ((v', k') :: l). auto.
    + destruct IH as [a [b [Hl Hi]]]. exists ((v', k') :: a), b.
      rewrite Hi. subst l. auto.
Qed.

Lemma enumerate_snoc (l : list string) (k : string) :
  exists a b,
    Obj.enumerate l = (a ++ b)%list /\
    Obj.enumerate (l ++ [k]) = (a ++ k :: b)%list.
Proof.
  unfold Obj.enumerate. rewrite fold_left_app, filter_app. cbn [fold_left filter].
  unfold Obj.is_index.
  destruct (Obj.array_index k) as [v|]; cbn [negb].
  - match goal with
    | |- context [Obj.insert_index v k ?acc] =>
        destruct (insert_index_split v k acc) as [a [b [Hacc Hins]]];
        rewrite Hins, Hacc
    end.
    rewrite !map_app. cbn [map snd]. rewrite List.app_nil_r.
    exists (map snd a), (map snd b ++ filter
                           (fun k0 => negb match Obj.array_index k0 with
                                           | Some _ => true
                                           | None => false
                                           end) l)%list.
    rewrite <- !List.app_assoc. auto.
  - eexists. exists []. rewrite List.app_nil_r.
    split; [reflexivity|]. rewrite List.app_assoc. reflexivity.
Qed.

Lemma in_split_insert {A : Type} (a b : list A) (k x : A) :
  In x (a ++ k :: b) <-> x = k \/ In x (a ++ b).
Proof.
  rewrite !in_app_iff. cbn [In]. intuition congruence.
Qed.

Lemma in_enumerate (l : list string) (k : string) :
  In k (Obj.enumerate l) <-> In k l.
Proof.
  induction l as [|x l IH] using rev_ind.
  - cbn. tauto.
  - destruct (enumerate_snoc l x) as [a [b [H1 H2]]].
    rewrite H2, in_split_insert, <- H1, IH, in_app_iff. cbn [In].
    intuition congruence.
Qed.

Section ObjFacts.
Variable V : Type.
Implicit Types (o : list (string * V)) (k : string) (v : V).

Lemma keys_in o k : In k (Obj.keys o) <-> In k (Obj.own o).
Proof. apply in_enumerate. Qed.

Lemma has_In o k : Obj.has k o = true <-> In k (Obj.own o).
Proof.
  unfold Obj.has, Obj.own. rewrite existsb_exists, in_map_iff. split.
  - intros [e [He Hk]]. apply String.eqb_eq in Hk. eauto.
  - intros [e [Hk He]]. exists e. split; [exact He | apply String.eqb_eq; exact Hk].
Qed.

Lemma get_define_same o k v : Obj.get k (Obj.define k v o) = Some v.
Proof.
  induction o as [|[k' v'] o IH]; cbn.
  - rewrite String.eqb_refl. reflexivity.
  - destruct (String.eqb_spec k' k); cbn.
    + rewrite String.eqb_refl. reflexivity.
    + destruct (String.eqb_spec k' k); [contradiction | exact IH].
Qed.

Lemma get_define_other o k k' v :
  k' <> k -> Obj.get k' (Obj.define k v o) = Obj.get k' o.
Proof.
  intro Hne. induction o as [|[k1 v1] o IH]; cbn.
  - destruct (String.eqb_spec k k'); [congruence | reflexivity].
  - destruct (String.eqb_spec k1 k); cbn.
    + subst k1. destruct (String.eqb_spec k k'); [congruence | reflexivity].
    + destruct (String.eqb_spec k1 k'); [reflexivity | exact IH].
Qed.

Lemma own_define_present o k v :
  In k (Obj.own o) -> Obj.own (Obj.define k v o) = Obj.own o.
Proof.
  unfold Obj.own. induction o as [|[k1 v1] o IH]; cbn; [intros []|].
  intro Hin. destruct (String.eqb_spec k1 k); cbn.
  - congruence.
  - f_equal. apply IH. destruct Hin; [contradiction | assumption].
Qed.

Lemma define_absent o k v :
  ~ In k (Obj.own o) -> Obj.define k v o = (o ++ [(k, v)])%list.
Proof.
  unfold Obj.own. induction o as [|[k1 v1] o IH]; cbn; [reflexivity|].
  intro Hnin. destruct (String.eqb_spec k1 k).
  - exfalso. apply Hnin. left. assumption.
  - f_equal. apply IH. intro H. apply Hnin. right. exact H.
Qed.

Lemma get_of_key o k : In k (Obj.own o) -> exists v, Obj.get k o = Some v.
Proof.
  unfold Obj.own. induction o as [|[k1 v1] o IH]; cbn; [intros []|].
  intro Hin. destruct (String.eqb_spec k1 k); [eauto|].
  apply IH. destruct Hin; [contradiction | assumption].
Qed.

Lemma get_some_key o k v : Obj.get k o = Some v -> In k (Obj.own o).
Proof.
  unfold Obj.own. induction o as [|[k1 v1] o IH]; cbn; [discriminate|].
  destruct (String.eqb_spec k1 k); [left; assumption | right; auto].
Qed.

Lemma get_app_present o o' k :
  In k (Obj.own o) -> Obj.get k (o ++ o') = Obj.get k o.
Proof.
  unfold Obj.own. induction o as [|[k1 v1] o IH]; cbn; [intros []|].
  intro Hin. destruct (String.eqb_spec k1 k); [reflexivity|].
  apply IH. destruct Hin; [contradiction | assumption].
Qed.

Lemma get_app_absent o o' k :
  ~ In k (Obj.own o) -> Obj.get k (o ++ o') = Obj.get k o'.
Proof.
  unfold Obj.own. induction o as [|[k1 v1] o IH]; cbn; [reflexivity|].
  intro Hnin. destruct (String.eqb_spec k1 k).
  - exfalso. apply Hnin. left. assumption.
  - apply IH. intro H. apply Hnin. right. exact H.
Qed.

Lemma define_snoc o k v v' :
  ~ In k (Obj.own o) ->
  Obj.define k v' (o ++ [(k, v)]) = (o ++ [(k, v')])%list.
Proof.
  unfold Obj.own. induction o as [|[k1 v1] o IH]; cbn.
  - intros _. rewrite String.eqb_refl. reflexivity.
  - intro Hnin. destruct (String.eqb_spec k1 k).
    + exfalso. apply Hnin. left. assumption.
    + f_equal. apply IH. intro H. apply Hnin. right. exact H.
Qed.

Lemma define_same o k v : Obj.get k o = Some v -> Obj.define k v o = o.
Proof.
  induction o as [|[k1 v1] o IH]; cbn; [discriminate|].
  destruct (String.eqb_spec k1 k).
  - intro H. inversion H. subst. reflexivity.
  - intro H. f_equal. exact (IH H).
Qed.

(** An assignment to an own key, or to a key other than [__proto__],
    writes the own property. *)
Lemma set_define o k v :
  k <> "__proto__" \/ In k (Obj.own o) -> Obj.set k v o = Obj.define k v o.
Proof.
  intro H. unfold Obj.set.
  destruct (String.eqb_spec k "__proto__") as [He | Hne]; [| reflexivity].
  destruct H as [H | H]; [contradiction|].
  apply has_In in H. rewrite H. reflexivity.
Qed.

Lemma set_proto o v :
  ~ In "__proto__" (Obj.own o) -> Obj.set "__proto__" v o = o.
Proof.
  intro H. unfold Obj.set. cbn [String.eqb Ascii.eqb Bool.eqb andb].
  destruct (Obj.has "__proto__" o) eqn:Hh; [| reflexivity].
  apply has_In in Hh. contradiction.
Qed.

End ObjFacts.

(** *** The key of a class *)

Lemma toLowerCase_empty (s : string) : Js.toLowerCase s = "" -> s = "".
Proof. apply cm_proper. Qed.

Lemma find_key_some (ch : list (string * list string)) (c k : string) :
  find_key ch c = Some k ->
  In k (Obj.own ch) /\ Js.toLowerCase k = Js.toLowerCase c.
Proof.
  unfold find_key. intro H. apply find_some in H. destruct H as [Hin Heq].
  split; [apply keys_in; exact Hin | apply String.eqb_eq; exact Heq].
Qed.

Lemma find_key_nonempty (ch : list (string * list string)) (c k : string) :
  c <> "" -> find_key ch c = Some k -> k <> "".
Proof.
  intros Hc H Hk. apply find_key_some in H. destruct H as [_ Heq].
  subst k. apply Hc. apply toLowerCase_empty. rewrite <- Heq.
  apply cm_proper. reflexivity.
Qed.

Lemma find_key_none_absent (ch : list (string * list string)) (c : string) :
  find_key ch c = None -> ~ In c (Obj.own ch).
Proof.
  unfold find_key. intros H Hin. apply keys_in in Hin.
  apply (find_none _ _ H) in Hin. rewrite String.eqb_refl in Hin. discriminate.
Qed.

Lemma find_key_same_keys (ch ch' : list (string * list string)) (c : string) :
  Obj.own ch' = Obj.own ch -> find_key ch' c = find_key ch c.
Proof. unfold find_key, Obj.keys. intro H. rewrite H. reflexivity. Qed.

Lemma find_key_case (ch : list (string * list string)) (c c' : string) :
  Js.toLowerCase c = Js.toLowerCase c' -> find_key ch c = find_key ch c'.
Proof. unfold find_key. intro H. rewrite H. reflexivity. Qed.

(** A new key that is not the class up to case leaves the key of the
    class; a new key that is, when the class had none, becomes its key. *)
Lemma find_key_new_other (ch : list (string * list string)) (k : string)
  (v : list string) (c : string) :
  Js.toLowerCase k <> Js.toLowerCase c ->
  find_key (ch ++ [(k, v)]) c = find_key ch c.
Proof.
  intro Hne. unfold find_key, Obj.keys, Obj.own. rewrite map_app. cbn [map fst].
  destruct (enumerate_snoc (map fst ch) k) as [a [b [H1 H2]]].
  rewrite H2, H1. apply find_skip.
  destruct (String.eqb_spec (Js.toLowerCase k) (Js.toLowerCase c));
    [contradiction | reflexivity].
Qed.

Lemma find_key_new_match (ch : list (string * list string)) (k : string)
  (v : list string) (c : string) :
  find_key ch c = None ->
  Js.toLowerCase k = Js.toLowerCase c ->
  find_key (ch ++ [(k, v)]) c = Some k.
Proof.
  intros Hnone He. unfold find_key, Obj.keys, Obj.own in *.
  rewrite map_app. cbn [map fst].
  destruct (enumerate_snoc (map fst ch) k) as [a [b [H1 H2]]].
  rewrite H2. rewrite H1 in Hnone. apply find_new; [exact Hnone|].
  apply String.eqb_eq. exact He.
Qed.

(** The key [find_key] gives is the first key equal to the class up to
    case, and it gives none when no key is. *)
Lemma find_key_first (ch : list (string * list string)) (c k : string) :
  find_key ch c = Some k <-> first_key ch c k.
Proof.
  unfold find_key, first_key. rewrite find_first. split.
  - intros [before [after [Hl [Hk Hb]]]]. exists before, after.
    split; [exact Hl|]. split; [apply String.eqb_eq; exact Hk|].
    eapply Forall_impl; [| exact Hb]. intros x Hx He.
    apply String.eqb_eq in He. congruence.
  - intros [before [after [Hl [Hk Hb]]]]. exists before, after.
    split; [exact Hl|]. split; [apply String.eqb_eq; exact Hk|].
    eapply Forall_impl; [| exact Hb]. intros x Hx. cbn in Hx.
    destruct (String.eqb_spec (Js.toLowerCase x) (Js.toLowerCase c));
      [contradiction | reflexivity].
Qed.

Lemma find_key_no_key (ch : list (string * list string)) (c : string) :
  find_key ch c = None <-> no_key ch c.
Proof.
  unfold find_key, no_key. rewrite find_none_all. split; intro H.
  - eapply Forall_impl; [| exact H]. intros x Hx He.
    apply String.eqb_eq in He. cbn in Hx. congruence.
  - eapply Forall_impl; [| exact H]. intros x Hx. cbn in Hx.
    destruct (String.eqb_spec (Js.toLowerCase x) (Js.toLowerCase c));
      [contradiction | reflexivity].
Qed.

(* ----------------------------------------------------------------- *)
(** ** State reconciler: the branches *)

Lemma Forall2_map_r {A B : Type} (R : A -> B -> Prop) (f : A -> B)
  (l : list A) :
  (forall x, In x l -> R x (f x)) -> Forall2 R l (map f l).
Proof.
  induction l as [|a l IH]; intro H; [constructor|].
  cbn [map]. constructor.
  - apply H. left. reflexivity.
  - apply IH. intros x Hx. apply H. right. exact Hx.
Qed.

(** C2 (amended). For a response and the documents of the room, the
    room and the players read from them, the batch commits when the
    backend accepts it, and:
    - when the roll request names the class of a participant (compared
      as written), [activeRoll] becomes the id and name of the first
      such participant with the die (default "d20") and the reason
      (default "Check"), and the choices of every participant become
      null, whatever the choices map of the response;
    - when the response names no roll target and has a choices map,
      no [activeRoll] is left, and every participant with a class label
      gets the entry of the first key equal to the class up to case, or
      the two entries "Look around" and "Wait" without such a key, the
      other participants keeping their choices;
    - when the roll request names a class that no participant has, or
      when there is neither a roll target nor a choices map, neither
      branch is taken: [activeRoll] and all choices stay as they were.
    In each case the scene becomes the one of the response if it has
    one, and nothing else changes in the room document, in the sheets of
    the players, or in the log. *)
Theorem reconciler_branches (s : Store) (gm : GmResponse) :
  let room := db_room s in
  let players := db_players s in
  let ops := batch_ops room players gm in
  let scene :=
    match scene_image_prompt gm with
    | Some sc => if sc =? "" then currentScene room else Some sc
    | None => currentScene room
    end in
  let no_target :=
    roll_request gm = None \/
    exists ask, roll_request gm = Some ask /\
                (targetClassName ask = None \/ targetClassName ask = Some "") in
  (forall ask target before tp after,
      roll_request gm = Some ask ->
      targetClassName ask = Some target -> target <> "" ->
      players = (before ++ tp :: after)%list ->
      characterClass tp = Some target ->
      Forall (fun q => characterClass q <> Some target) before ->
      let die := match ask_diceType ask with
                 | Some d => if d =? "" then "d20" else d
                 | None => "d20"
                 end in
      let why := match ask_reason ask with
                 | Some r => if r =? "" then "Check" else r
                 | None => "Check"
                 end in
      apply_batch ops s
      = Some (mkStore
                (mkGameRoom (room_id room) (hostId room) (gameStatus room)
                   (Some (mkRollRequest (p_id tp) (p_name tp) die why)) scene)
                (map (fun p => mkPlayer (p_id p) (p_name p) (avatar p)
                                 (characterClass p) (stats p) (isReady p) None)
                   players)
                (db_messages s) (db_clock s))) /\
  (forall ch,
      NoDup (map p_id players) ->
      no_target ->
      gm_choices gm = Some ch ->
      exists players',
        apply_batch ops s
        = Some (mkStore
                  (mkGameRoom (room_id room) (hostId room) (gameStatus room)
                     None scene)
                  players' (db_messages s) (db_clock s)) /\
        Forall2
          (fun p p' =>
             sheet p' = sheet p /\
             match characterClass p with
             | Some c =>
                 if c =? "" then choices p' = choices p
                 else
                   (exists k l, first_key ch c k /\ Obj.get k ch = Some l /\
                                choices p' = Some l) \/
                   (no_key ch c /\ choices p' = Some ["Look around"; "Wait"])
             | None => choices p' = choices p
             end)
          players players') /\
  ((exists ask target,
       roll_request gm = Some ask /\ targetClassName ask = Some target /\
       target <> "" /\
       Forall (fun q => characterClass q <> Some target) players) \/
   (no_target /\ gm_choices gm = None) ->
   apply_batch ops s
   = Some (mkStore
             (mkGameRoom (room_id room) (hostId room) (gameStatus room)
                (activeRoll room) scene)
             players (db_messages s) (db_clock s))).
Proof.
  intros room players ops scene no_target.
  destruct (batch_ops_view s gm) as [Hroll Hchoices].
  fold room players ops in Hroll, Hchoices.
  assert (Hscene : forall a,
             mkGameRoom (room_id room) (hostId room) (gameStatus room) a scene
             = mkGameRoom (room_id (with_scene gm room)) (hostId (with_scene gm room))
                 (gameStatus (with_scene gm room)) a
                 (currentScene (with_scene gm room))).
  { intro a. subst scene. unfold with_scene, Js.truthy, Js.or_else.
    destruct (scene_image_prompt gm) as [sc|]; [| reflexivity].
    destruct (sc =? ""); reflexivity. }
  split; [| split].
  - intros ask target before tp after Hask Htarget Hne Hsplit Hclass Hbefore
      die why.
    assert (Hfind : find (is_class target) players = Some tp).
    { apply find_first. exists before, after.
      split; [exact Hsplit|]. split.
      - unfold is_class. rewrite Hclass. apply String.eqb_refl.
      - eapply Forall_impl; [| exact Hbefore]. intros q Hq. cbn in Hq.
        unfold is_class. destruct (characterClass q) as [c|]; [| reflexivity].
        destruct (String.eqb_spec c target); [| reflexivity].
        subst c. contradiction. }
    rewrite (Hroll ask target tp Hask Htarget Hne Hfind).
    rewrite Hscene. subst die why. unfold Js.or_else. reflexivity.
  - intros ch Hnd Hno Hch.
    assert (Htarget : Js.truthy (roll_target gm) = false).
    { unfold roll_target. destruct Hno as [-> | (ask & -> & [-> | ->])];
        reflexivity. }
    exists (map (with_choices ch) players). split.
    + rewrite (Hchoices ch Hnd Htarget Hch). rewrite Hscene. reflexivity.
    + apply Forall2_map_r. intros p Hp. unfold with_choices.
      destruct (characterClass p) as [c|] eqn:Hc; [| split; reflexivity].
      destruct (String.eqb_spec c "") as [He | Hne]; [split; reflexivity|].
      split; [reflexivity|]. cbn [apply_player choices].
      unfold choicesToUpdate.
      destruct (find_key ch c) as [k|] eqn:Hk.
      * pose proof (@find_key_nonempty ch c k Hne Hk) as Hkne.
        destruct (String.eqb_spec k ""); [contradiction|].
        pose proof (proj1 (@find_key_first ch c k) Hk) as Hfirst.
        assert (Hin : In k (Obj.own ch)).
        { apply keys_in. destruct Hfirst as (b & a & Hl & _).
          rewrite Hl. apply in_or_app. right. left. reflexivity. }
        destruct (@get_of_key _ ch k Hin) as [l Hl]. rewrite Hl.
        left. exists k, l. auto.
      * right. split; [apply find_key_no_key; exact Hk | reflexivity].
  - intro Hcase.
    assert (Hops : ops =
              (if Js.truthy (scene_image_prompt gm)
               then [UpdateRoom (SetCurrentScene
                                   (Js.or_else (scene_image_prompt gm) ""))]
               else [])).
    { subst ops. unfold batch_ops.
      destruct Hcase as [(ask & target & Hask & Htarget & Hne & Hnone)
                        | [Hno Hch]].
      - rewrite Hask, Htarget. cbn [Js.truthy Js.or_else].
        destruct (String.eqb_spec target ""); [contradiction|]. cbn [negb].
        unfold roll_ops.
        assert (Hfind : find (is_class target) players = None).
        { apply find_none_all. eapply Forall_impl; [| exact Hnone].
          intros q Hq. cbn in Hq. unfold is_class.
          destruct (characterClass q) as [c|]; [| reflexivity].
          destruct (String.eqb_spec c target); [| reflexivity].
          subst c. contradiction. }
        rewrite Hfind. apply List.app_nil_r.
      - rewrite Hch.
        destruct Hno as [-> | (ask & -> & [-> | ->])];
          cbn [Js.truthy]; apply List.app_nil_r. }
    rewrite Hops. rewrite (Hscene (activeRoll room)).
    unfold with_scene.
    destruct (Js.truthy (scene_image_prompt gm)); cbn [apply_batch apply_op].
    + unfold with_room. cbn [db_players db_messages db_clock db_room apply_room].
      reflexivity.
    + fold room players. destruct s; destruct db_room0; reflexivity.
Qed.

(** *** The padding loop *)

Lemma pad_long (l : list string) : (2 <= List.length l)%nat -> pad l = l.
Proof.
  intro H. unfold pad. replace (2 - List.length l)%nat with 0%nat by lia.
  reflexivity.
Qed.

Lemma pad_one (a : string) : pad [a] = [a; nextDefault [a]].
Proof. reflexivity. Qed.

Lemma nextDefault_one (a : string) :
  nextDefault [a] <> a /\
  firstn 1 (filter (fun d => negb (includes_str [a] d)) defaults)
  = [nextDefault [a]].
Proof.
  unfold nextDefault, defaults, includes_str. cbn [find filter existsb].
  destruct (String.eqb_spec "Observe surroundings" a) as [He | Hne]; cbn.
  - subst a. cbn. split; [discriminate | reflexivity].
  - split; [congruence | reflexivity].
Qed.

(** The loop leaves a list of two or more entries as it is, and fills a
    shorter one up to two entries with the first entries of the pool it
    does not hold, in the order of the pool. *)
Lemma pad_spec (l : list string) :
  pad l = (l ++ firstn (2 - List.length l)
                  (filter (fun d => negb (includes_str l d)) defaults))%list /\
  (2 <= List.length (pad l))%nat /\
  ((List.length l < 2)%nat -> List.length (pad l) = 2%nat) /\
  (NoDup l -> NoDup (pad l)).
Proof.
  destruct l as [|a [|b l]].
  - cbn. repeat split; auto.
    intros _. repeat constructor; cbn; intuition discriminate.
  - destruct (nextDefault_one a) as [Hne Hf].
    rewrite pad_one. cbn [List.length Nat.sub app]. rewrite Hf.
    repeat split; auto.
    intros _. constructor; [| repeat constructor; intros []].
    intros [H | []]. apply Hne. exact H.
  - rewrite pad_long by (cbn; lia).
    replace (2 - List.length (a :: b :: l))%nat with 0%nat by (cbn; lia).
    cbn [firstn]. rewrite List.app_nil_r.
    repeat split; auto; cbn; lia.
Qed.

Lemma pad_idem (l : list string) : pad (pad l) = pad l.
Proof. apply pad_long. apply pad_spec. Qed.

(** *** One player of the repair loop *)

Lemma repair_player_skip (ch : list (string * list string)) (p : Player) :
  Js.truthy (characterClass p) = false -> repair_player ch p = ch.
Proof.
  unfold repair_player. destruct (characterClass p) as [c|]; [| reflexivity].
  cbn. destruct (c =? ""); [reflexivity | discriminate].
Qed.

Lemma repair_player_found (ch : list (string * list string)) (p : Player)
  (pc k : string) :
  characterClass p = Some pc -> pc <> "" -> find_key ch pc = Some k ->
  exists l, Obj.get k ch = Some l /\ repair_player ch p = Obj.define k (pad l) ch.
Proof.
  intros Hc Hpc Hk. unfold repair_player. rewrite Hc.
  destruct (String.eqb_spec pc ""); [contradiction|].
  rewrite Hk. pose proof (@find_key_nonempty ch pc k Hpc Hk) as Hne.
  cbn [Js.truthy Js.or_else].
  destruct (String.eqb_spec k ""); [contradiction|]. cbn [negb].
  destruct (find_key_some _ _ Hk) as [Hin _].
  destruct (get_of_key _ _ Hin) as [l Hl]. rewrite Hl.
  exists l. split; [reflexivity|]. apply set_define. right. exact Hin.
Qed.

Lemma repair_player_created (ch : list (string * list string)) (p : Player)
  (pc : string) :
  characterClass p = Some pc -> pc <> "" -> pc <> "__proto__" ->
  find_key ch pc = None ->
  repair_player ch p = (ch ++ [(pc, pad [])])%list.
Proof.
  intros Hc Hpc Hproto Hk. unfold repair_player. rewrite Hc.
  destruct (String.eqb_spec pc ""); [contradiction|].
  rewrite Hk. cbn [Js.truthy Js.or_else].
  pose proof (find_key_none_absent _ _ Hk) as Habs.
  rewrite (@set_define _ ch pc [] (or_introl Hproto)).
  rewrite (@define_absent _ ch pc [] Habs).
  rewrite get_app_absent by exact Habs. cbn [Obj.get].
  rewrite String.eqb_refl.
  rewrite set_define by (left; exact Hproto).
  apply define_snoc. exact Habs.
Qed.

(** A class [__proto__] without a key: the assignment creates no key,
    and the map stays as it is. *)
Lemma repair_player_proto (ch : list (string * list string)) (p : Player) :
  characterClass p = Some "__proto__" -> find_key ch "__proto__" = None ->
  repair_player ch p = ch.
Proof.
  intros Hc Hk. unfold repair_player. rewrite Hc, Hk.
  cbn [String.eqb Ascii.eqb Bool.eqb Js.truthy Js.or_else].
  pose proof (find_key_none_absent _ _ Hk) as Habs.
  rewrite (set_proto _ _ Habs).
  destruct (Obj.get "__proto__" ch) as [l|] eqn:Hl; [| reflexivity].
  exfalso. apply Habs. exact (get_some_key _ _ Hl).
Qed.

Lemma entry_for_found (ch : list (string * list string)) (c k : string)
  (l : list string) :
  find_key ch c = Some k -> Obj.get k ch = Some l -> entry_for ch c = l.
Proof. unfold entry_for. intros Hk Hl. rewrite Hk, Hl. reflexivity. Qed.

Lemma entry_for_none (ch : list (string * list string)) (c : string) :
  find_key ch c = None -> entry_for ch c = [].
Proof. unfold entry_for. intro Hk. rewrite Hk. reflexivity. Qed.

(** The key of another player is padded in place. *)
Lemma repair_step_found (ch0 ch : list (string * list string))
  (k : string) (l : list string) (c : string) :
  In k (Obj.own ch) -> Obj.get k ch = Some l ->
  let ch' := Obj.define k (pad l) ch in
  (padded_for ch0 ch c -> padded_for ch0 ch' c) /\
  (pristine_for ch0 ch c ->
   (find_key ch c = Some k -> padded_for ch0 ch' c) /\
   (find_key ch c <> Some k -> pristine_for ch0 ch' c)).
Proof.
  intros Hin Hl ch'.
  assert (Hkeys : forall c', find_key ch' c' = find_key ch c').
  { intro c'. apply find_key_same_keys. apply own_define_present. exact Hin. }
  split.
  - intros [kc [Hk [Hget Hk0]]]. exists kc. rewrite Hkeys.
    split; [exact Hk|]. split; [| exact Hk0].
    destruct (String.eqb_spec kc k) as [He | Hne].
    + subst kc. unfold ch'. rewrite get_define_same.
      rewrite Hl in Hget. inversion Hget; subst l. rewrite pad_idem. reflexivity.
    + unfold ch'. rewrite get_define_other by exact Hne. exact Hget.
  - intros [Hk He]. split.
    + intro Hck. exists k. rewrite Hkeys. split; [exact Hck|].
      split.
      * unfold ch'. rewrite get_define_same. rewrite <- He.
        rewrite (@entry_for_found ch c k l Hck Hl). reflexivity.
      * intros k0 Hk0. rewrite Hk0 in Hk. rewrite Hck in Hk.
        inversion Hk. reflexivity.
    + intro Hck. split; [rewrite Hkeys; exact Hk|].
      rewrite <- He. unfold entry_for. rewrite Hkeys.
      destruct (find_key ch c) as [kc|]; [| reflexivity].
      assert (Hne : kc <> k) by congruence.
      unfold ch'. rewrite get_define_other by exact Hne. reflexivity.
Qed.

(** A class without a key gets one, created last. *)
Lemma repair_step_created (ch0 ch : list (string * list string))
  (pc c : string) :
  find_key ch pc = None ->
  let ch' := (ch ++ [(pc, pad [])])%list in
  (padded_for ch0 ch c -> padded_for ch0 ch' c) /\
  (pristine_for ch0 ch c ->
   (Js.toLowerCase pc = Js.toLowerCase c -> padded_for ch0 ch' c) /\
   (Js.toLowerCase pc <> Js.toLowerCase c -> pristine_for ch0 ch' c)).
Proof.
  intros Hpc ch'.
  pose proof (find_key_none_absent _ _ Hpc) as Habs.
  assert (Hother : forall kc, find_key ch c = Some kc ->
                              find_key ch' c = Some kc).
  { intros kc Hk. unfold ch'. rewrite find_key_new_other; [exact Hk|].
    intro He. rewrite (@find_key_case ch pc c He) in Hpc. congruence. }
  split.
  - intros [kc [Hk [Hget Hk0]]]. exists kc.
    split; [exact (Hother kc Hk)|]. split; [| exact Hk0].
    unfold ch'. rewrite get_app_present; [exact Hget|].
    apply (@find_key_some ch c kc Hk).
  - intros [Hk He]. split.
    + intro Hcase.
      assert (Hnone : find_key ch c = None).
      { rewrite <- (@find_key_case ch pc c Hcase). exact Hpc. }
      exists pc. unfold ch'.
      rewrite (@find_key_new_match ch pc (pad []) c Hnone Hcase).
      split; [reflexivity|]. split.
      * rewrite get_app_absent by exact Habs. cbn [Obj.get].
        rewrite String.eqb_refl. rewrite <- He, (@entry_for_none ch c Hnone).
        reflexivity.
      * intros k0 Hk0. rewrite Hk0 in Hk. rewrite Hnone in Hk. discriminate.
    + intro Hcase.
      assert (Hf : find_key ch' c = find_key ch c).
      { unfold ch'. apply find_key_new_other. exact Hcase. }
      split; [rewrite Hf; exact Hk|].
      rewrite <- He. unfold entry_for. rewrite Hf.
      destruct (find_key ch c) as [kc|] eqn:Hkc; [| reflexivity].
      unfold ch'. rewrite get_app_present; [reflexivity|].
      apply (@find_key_some ch c kc Hkc).
Qed.

(** One player of the loop: a padded class stays padded; a class as in
    the reply stays so or becomes padded, and it becomes padded when it
    is the class of the player, up to case, unless the class of the
    player is [__proto__]. *)
Lemma repair_player_step (ch0 ch : list (string * list string)) (p : Player)
  (c : string) :
  (padded_for ch0 ch c -> padded_for ch0 (repair_player ch p) c) /\
  (pristine_for ch0 ch c ->
   padded_for ch0 (repair_player ch p) c \/
   pristine_for ch0 (repair_player ch p) c) /\
  (forall pc, characterClass p = Some pc -> pc <> "" -> pc <> "__proto__" ->
              Js.toLowerCase pc = Js.toLowerCase c ->
              pristine_for ch0 ch c ->
              padded_for ch0 (repair_player ch p) c).
Proof.
  destruct (characterClass p) as [pc|] eqn:Hc.
  2:{ rewrite repair_player_skip by (rewrite Hc; reflexivity).
      split; [auto|]. split; [auto|]. intros pc H. discriminate H. }
  destruct (String.eqb_spec pc "") as [He | Hne].
  { subst pc. rewrite repair_player_skip by (rewrite Hc; reflexivity).
    split; [auto|]. split; [auto|]. intros pc H Hpc. inversion H. congruence. }
  destruct (find_key ch pc) as [k|] eqn:Hk.
  - destruct (@repair_player_found ch p pc k Hc Hne Hk) as [l [Hl Hrep]].
    rewrite Hrep.
    destruct (@find_key_some ch pc k Hk) as [Hin _].
    destruct (@repair_step_found ch0 ch k l c Hin Hl) as [S1 S2].
    split; [exact S1|]. split.
    + intro Hpr. destruct (S2 Hpr) as [T1 T2].
      destruct (find_key ch c) as [kc|] eqn:Hkc.
      * destruct (String.eqb_spec kc k) as [Hek | Hnk].
        -- subst kc. left. apply T1. reflexivity.
        -- right. apply T2. congruence.
      * right. apply T2. discriminate.
    + intros pc' Hpc' _ _ Hcase Hpr. inversion Hpc'; subst pc'.
      destruct (S2 Hpr) as [T1 _]. apply T1.
      rewrite <- (@find_key_case ch pc c Hcase). exact Hk.
  - destruct (String.eqb_spec pc "__proto__") as [Hproto | Hproto].
    + subst pc. rewrite (@repair_player_proto ch p Hc Hk).
      split; [auto|]. split; [auto|].
      intros pc' Hpc' _ Hnp. inversion Hpc'. congruence.
    + rewrite (@repair_player_created ch p pc Hc Hne Hproto Hk).
      destruct (@repair_step_created ch0 ch pc c Hk) as [S1 S2].
      split; [exact S1|]. split.
      * intro Hpr. destruct (S2 Hpr) as [T1 T2].
        destruct (String.eqb_spec (Js.toLowerCase pc) (Js.toLowerCase c)).
        -- left. apply T1. assumption.
        -- right. apply T2. assumption.
      * intros pc' Hpc' _ _ Hcase Hpr. inversion Hpc'; subst pc'.
        destruct (S2 Hpr) as [T1 _]. apply T1. exact Hcase.
Qed.

(** The whole loop. *)
Lemma repair_fold (ch0 : list (string * list string)) (players : list Player)
  (c : string) :
  forall ch,
    (padded_for ch0 ch c ->
     padded_for ch0 (fold_left repair_player players ch) c) /\
    (pristine_for ch0 ch c ->
     forall p pc, In p players -> characterClass p = Some pc -> pc <> "" ->
                  pc <> "__proto__" ->
                  Js.toLowerCase pc = Js.toLowerCase c ->
                  padded_for ch0 (fold_left repair_player players ch) c).
Proof.
  induction players as [|q players IH]; intro ch.
  - split; [auto | intros _ p pc []].
  - cbn [fold_left].
    destruct (repair_player_step ch0 ch q c) as [S1 [S2 S3]].
    destruct (IH (repair_player ch q)) as [I1 I2].
    split.
    + intro H. apply I1. apply S1. exact H.
    + intros Hpr p pc [Hp | Hp] Hc Hne Hnp Hcase.
      * subst q. apply I1. apply (S3 pc Hc Hne Hnp Hcase Hpr).
      * destruct (S2 Hpr) as [Hpad | Hpr'].
        -- apply I1. exact Hpad.
        -- apply (I2 Hpr' p pc Hp Hc Hne Hnp Hcase).
Qed.

Lemma pad_filled (l : list string) : pad l = filled l.
Proof.
  destruct (pad_spec l) as [H _]. rewrite H. reflexivity.
Qed.

(** C5 (amended). After a parse of a reply without roll request, for
    every participant with a class label other than [__proto__], the
    repaired choices map has a key equal to the class up to case, the
    first such key in the order of [Object.keys]: the first such key of
    the reply when the reply has one, and a key created by the repair
    otherwise. That key holds the list of the reply (the empty list
    when the key is created), filled up to two entries: a list of two
    or more entries is kept as it is, a shorter one gets the first
    entries of the pool "Observe surroundings", "Ready weapon",
    "Discuss with party", "Search area" that it does not hold, up to
    exactly two entries, distinct when the entries of the reply were.
    For the raw content [blah {"narrative":"x","choices":{"Fighter":["a"]}} blah]
    and a participant whose class is Fighter up to case, the narrative
    is "x" and the key "Fighter" holds ["a"; "Observe surroundings"]. *)
Theorem repair_pads_every_class (players : list Player) (p : Player)
  (c : string) :
  In p players -> characterClass p = Some c -> c <> "" -> c <> "__proto__" ->
  (forall gm, roll_request gm = None ->
     let ch0 := match gm_choices gm with Some ch => ch | None => [] end in
     exists ch k l0,
       gm_choices (repair players gm) = Some ch /\
       first_key ch c k /\
       (first_key ch0 c k /\ Obj.get k ch0 = Some l0 \/
        no_key ch0 c /\ l0 = []) /\
       Obj.get k ch
       = Some (l0 ++ firstn (2 - List.length l0)
                       (filter (fun d => negb (existsb (String.eqb d) l0))
                          ["Observe surroundings"; "Ready weapon";
                           "Discuss with party"; "Search area"]))%list /\
       (2 <= List.length (filled l0))%nat /\
       ((List.length l0 < 2)%nat -> List.length (filled l0) = 2%nat) /\
       (NoDup l0 -> NoDup (filled l0))) /\
  (Js.toLowerCase c = Js.toLowerCase "Fighter" ->
   exists gm ch,
     outcome_of_content Cases.raw_wrapped = Some (Reply gm) /\
     narrative (repair players gm) = Some "x" /\
     gm_choices (repair players gm) = Some ch /\
     Obj.get "Fighter" ch = Some ["a"; "Observe surroundings"]).
Proof.
  intros Hin Hc Hne Hproto.
  assert (Hgen : forall gm, roll_request gm = None ->
            exists ch k,
              gm_choices (repair players gm) = Some ch /\
              padded_for (match gm_choices gm with Some ch => ch | None => [] end)
                ch c /\
              find_key ch c = Some k /\
              Obj.get k ch
              = Some (pad (entry_for
                             (match gm_choices gm with Some ch => ch | None => [] end)
                             c)) /\
              (forall k0,
                  find_key (match gm_choices gm with Some ch => ch | None => [] end) c
                  = Some k0 -> k = k0)).
  { intros gm Hroll. unfold repair. rewrite Hroll. cbn [gm_choices].
    set (ch0 := match gm_choices gm with Some ch => ch | None => [] end).
    destruct (repair_fold ch0 players c ch0) as [_ Hfold].
    pose proof (Hfold (conj eq_refl eq_refl) p c Hin Hc Hne Hproto eq_refl) as Hpad.
    destruct Hpad as [k [Hk [Hget Hk0]]].
    exists (fold_left repair_player players ch0), k.
    split; [reflexivity|]. split; [exists k; auto | auto]. }
  split.
  - intros gm Hroll ch0.
    destruct (Hgen gm Hroll) as [ch [k [Hch [_ [Hk [Hget Hk0]]]]]].
    fold ch0 in Hget, Hk0.
    exists ch, k, (entry_for ch0 c).
    split; [exact Hch|]. split; [apply find_key_first; exact Hk|].
    split.
    + destruct (find_key ch0 c) as [k0|] eqn:Hk0'.
      * left. rewrite (Hk0 k0 eq_refl).
        split; [apply find_key_first; exact Hk0'|].
        destruct (find_key_some _ _ Hk0') as [Hin0 _].
        destruct (get_of_key _ _ Hin0) as [l Hl].
        rewrite (@entry_for_found ch0 c k0 l Hk0' Hl). exact Hl.
      * right. split; [apply find_key_no_key; exact Hk0'|].
        apply entry_for_none. exact Hk0'.
    + rewrite <- pad_filled.
      destruct (pad_spec (entry_for ch0 c)) as [P1 [P2 [P3 P4]]].
      split; [rewrite Hget; f_equal; exact P1|]. auto.
  - intro Hcase.
    set (gm := mkGmResponse (Some "x") None None (Some [("Fighter", ["a"])])).
    destruct (Hgen gm eq_refl) as [ch [k [Hch [_ [Hk [Hget Hk0]]]]]].
    exists gm, ch. split; [reflexivity|]. split; [reflexivity|].
    split; [exact Hch|].
    assert (Hf : find_key [("Fighter", ["a"])] c = Some "Fighter").
    { unfold find_key.
      change (Obj.keys [("Fighter", ["a"])]) with ["Fighter"].
      cbn [find]. rewrite Hcase, String.eqb_refl. reflexivity. }
    cbn [gm gm_choices] in Hk0, Hget.
    rewrite <- (Hk0 _ Hf).
    rewrite Hget. unfold entry_for. rewrite Hf. reflexivity.
Qed.

(* ----------------------------------------------------------------- *)
(** ** Response parsing *)

Lemma from_first_app (c : ascii) (pre rest : string) :
  Regex.occurs c pre = false ->
  Regex.from_first c (pre ++ String c rest) = Some (String c rest).
Proof.
  induction pre as [|a pre IH]; cbn [Regex.occurs String.append Regex.from_first].
  - intros _. rewrite Ascii.eqb_refl. reflexivity.
  - destruct (Ascii.eqb a c); [discriminate | exact IH].
Qed.

Lemma from_first_some (c : ascii) (s t : string) :
  Regex.from_first c s = Some t ->
  exists pre rest, s = pre ++ String c rest /\ t = String c rest /\
                   Regex.occurs c pre = false.
Proof.
  revert t. induction s as [|a s IH]; intros t H; [discriminate|].
  cbn [Regex.from_first] in H.
  destruct (Ascii.eqb_spec a c) as [He | Hne].
  - inversion H; subst. exists "", s. auto.
  - destruct (IH t H) as [pre [rest [Hs [Ht Hocc]]]].
    exists (String a pre), rest. subst s. cbn [Regex.occurs].
    destruct (Ascii.eqb_spec a c); [contradiction | auto].
Qed.

Lemma from_first_none (c : ascii) (s : string) :
  Regex.from_first c s = None -> Regex.occurs c s = false.
Proof.
  induction s as [|a s IH]; [reflexivity|].
  cbn [Regex.from_first Regex.occurs].
  destruct (Ascii.eqb a c); [discriminate | exact IH].
Qed.

Lemma upto_last_none (c : ascii) (s : string) :
  Regex.upto_last c s = None <-> Regex.occurs c s = false.
Proof.
  induction s as [|a s IH]; cbn [Regex.upto_last Regex.occurs].
  - split; reflexivity.
  - destruct (Regex.upto_last c s) as [t|].
    + split; [discriminate|].
      destruct (Ascii.eqb a c); [discriminate|].
      intro H. apply IH in H. discriminate.
    + destruct (Ascii.eqb a c); [split; discriminate|].
      split; [intros _; apply IH; reflexivity | reflexivity].
Qed.

Lemma upto_last_app (c : ascii) (s post : string) :
  Regex.occurs c post = false ->
  Regex.upto_last c (s ++ String c post) = Some (s ++ String c "").
Proof.
  intro Hpost. induction s as [|a s IH]; cbn [String.append Regex.upto_last].
  - apply upto_last_none in Hpost. rewrite Hpost, Ascii.eqb_refl. reflexivity.
  - rewrite IH. reflexivity.
Qed.

Lemma upto_last_some (c : ascii) (s t : string) :
  Regex.upto_last c s = Some t ->
  exists body post, t = body ++ String c "" /\ s = body ++ String c post /\
                    Regex.occurs c post = false.
Proof.
  revert t. induction s as [|a s IH]; intros t H; [discriminate|].
  cbn [Regex.upto_last] in H.
  destruct (Regex.upto_last c s) as [t'|] eqn:Hs.
  - inversion H; subst t.
    destruct (IH t' eq_refl) as [body [post [Ht [Hs' Hocc]]]].
    exists (String a body), post. subst. auto.
  - destruct (Ascii.eqb_spec a c) as [He | Hne]; [| discriminate].
    inversion H; subst. exists "", s. split; [reflexivity|].
    split; [reflexivity | apply upto_last_none; exact Hs].
Qed.

(** C6 (amended). [parse_reply] first parses the whole text; when that
    fails it takes the text from the first opening brace to the last
    closing brace after it and parses that; it raises an error when
    there is no such text (no opening brace, or no closing brace after
    the first one) or when that text does not parse, and in no other
    case. *)
Theorem parse_reply_algorithm (raw : string) :
  (forall pre body post,
      raw = pre ++ String "{" (body ++ String "}" post) ->
      Regex.occurs "{" pre = false -> Regex.occurs "}" post = false ->
      Regex.match_braces raw = Some (String "{" (body ++ "}"))) /\
  (Regex.match_braces raw = None ->
   Regex.occurs "{" raw = false \/
   exists pre rest, raw = pre ++ String "{" rest /\
                    Regex.occurs "{" pre = false /\
                    Regex.occurs "}" rest = false) /\
  (forall j, JSON.parse raw = Some j -> parse_reply raw = ParsedOk j) /\
  (JSON.parse raw = None ->
   forall span, Regex.match_braces raw = Some span ->
     parse_reply raw = match JSON.parse span with
                       | Some j => ParsedOk j
                       | None => ParseError "Unrecoverable JSON error"
                       end) /\
  (JSON.parse raw = None -> Regex.match_braces raw = None ->
   parse_reply raw = ParseError "No JSON object found in response") /\
  (forall m, parse_reply raw = ParseError m ->
     JSON.parse raw = None /\
     forall span, Regex.match_braces raw = Some span -> JSON.parse span = None).
Proof.
  split; [| split; [| split; [| split; [| split]]]].
  - intros pre body post Hraw Hpre Hpost. subst raw.
    unfold Regex.match_braces. rewrite (@from_first_app "{" pre _ Hpre).
    apply (@upto_last_app "}" (String "{" body) post Hpost).
  - unfold Regex.match_braces. intro H.
    destruct (Regex.from_first "{" raw) as [s|] eqn:Hf.
    + right. destruct (@from_first_some "{" raw s Hf) as [pre [rest [Hraw [Hs Hocc]]]].
      exists pre, rest. split; [exact Hraw|]. split; [exact Hocc|].
      subst s. apply upto_last_none in H. cbn [Regex.occurs] in H. exact H.
    + left. apply from_first_none. exact Hf.
  - intros j Hj. unfold parse_reply. rewrite Hj. reflexivity.
  - intros Hraw span Hspan. unfold parse_reply. rewrite Hraw, Hspan. reflexivity.
  - intros Hraw Hnone. unfold parse_reply. rewrite Hraw, Hnone. reflexivity.
  - intros m. unfold parse_reply.
    destruct (JSON.parse raw) as [j|]; [discriminate|].
    intro H. split; [reflexivity|]. intros span Hspan. rewrite Hspan in H.
    destruct (JSON.parse span); [discriminate | reflexivity].
Qed.


(* ----------------------------------------------------------------- *)
(** ** The roll invariant *)

(** *** The writes of the players are quiet *)

Lemma Quiet_ret {A} (a : A) : Quiet (ret a).
Proof. intro w. apply quiet_refl. Qed.

Lemma Quiet_bind {A B} (m : M A) (k : A -> M B) :
  Quiet m -> (forall a, Quiet (k a)) -> Quiet (bind m k).
Proof.
  intros Hm Hk w. unfold bind. specialize (Hm w).
  destruct (m w) as [[a|e] w1]; cbn [snd] in *.
  - eapply quiet_trans; [exact Hm | apply Hk].
  - exact Hm.
Qed.

Lemma Quiet_get_state : Quiet get_state.
Proof. intro w. apply quiet_refl. Qed.

Lemma Quiet_await_write (effect : string -> Store -> option Store) :
  (forall docId s s', effect docId s = Some s' -> quiet s s') ->
  Quiet (await_write effect).
Proof.
  intros H w. unfold await_write.
  destruct (replies w) as [|[|docId] rest]; try apply quiet_refl.
  destruct (effect docId (store w)) as [s'|] eqn:He; cbn [snd store].
  - apply (H docId). exact He.
  - apply quiet_refl.
Qed.

Lemma Quiet_addDoc (d : MessageData) : Quiet (addDoc d).
Proof.
  apply Quiet_await_write. intros docId s s' H. inversion H. apply quiet_message.
Qed.

Lemma Quiet_clear_choices (pid : string) :
  Quiet (updateDoc_player pid (SetChoices None)).
Proof.
  apply Quiet_await_write. intros _ s s' H. cbn [apply_op] in H.
  destruct (has_player pid (db_players s)); inversion H. apply quiet_clear.
Qed.

Lemma Quiet_set_ready (pid : string) (b : bool) :
  Quiet (updateDoc_player pid (SetIsReady b)).
Proof.
  apply Quiet_await_write. intros _ s s' H. cbn [apply_op] in H.
  destruct (has_player pid (db_players s)); inversion H. apply quiet_ready.
Qed.

Lemma Quiet_delete_roll : Quiet (updateDoc_room DeleteActiveRoll).
Proof.
  apply Quiet_await_write. intros _ s s' H. inversion H. apply quiet_roll_deleted.
Qed.

Lemma Quiet_set_status (g : GameStatus) : Quiet (updateDoc_room (SetGameStatus g)).
Proof.
  apply Quiet_await_write. intros _ s s' H. inversion H. apply quiet_status.
Qed.

Lemma Quiet_setDoc (p : Player) : choices p = None -> Quiet (setDoc_player p).
Proof.
  intro Hp. apply Quiet_await_write. intros _ s s' H. inversion H.
  apply quiet_put. exact Hp.
Qed.

Ltac quiet_steps :=
  repeat first
    [ apply Quiet_ret | apply Quiet_get_state | apply Quiet_addDoc
    | apply Quiet_clear_choices | apply Quiet_set_ready
    | apply Quiet_delete_roll | apply Quiet_set_status
    | apply Quiet_setDoc; reflexivity
    | apply Quiet_bind; [| intro]
    | match goal with |- Quiet (match ?x with _ => _ end) => destruct x end
    | match goal with |- Quiet (if ?x then _ else _) => destruct x end ].

Lemma Quiet_sendMessage (prompt : string) (isAction : bool) :
  Quiet (sendMessage prompt isAction).
Proof. unfold sendMessage. quiet_steps. Qed.

Lemma Quiet_performRoll (rnd : Q) (rollReq : RollRequest) :
  Quiet (performRoll rnd rollReq).
Proof. unfold performRoll. quiet_steps. Qed.

Lemma Quiet_setReadyState (ready : bool) : Quiet (setReadyState ready).
Proof. unfold setReadyState. quiet_steps. Qed.

Lemma Quiet_createCharacter (charData : CharData) (scores : list (string * Z)) :
  Quiet (createCharacter charData scores).
Proof. unfold createCharacter. quiet_steps. Qed.

Lemma Quiet_startGame_write : Quiet startGame_write.
Proof. unfold startGame_write. quiet_steps. Qed.

(** *** Quiet writes keep the invariant *)



Lemma no_choices_cleared (q : Player) :
  no_choices (apply_player (SetChoices None) q).
Proof. exact I. Qed.




(** *** What a turn leaves in the documents *)


(** The three shapes of a batch: the roll branch, no branch, the
    choices branch, each after the scene update if there is one. *)
Lemma batch_ops_cases (room : GameRoom) (players : list Player)
  (gm : GmResponse) :
  let scene :=
    if Js.truthy (scene_image_prompt gm)
    then [UpdateRoom (SetCurrentScene (Js.or_else (scene_image_prompt gm) ""))]
    else [] in
  (exists r, batch_ops room players gm
             = (scene ++ UpdateRoom (SetActiveRoll r) :: map clear_op players)%list) \/
  batch_ops room players gm = (scene ++ [])%list \/
  (exists ch, batch_ops room players gm
              = (scene ++
                 (match activeRoll room with
                  | Some _ => [UpdateRoom DeleteActiveRoll]
                  | None => []
                  end) ++ flat_map (choice_op ch) players)%list).
Proof.
  cbv zeta. unfold batch_ops.
  assert (Hch : forall tail,
             tail = match gm_choices gm with
                    | Some ch => choices_ops room players ch
                    | None => []
                    end ->
             tail = [] \/
             exists ch, tail = ((match activeRoll room with
                                 | Some _ => [UpdateRoom DeleteActiveRoll]
                                 | None => []
                                 end) ++ flat_map (choice_op ch) players)%list).
  { intros tail Ht. destruct (gm_choices gm) as [ch|]; [right; exists ch | left];
      exact Ht. }
  destruct (roll_request gm) as [ask|].
  - destruct (Js.truthy (targetClassName ask)).
    + unfold roll_ops.
      destruct (find (is_class (Js.or_else (targetClassName ask) "")) players)
        as [tp|].
      * left. eexists. reflexivity.
      * right. left. reflexivity.
    + destruct (Hch _ eq_refl) as [H | [ch H]]; rewrite H.
      * right. left. reflexivity.
      * right. right. exists ch. reflexivity.
  - destruct (Hch _ eq_refl) as [H | [ch H]]; rewrite H.
    + right. left. reflexivity.
    + right. right. exists ch. reflexivity.
Qed.

(* ----------------------------------------------------------------- *)
(** ** State reconciler: what commits together *)

Lemma update_player_ids (pid : string) (u : PlayerUpdate) (ps : list Player) :
  map p_id (update_player pid u ps) = map p_id ps.
Proof.
  unfold update_player. rewrite map_map. apply map_ext. intro p.
  destruct (p_id p =? pid); [apply apply_player_id | reflexivity].
Qed.

(** An update that is applied shows. *)
Lemma shown_after_op (op : BatchOp) (s s1 : Store) :
  apply_op op s = Some s1 -> shown op s1.
Proof.
  destruct op as [u | pid u]; cbn [apply_op].
  - intro H. inversion H; subst s1. destruct u; reflexivity.
  - destruct (has_player pid (db_players s)) eqn:Hhas; [| discriminate].
    intro H. inversion H; subst s1. cbn [shown with_players db_players].
    split.
    + rewrite update_player_ids. apply has_player_In. exact Hhas.
    + intros q Hq Hid. unfold update_player in Hq. apply in_map_iff in Hq.
      destruct Hq as [q0 [Hq0 _]].
      destruct (String.eqb_spec (p_id q0) pid) as [He | Hne].
      * subst q. destruct u; reflexivity.
      * subst q. contradiction.
Qed.

(** An update that shows still does after another update, unless that
    one writes another value to the same field. *)
Lemma shown_kept (op op' : BatchOp) (s s1 : Store) :
  shown op s -> apply_op op' s = Some s1 ->
  (same_target op op' = true -> op = op') ->
  shown op s1.
Proof.
  intros Hs Hop Hsame.
  destruct (same_target op op') eqn:Ht.
  - rewrite (Hsame eq_refl). apply (@shown_after_op _ _ _ Hop).
  - clear Hsame. destruct op' as [u' | pid' u']; cbn [apply_op] in Hop.
    + inversion Hop; subst s1. destruct op as [u | pid u].
      * cbn [shown with_room db_room] in *.
        destruct u, u'; cbn in Ht |- *; try discriminate; exact Hs.
      * exact Hs.
    + destruct (has_player pid' (db_players s)) eqn:Hhas; [| discriminate].
      inversion Hop; subst s1. destruct op as [u | pid u]; [exact Hs|].
      cbn [shown with_players db_players] in *.
      destruct Hs as [Hin Hall]. split.
      * rewrite update_player_ids. exact Hin.
      * intros q Hq Hid. unfold update_player in Hq. apply in_map_iff in Hq.
        destruct Hq as [q0 [Hq0 Hin0]].
        destruct (String.eqb_spec (p_id q0) pid') as [He | Hne].
        -- subst q. rewrite apply_player_id in Hid.
           specialize (Hall q0 Hin0 Hid).
           assert (Hpid : (pid =? pid') = true)
             by (apply String.eqb_eq; congruence).
           cbn [same_target] in Ht. rewrite Hpid in Ht. cbn [andb] in Ht.
           destruct u, u'; try discriminate; exact Hall.
        -- subst q. apply Hall; assumption.
Qed.

Lemma shown_kept_batch (op : BatchOp) (ops : list BatchOp) :
  forall s s',
    shown op s -> apply_batch ops s = Some s' ->
    (forall op', In op' ops -> same_target op op' = true -> op = op') ->
    shown op s'.
Proof.
  induction ops as [|op1 ops IH]; intros s s' Hs Hb Hsame.
  - inversion Hb; subst. exact Hs.
  - cbn [apply_batch] in Hb.
    destruct (apply_op op1 s) as [s1|] eqn:Hop; [| discriminate].
    apply (IH s1 s').
    + apply (@shown_kept _ _ _ _ Hs Hop). apply Hsame. left. reflexivity.
    + exact Hb.
    + intros op' Hin. apply Hsame. right. exact Hin.
Qed.

(** A batch whose updates write each field once leaves all of them
    shown when it commits. *)
Lemma apply_batch_all (ops : list BatchOp) :
  forall s s',
    (forall op op', In op ops -> In op' ops ->
                    same_target op op' = true -> op = op') ->
    apply_batch ops s = Some s' -> all_applied ops s'.
Proof.
  induction ops as [|op1 ops IH]; intros s s' Hcons Hb; [constructor|].
  cbn [apply_batch] in Hb.
  destruct (apply_op op1 s) as [s1|] eqn:Hop; [| discriminate].
  constructor.
  - apply (@shown_kept_batch op1 ops s1 s').
    + apply (@shown_after_op _ _ _ Hop).
    + exact Hb.
    + intros op' Hin. apply Hcons; [left; reflexivity | right; exact Hin].
  - apply (IH s1 s'); [| exact Hb].
    intros a b Ha Hb'. apply Hcons; right; assumption.
Qed.

Lemma NoDup_map_inj {A B : Type} (f : A -> B) (l : list A) (x y : A) :
  NoDup (map f l) -> In x l -> In y l -> f x = f y -> x = y.
Proof.
  induction l as [|a l IH]; intros Hnd Hx Hy Hf; [destruct Hx|].
  cbn [map] in Hnd. inversion Hnd as [|? ? Hna Hl]; subst.
  destruct Hx as [-> | Hx], Hy as [-> | Hy].
  - reflexivity.
  - exfalso. apply Hna. rewrite Hf. apply in_map. exact Hy.
  - exfalso. apply Hna. rewrite <- Hf. apply in_map. exact Hx.
  - apply IH; assumption.
Qed.

(** The batch of a turn writes each field once, the players it read
    having distinct ids. *)
Lemma batch_ops_once (room : GameRoom) (players : list Player)
  (gm : GmResponse) :
  NoDup (map p_id players) ->
  forall op op', In op (batch_ops room players gm) ->
                 In op' (batch_ops room players gm) ->
                 same_target op op' = true -> op = op'.
Proof.
  intros Hnd op op' Hop Hop' Hsame.
  assert (Hscene : forall o,
             In o (if Js.truthy (scene_image_prompt gm)
                   then [UpdateRoom (SetCurrentScene
                                       (Js.or_else (scene_image_prompt gm) ""))]
                   else []) ->
             o = UpdateRoom (SetCurrentScene
                               (Js.or_else (scene_image_prompt gm) ""))).
  { intros o Ho. destruct (Js.truthy (scene_image_prompt gm)); [| destruct Ho].
    destruct Ho as [Ho | []]. symmetry. exact Ho. }
  destruct (batch_ops_cases room players gm) as [[r Hops] | [Hops | [ch Hops]]];
    rewrite Hops in Hop, Hop'; clear Hops.
  - apply in_app_or in Hop. apply in_app_or in Hop'.
    destruct Hop as [Hop | [Hop | Hop]], Hop' as [Hop' | [Hop' | Hop']];
      try (apply Hscene in Hop); try (apply Hscene in Hop');
      try (apply in_map_iff in Hop; destruct Hop as [p [Hp _]]);
      try (apply in_map_iff in Hop'; destruct Hop' as [p' [Hp' _]]);
      subst; try reflexivity; try discriminate Hsame.
    unfold clear_op in *. cbn [same_target] in Hsame.
    rewrite Bool.andb_true_r in Hsame. apply String.eqb_eq in Hsame.
    rewrite Hsame. reflexivity.
  - rewrite List.app_nil_r in Hop, Hop'.
    apply Hscene in Hop. apply Hscene in Hop'. congruence.
  - assert (Hdel : forall o,
               In o (match activeRoll room with
                     | Some _ => [UpdateRoom DeleteActiveRoll]
                     | None => []
                     end) -> o = UpdateRoom DeleteActiveRoll).
    { intros o Ho. destruct (activeRoll room); [| destruct Ho].
      destruct Ho as [Ho | []]. symmetry. exact Ho. }
    apply in_app_or in Hop. apply in_app_or in Hop'.
    destruct Hop as [Hop | Hop], Hop' as [Hop' | Hop'];
      try (apply Hscene in Hop); try (apply Hscene in Hop');
      try (apply in_app_or in Hop; destruct Hop as [Hop | Hop];
           [apply Hdel in Hop
           | apply choice_ops_target in Hop;
             destruct Hop as (p & c & Hp & Hc & Hne & Hop)]);
      try (apply in_app_or in Hop'; destruct Hop' as [Hop' | Hop'];
           [apply Hdel in Hop'
           | apply choice_ops_target in Hop';
             destruct Hop' as (p' & c' & Hp' & Hc' & Hne' & Hop')]);
      subst; try reflexivity; try discriminate Hsame.
    cbn [same_target] in Hsame. rewrite Bool.andb_true_r in Hsame.
    apply String.eqb_eq in Hsame.
    assert (Heq : p = p') by (apply (@NoDup_map_inj _ _ p_id players); assumption).
    subst p'. rewrite Hc in Hc'. inversion Hc'; subst. reflexivity.
Qed.

Lemma repair_narrative (players : list Player) (gm : GmResponse) :
  narrative (repair players gm) = narrative gm.
Proof. unfold repair. destruct (roll_request gm); reflexivity. Qed.

(** What [commit] comes to, by the answer of the backend. *)
Lemma commit_cases (ops : list BatchOp) (s : Store) (g : GameState)
  (rs : list WriteReply) :
  (fst (commit ops (mkWorld s g rs)) = Returned tt /\
   apply_batch ops s = Some (store (snd (commit ops (mkWorld s g rs))))) \/
  (fst (commit ops (mkWorld s g rs)) = Threw FirestoreError /\
   store (snd (commit ops (mkWorld s g rs))) = s).
Proof.
  unfold commit. destruct ops as [|op ops'].
  - left. split; reflexivity.
  - unfold await_write. cbn [replies store state].
    destruct rs as [|[|docId] rest].
    + right. split; reflexivity.
    + right. split; reflexivity.
    + destruct (apply_batch (op :: ops') s) as [s1|] eqn:Hb.
      * left. split; reflexivity.
      * right. split; reflexivity.
Qed.

Lemma apply_batch_ids (ops : list BatchOp) (s s' : Store) :
  apply_batch ops s = Some s' ->
  map p_id (db_players s') = map p_id (db_players s) /\
  db_messages s' = db_messages s.
Proof.
  intro H. apply apply_batch_view in H. subst s'.
  cbn [db_players db_messages]. split; [| reflexivity].
  rewrite map_map. apply map_ext. intro p.
  unfold player_after. revert p.
  induction ops as [|op ops IH]; intro p; [reflexivity|].
  cbn [fold_left]. rewrite IH. destruct op as [u | pid u]; [reflexivity|].
  destruct (p_id p =? pid); [apply apply_player_id | reflexivity].
Qed.

(** The batch of a turn, committed on documents whose room and players
    are those of [s]. *)
Lemma commit_part (room : GameRoom) (players : list Player) (gm : GmResponse)
  (s b : Store) (g : GameState) (rs0 : list WriteReply) :
  NoDup (map p_id players) ->
  db_room b = db_room s -> db_players b = db_players s ->
  let ops := batch_ops room players gm in
  let c := commit ops (mkWorld b g rs0) in
  (none_applied s (store (snd c)) \/ all_applied ops (store (snd c))) /\
  (fst c = Returned tt -> all_applied ops (store (snd c))) /\
  (fst c <> Returned tt -> none_applied s (store (snd c))) /\
  ((forall p, In p players -> In (p_id p) (map p_id (db_players s))) ->
   (exists x rest, rs0 = Accepted x :: rest) -> fst c = Returned tt) /\
  map p_id (db_players (store (snd c))) = map p_id (db_players s) /\
  db_messages (store (snd c)) = db_messages b.
Proof.
  intros Hnd Hroom Hpl ops c.
  pose proof (@batch_ops_once room players gm Hnd) as Honce. fold ops in Honce.
  assert (Hret : (forall p, In p players -> In (p_id p) (map p_id (db_players s))) ->
                 (exists x rest, rs0 = Accepted x :: rest) -> fst c = Returned tt).
  { intros Hdocs (x & rest & ->). subst c. unfold commit.
    destruct ops as [|op ops'] eqn:Hops; [reflexivity|].
    unfold await_write. cbn [replies store state].
    rewrite apply_batch_commits; [reflexivity|].
    intros pid u Hin. apply has_player_In. rewrite Hpl.
    assert (Hin' : In (UpdatePlayer pid u) ops) by (rewrite Hops; exact Hin).
    clear Hin. subst ops.
    destruct (batch_ops_cases room players gm)
      as [[r0 Hc] | [Hc | [ch Hc]]]; rewrite Hc in Hin'.
    - apply in_app_or in Hin'. destruct Hin' as [Hin' | [Hin' | Hin']].
      + destruct (Js.truthy (scene_image_prompt gm)); [| destruct Hin'].
        destruct Hin' as [Hin' | []]. discriminate Hin'.
      + discriminate Hin'.
      + apply in_map_iff in Hin'. destruct Hin' as [p [Hp Hin']].
        inversion Hp; subst. apply Hdocs. exact Hin'.
    - rewrite List.app_nil_r in Hin'.
      destruct (Js.truthy (scene_image_prompt gm)); [| destruct Hin'].
      destruct Hin' as [Hin' | []]. discriminate Hin'.
    - apply in_app_or in Hin'. destruct Hin' as [Hin' | Hin'].
      + destruct (Js.truthy (scene_image_prompt gm)); [| destruct Hin'].
        destruct Hin' as [Hin' | []]. discriminate Hin'.
      + apply in_app_or in Hin'. destruct Hin' as [Hin' | Hin'].
        * destruct (activeRoll room); [| destruct Hin'].
          destruct Hin' as [Hin' | []]. discriminate Hin'.
        * apply choice_ops_target in Hin'.
          destruct Hin' as (p & c0 & Hp & _ & _ & Hop).
          inversion Hop; subst. apply Hdocs. exact Hp. }
  destruct (commit_cases ops b g rs0) as [[Hr Hb] | [Hr Hb]]; fold c in Hr, Hb.
  - pose proof (@apply_batch_all _ _ _ Honce Hb) as Hall.
    destruct (@apply_batch_ids _ _ _ Hb) as [Hids Hmsg].
    split; [right; exact Hall|].
    split; [intros _; exact Hall|].
    split; [intro Hno; rewrite Hr in Hno; contradiction|].
    split; [exact Hret|].
    split; [rewrite Hids, Hpl; reflexivity | exact Hmsg].
  - assert (Hnone : none_applied s (store (snd c))).
    { rewrite Hb. split; assumption. }
    split; [left; exact Hnone|].
    split; [intro Hx; rewrite Hr in Hx; discriminate Hx|].
    split; [intros _; exact Hnone|].
    split; [exact Hret|].
    split; [rewrite Hb, Hpl; reflexivity | rewrite Hb; reflexivity].
Qed.

Lemma reconcile_run (room : GameRoom) (players : list Player)
  (gm : GmResponse) (s : Store) (g : GameState) (rs : list WriteReply) :
  let ops := batch_ops room players (repair players gm) in
  reconcile room players gm (mkWorld s g rs)
  = match narrative gm with
    | Some n =>
        if n =? "" then commit ops (mkWorld s g rs)
        else match rs with
             | Accepted docId :: rest =>
                 commit ops
                   (mkWorld
                      (append_message docId
                         (mkMessageData assistant n (Some "GM") None) s)
                      g rest)
             | Rejected :: rest => (Threw FirestoreError, mkWorld s g rest)
             | [] => (Threw FirestoreError, mkWorld s g [])
             end
    | None => commit ops (mkWorld s g rs)
    end.
Proof.
  intro ops. unfold reconcile. fold ops. rewrite repair_narrative. unfold bind.
  destruct (narrative gm) as [n|]; [| reflexivity].
  destruct (n =? ""); [reflexivity|].
  unfold addDoc, await_write. cbn [replies store state].
  destruct rs as [|[|docId] rest]; reflexivity.
Qed.

(** C1 (amended). The reconciler writes the narrative message on its
    own, before the batch: when the backend accepts that write the
    message, of role assistant and sent by GM, is in the log whatever
    becomes of the batch, and when it rejects it the reconciliation
    ends there. The updates of the room and of the players (scene,
    active roll, choices) are one batch: afterwards every update of the
    batch shows in the documents, or the room document and the player
    documents are what they were; every update shows when the
    reconciliation returns normally, which it does when the backend
    accepts the writes and the players the turn read have their
    documents, and none does when it throws. The batch adds no message
    and no player. *)
Theorem batch_commits_atomically (room : GameRoom) (players : list Player)
  (gm : GmResponse) (s : Store) (g : GameState) (rs : list WriteReply) :
  NoDup (map p_id players) ->
  let ops := batch_ops room players (repair players gm) in
  let r := reconcile room players gm (mkWorld s g rs) in
  let s' := store (snd r) in
  (forall n docId rest,
      narrative gm = Some n -> n <> "" -> rs = Accepted docId :: rest ->
      db_messages s'
      = (db_messages s ++
           [mkChatMessage docId assistant n (Some "GM") None (db_clock s)])%list) /\
  (forall n,
      narrative gm = Some n -> n <> "" ->
      rs = [] \/ (exists rest, rs = Rejected :: rest) ->
      fst r = Threw FirestoreError /\ s' = s) /\
  (narrative gm = None \/ narrative gm = Some "" ->
   db_messages s' = db_messages s) /\
  (none_applied s s' \/ all_applied ops s') /\
  (fst r = Returned tt -> all_applied ops s') /\
  (fst r <> Returned tt -> none_applied s s') /\
  ((forall p, In p players -> In (p_id p) (map p_id (db_players s))) ->
   (exists a b rest, rs = Accepted a :: Accepted b :: rest) ->
   fst r = Returned tt) /\
  map p_id (db_players s') = map p_id (db_players s).
Proof.
  intros Hnd ops r s'. subst s' r.
  rewrite reconcile_run. fold ops.
  pose proof (fun b rs0 => @commit_part room players (repair players gm) s b g rs0 Hnd)
    as Hpart.
  cbv zeta in Hpart. fold ops in Hpart.
  destruct (narrative gm) as [n|] eqn:Hn.
  - destruct (String.eqb_spec n "") as [He | Hne].
    + subst n.
      destruct (Hpart s rs eq_refl eq_refl) as (H1 & H2 & H3 & H4 & H5 & H6).
      split; [intros n0 docId rest Hn0 Hne0; inversion Hn0; subst; contradiction|].
      split; [intros n0 Hn0 Hne0; inversion Hn0; subst; contradiction|].
      split; [intros _; exact H6|].
      split; [exact H1|]. split; [exact H2|]. split; [exact H3|].
      split; [| exact H5].
      intros Hdocs (a & b & rest & ->). apply H4; [exact Hdocs|].
      exists a, (Accepted b :: rest). reflexivity.
    + destruct rs as [|[|docId] rest].
      * cbn [fst snd store].
        split; [intros n0 docId rest Hn0 Hne0 Hrs; discriminate Hrs|].
        split; [intros; split; reflexivity|].
        split; [intros [Hx | Hx]; [discriminate | inversion Hx; contradiction]|].
        split; [left; split; reflexivity|].
        split; [intro Hx; discriminate Hx|].
        split; [intros _; split; reflexivity|].
        split; [| reflexivity].
        intros _ (a & b & rest & Hrs). discriminate Hrs.
      * cbn [fst snd store].
        split; [intros n0 docId rest0 Hn0 Hne0 Hrs; discriminate Hrs|].
        split; [intros; split; reflexivity|].
        split; [intros [Hx | Hx]; [discriminate | inversion Hx; contradiction]|].
        split; [left; split; reflexivity|].
        split; [intro Hx; discriminate Hx|].
        split; [intros _; split; reflexivity|].
        split; [| reflexivity].
        intros _ (a & b & rest0 & Hrs). discriminate Hrs.
      * destruct (Hpart (append_message docId
                           (mkMessageData assistant n (Some "GM") None) s)
                    rest eq_refl eq_refl) as (H1 & H2 & H3 & H4 & H5 & H6).
        split.
        { intros n0 d0 rest0 Hn0 Hne0 Hrs. inversion Hn0; inversion Hrs; subst.
          rewrite H6. reflexivity. }
        split; [intros n0 Hn0 Hne0 [Hx | [rest0 Hx]]; discriminate Hx|].
        split; [intros [Hx | Hx]; [discriminate | inversion Hx; contradiction]|].
        split; [exact H1|]. split; [exact H2|]. split; [exact H3|].
        split; [| exact H5].
        intros Hdocs (a & b & rest0 & Hrs). inversion Hrs; subst.
        apply H4; [exact Hdocs|]. exists b, rest0. reflexivity.
  - destruct (Hpart s rs eq_refl eq_refl) as (H1 & H2 & H3 & H4 & H5 & H6).
    split; [intros n0 docId rest Hn0; discriminate Hn0|].
    split; [intros n0 Hn0; discriminate Hn0|].
    split; [intros _; exact H6|].
    split; [exact H1|]. split; [exact H2|]. split; [exact H3|].
    split; [| exact H5].
    intros Hdocs (a & b & rest & ->). apply H4; [exact Hdocs|].
    exists a, (Accepted b :: rest). reflexivity.
Qed.

(* ----------------------------------------------------------------- *)
(** ** The roll and the choices *)




(** *** Every step keeps the invariant when turns do not overlap *)






(* ================================================================= *)
(** * Further properties of the store *)

(* ----------------------------------------------------------------- *)
(** ** The trigger guard along a run *)

Lemma trigger_guard_iff (g : GameState) (x : ChatMessage) :
  trigger_guard g x = true <->
  role x = user /\ isAction x = Some true /\
  (exists room, gs_room g = Some room /\ activeRoll room = None /\
                gs_playerId g = Some (hostId room)) /\
  isAiThinking g = false /\
  lastHandledMessageId g <> Some (m_id x).
Proof.
  unfold trigger_guard, is_user, is_action, opt_eqb. split.
  - intro H.
    apply andb_prop in H. destruct H as [H Hmemo].
    apply andb_prop in H. destruct H as [H Hthink].
    apply andb_prop in H. destruct H as [H Hroom].
    apply andb_prop in H. destruct H as [Hrole Hact].
    split; [destruct (role x); (reflexivity || discriminate)|].
    split; [destruct (isAction x) as [[|]|]; (reflexivity || discriminate)|].
    split; [| split].
    + destruct (gs_room g) as [room|]; [| discriminate].
      exists room. split; [reflexivity|].
      apply andb_prop in Hroom. destruct Hroom as [Hroll Hhost].
      split; [destruct (activeRoll room); (reflexivity || discriminate)|].
      destruct (gs_playerId g) as [pid|]; [| discriminate].
      apply String.eqb_eq in Hhost. congruence.
    + destruct (isAiThinking g); (reflexivity || discriminate).
    + destruct (lastHandledMessageId g) as [m|]; [| discriminate].
      intro He. inversion He; subst m. rewrite String.eqb_refl in Hmemo.
      discriminate.
  - intros [Hrole [Hact [[room [Hroom [Hroll Hhost]]] [Hthink Hmemo]]]].
    rewrite Hrole, Hact, Hroom, Hroll, Hhost, Hthink, String.eqb_refl.
    cbn [andb negb].
    destruct (lastHandledMessageId g) as [m|]; [| reflexivity].
    destruct (String.eqb_spec (m_id x) m); [| reflexivity].
    exfalso. apply Hmemo. congruence.
Qed.







Lemma fired_without_messages (es : list StoreEvent) :
  forall g, (forall e, In e es -> forall msgs, e <> MessagesSnapshot msgs) ->
            fired es g = [].
Proof.
  induction es as [|e es IH]; intros g H; [reflexivity|].
  cbn [fired].
  destruct (@on_event_memo e g (H e (or_introl eq_refl))) as [Hf _].
  destruct (on_event e g) as [o g']. cbn [fst] in Hf. subst o.
  apply IH. intros e' He'. apply H. right. exact He'.
Qed.

(* ----------------------------------------------------------------- *)
(** ** From the actions of a player to the guard of the host *)

Lemma updateDoc_player_log (pid : string) (u : PlayerUpdate) (w : World) :
  db_messages (store (snd (updateDoc_player pid u w))) = db_messages (store w) /\
  db_room (store (snd (updateDoc_player pid u w))) = db_room (store w).
Proof.
  unfold updateDoc_player, await_write, apply_op.
  destruct (replies w) as [|[|docId] rest]; cbn; try (split; reflexivity).
  destruct (has_player pid (db_players (store w))); cbn; split; reflexivity.
Qed.

Lemma truthy_trim (prompt : string) :
  Js.trim prompt <> "" -> Js.truthy (Some (Js.trim prompt)) = true.
Proof.
  intro H. cbn. destruct (String.eqb_spec (Js.trim prompt) "");
    [contradiction | reflexivity].
Qed.

(** The message [sendMessage] leaves in the log once its first write is
    accepted, whatever becomes of the second. *)
Lemma sendMessage_log (prompt : string) (isAction : bool) (w : World)
  (room : GameRoom) (docId : string) (rs : list WriteReply) :
  gs_room (state w) = Some room ->
  Js.truthy (gs_playerId (state w)) = true ->
  Js.trim prompt <> "" ->
  replies w = Accepted docId :: rs ->
  exists name,
    db_messages (store (snd (sendMessage prompt isAction w)))
    = (db_messages (store w)
         ++ [mkChatMessage docId user prompt (Some name) (Some isAction)
               (db_clock (store w))])%list.
Proof.
  intros Hroom Hpid Hprompt Hrs.
  exists (Js.or_else
            (option_map p_name
               (find_player (Js.or_else (gs_playerId (state w)) "")
                  (gs_players (state w)))) "Player").
  unfold sendMessage, bind, get_state.
  rewrite Hroom, Hpid, (truthy_trim _ Hprompt). cbn [negb].
  unfold addDoc at 1. unfold await_write at 1. rewrite Hrs.
  destruct isAction.
  - match goal with
    | |- context [updateDoc_player ?p ?u ?w0] =>
        destruct (updateDoc_player_log p u w0) as [Hlog _];
        destruct (updateDoc_player p u w0) as [r w1]
    end.
    cbn [snd] in *. rewrite Hlog. reflexivity.
  - reflexivity.
Qed.

(** X3. Once the backend has accepted the message of [sendMessage], the
    log it leaves starts a turn at a host that is idle (it holds the
    room without a pending roll, no turn of its own is under way, and
    the message is not the one it handled last) exactly when the
    message was sent as an action: plain talk never starts a turn. *)
Theorem action_reaches_idle_host (prompt : string) (action : bool)
  (w : World) (room : GameRoom) (docId : string) (rs : list WriteReply)
  (h : GameState) (r : GameRoom) :
  gs_room (state w) = Some room ->
  Js.truthy (gs_playerId (state w)) = true ->
  ~ blank prompt ->
  replies w = Accepted docId :: rs ->
  gs_room h = Some r -> activeRoll r = None ->
  gs_playerId h = Some (hostId r) ->
  isAiThinking h = false ->
  lastHandledMessageId h <> Some docId ->
  fst (on_messages (db_messages (store (snd (sendMessage prompt action w)))) h)
  = if action then Some docId else None.
Proof.
  intros Hroom Hpid Hblank Hrs Hr Hroll Hhost Hth Hmemo.
  assert (Hprompt : Js.trim prompt <> "")
    by (intro H; apply Hblank; apply trim_blank; exact H).
  destruct (@sendMessage_log prompt action w room docId rs Hroom Hpid Hprompt Hrs)
    as [name Hlog].
  rewrite Hlog. unfold on_messages. rewrite last_message_app.
  destruct (trigger_guard _ _) eqn:Hg.
  - apply trigger_guard_iff in Hg. destruct Hg as [_ [Hact _]].
    cbn [isAction] in Hact. inversion Hact. reflexivity.
  - destruct action; [| reflexivity].
    exfalso.
    assert (Ht : trigger_guard
                   (put_chatHistory
                      (db_messages (store w)
                         ++ [mkChatMessage docId user prompt (Some name)
                               (Some true) (db_clock (store w))]) h)
                   (mkChatMessage docId user prompt (Some name) (Some true)
                      (db_clock (store w))) = true).
    { apply trigger_guard_iff. cbn.
      split; [reflexivity|]. split; [reflexivity|].
      split; [exists r; auto | auto]. }
    congruence.
Qed.

Lemma performRoll_accepted (rnd : Q) (rollReq : RollRequest) (w : World)
  (room : GameRoom) (docId docId' : string) (rs : list WriteReply) :
  gs_room (state w) = Some room ->
  Js.truthy (gs_playerId (state w)) = true ->
  replies w = Accepted docId :: Accepted docId' :: rs ->
  performRoll rnd rollReq w
  = (Returned tt,
     mkWorld
       (mkStore (apply_room DeleteActiveRoll (db_room (store w)))
          (db_players (store w))
          (db_messages (store w) ++
             [mkChatMessage docId user
                (roll_content rollReq
                   (dice_result rnd (dice_max (diceType rollReq))))
                (Some "System") (Some true) (db_clock (store w))])
          (S (db_clock (store w))))
       (state w) rs).
Proof.
  intros Hroom Hpid Hrs.
  unfold performRoll, bind, get_state. rewrite Hroom, Hpid. cbn [negb].
  unfold addDoc, updateDoc_room, await_write. rewrite Hrs. reflexivity.
Qed.

(** The message of a roll is in the log once the first write of
    [performRoll] is accepted. *)
Lemma performRoll_log (rnd : Q) (rollReq : RollRequest) (w : World)
  (room : GameRoom) (docId : string) (rs : list WriteReply) :
  gs_room (state w) = Some room ->
  Js.truthy (gs_playerId (state w)) = true ->
  replies w = Accepted docId :: rs ->
  db_messages (store (snd (performRoll rnd rollReq w)))
  = (db_messages (store w) ++
       [mkChatMessage docId user
          (roll_content rollReq (dice_result rnd (dice_max (diceType rollReq))))
          (Some "System") (Some true) (db_clock (store w))])%list.
Proof.
  intros Hroom Hpid Hrs.
  unfold performRoll, bind, get_state. rewrite Hroom, Hpid. cbn [negb].
  unfold addDoc, updateDoc_room, await_write. rewrite Hrs.
  cbn [replies store state].
  destruct rs as [|[|docId'] rest]; reflexivity.
Qed.

(** X4. The turn that resolves a roll depends on the order in which the
    two writes of [performRoll] reach the host. When the snapshot of
    the log arrives while the host still holds the room with the roll
    pending, no turn starts, and the snapshot of the room that follows,
    or any later event that is not a snapshot of the log, starts none
    either; when the snapshot of the room arrives first, the snapshot
    of the log starts the turn for the message of the roll. *)
Theorem roll_turn_needs_the_room_first (rnd : Q) (rollReq : RollRequest)
  (w : World) (room : GameRoom) (docId docId' : string)
  (rs : list WriteReply) (h : GameState) (r : GameRoom)
  (pending : RollRequest) (es : list StoreEvent) :
  gs_room (state w) = Some room ->
  Js.truthy (gs_playerId (state w)) = true ->
  replies w = Accepted docId :: Accepted docId' :: rs ->
  gs_room h = Some r -> activeRoll r = Some pending ->
  gs_playerId h = Some (hostId (db_room (store w))) ->
  isAiThinking h = false ->
  lastHandledMessageId h <> Some docId ->
  (forall e, In e es -> forall msgs, e <> MessagesSnapshot msgs) ->
  let s' := store (snd (performRoll rnd rollReq w)) in
  fired (MessagesSnapshot (db_messages s') :: RoomSnapshot (db_room s') :: es) h
  = [] /\
  fired (RoomSnapshot (db_room s') :: MessagesSnapshot (db_messages s') :: es) h
  = [docId].
Proof.
  intros Hroom Hpid Hrs Hr Hpending Hhost Hth Hmemo Hes s'.
  subst s'. rewrite (@performRoll_accepted rnd rollReq w room docId docId' rs
                       Hroom Hpid Hrs).
  cbn [snd store db_messages db_room].
  set (x := mkChatMessage docId user _ (Some "System") (Some true) _).
  split.
  - cbn [fired on_event]. unfold on_messages. rewrite last_message_app.
    destruct (trigger_guard _ x) eqn:Hg.
    + apply trigger_guard_iff in Hg.
      destruct Hg as [_ [_ [[room' [Hroom' [Hroll' _]]] _]]].
      cbn [put_chatHistory gs_room] in Hroom'. congruence.
    + apply fired_without_messages. exact Hes.
  - cbn [fired on_event]. unfold on_messages. rewrite last_message_app.
    destruct (trigger_guard _ x) eqn:Hg.
    + f_equal. apply fired_without_messages. exact Hes.
    + exfalso.
      match type of Hg with
      | trigger_guard ?g0 x = false =>
          assert (Ht : trigger_guard g0 x = true)
      end.
      { apply trigger_guard_iff. cbn.
        split; [reflexivity|]. split; [reflexivity|].
        split; [| auto].
        eexists. split; [reflexivity|]. split; [reflexivity | exact Hhost]. }
      congruence.
Qed.

(* ----------------------------------------------------------------- *)
(** ** The request of a turn *)

Lemma filter_notices (notices : list ChatMessage) :
  Forall (fun m => role m = system) notices ->
  filter Ollama.replayed notices = [].
Proof.
  induction 1 as [|m l Hm _ IH]; [reflexivity|].
  cbn [filter]. unfold Ollama.replayed at 1. rewrite Hm. exact IH.
Qed.

(** X5. The messages of role system in the log (the notice of a join,
    the notice of a failed turn) never reach the narration service: the
    request built from a log is the request built from the log without
    them. *)
Theorem notices_do_not_reach_the_service (players : list Player)
  (before notices after : list ChatMessage) :
  Forall (fun m => role m = system) notices ->
  Ollama.request players (before ++ notices ++ after)
  = Ollama.request players (before ++ after).
Proof.
  intro H. unfold Ollama.request, Ollama.ollamaMessages.
  rewrite !filter_app, (filter_notices H). reflexivity.
Qed.

(** The instruction that closes the request of a log that ends with a
    user message. *)
Lemma instruction_of_last_message (players : list Player)
  (prev : list ChatMessage) (m : ChatMessage) :
  role m = user ->
  List.last (Ollama.messages (Ollama.request players (prev ++ [m])))
    Ollama.opening
  = Ollama.mkMessage system
      (if Ollama.includes (content m) "[Dice Roll]"
       then Ollama.resolve_instruction
       else Ollama.generic_instruction (Ollama.playerClasses players)).
Proof.
  intro Hrole. unfold Ollama.request. cbn [Ollama.messages].
  change (?a :: ?l ++ [?b])%list with ((a :: l) ++ [b])%list.
  rewrite last_last. f_equal.
  unfold Ollama.ollamaMessages.
  rewrite filter_app. cbn [filter]. unfold Ollama.replayed at 2.
  rewrite Hrole, map_app. cbn [map].
  set (ms := map _ (filter Ollama.replayed prev)).
  assert (Hms : match (ms ++ [Ollama.mkMessage (role m) (content m)])%list with
                | [] => [Ollama.opening]
                | a :: l => a :: l
                end = (ms ++ [Ollama.mkMessage (role m) (content m)])%list).
  { destruct ms; reflexivity. }
  rewrite Hms. unfold Ollama.instructionContent, Ollama.lastUserMessage.
  rewrite map_app. cbn [map]. rewrite last_last.
  unfold Ollama.marks_roll. cbn [Ollama.o_role Ollama.o_content].
  rewrite Hrole. reflexivity.
Qed.

(** X6. For a caller with a room and a bound identity whose message
    the backend accepts: the request built from the log [performRoll]
    leaves ends with the instruction to resolve the roll; the request
    built from the log [sendMessage] leaves, for a prompt that is not
    blank, ends with the general instruction, unless the prompt itself
    holds the text [[Dice Roll]], in which case it ends with the
    instruction to resolve a roll as well. *)
Theorem roll_selects_the_resolve_instruction (players : list Player)
  (w : World) (room : GameRoom) (docId : string) (rs : list WriteReply) :
  gs_room (state w) = Some room ->
  Js.truthy (gs_playerId (state w)) = true ->
  replies w = Accepted docId :: rs ->
  (forall rnd rollReq,
      List.last
        (Ollama.messages
           (Ollama.request players
              (db_messages (store (snd (performRoll rnd rollReq w))))))
        Ollama.opening
      = Ollama.mkMessage system Ollama.resolve_instruction) /\
  (forall prompt action,
      ~ blank prompt ->
      List.last
        (Ollama.messages
           (Ollama.request players
              (db_messages (store (snd (sendMessage prompt action w))))))
        Ollama.opening
      = Ollama.mkMessage system
          (if Ollama.includes prompt "[Dice Roll]"
           then Ollama.resolve_instruction
           else Ollama.generic_instruction (Ollama.playerClasses players))).
Proof.
  intros Hroom Hpid Hrs. split.
  - intros rnd rollReq.
    rewrite (@performRoll_log rnd rollReq w room docId rs Hroom Hpid Hrs).
    rewrite instruction_of_last_message by reflexivity.
    reflexivity.
  - intros prompt action Hblank.
    assert (Hprompt : Js.trim prompt <> "")
      by (intro H; apply Hblank; apply trim_blank; exact H).
    destruct (@sendMessage_log prompt action w room docId rs Hroom Hpid Hprompt Hrs)
      as [name Hlog].
    rewrite Hlog. rewrite instruction_of_last_message by reflexivity.
    reflexivity.
Qed.

(* ----------------------------------------------------------------- *)
(** ** What the writes keep *)

Section WritesFacts.

Variable R : Store -> Store -> Prop.
Hypothesis R_refl : forall s, R s s.
Hypothesis R_trans : forall a b c, R a b -> R b c -> R a c.

Lemma Writes_ret {A} (a : A) : Writes R (ret a).
Proof. intro w. apply R_refl. Qed.

Lemma Writes_throw {A} (e : JsError) : Writes R (@throw A e).
Proof. intro w. apply R_refl. Qed.

Lemma Writes_get_state : Writes R get_state.
Proof. intro w. apply R_refl. Qed.

Lemma Writes_set_state (f : GameState -> GameState) : Writes R (set_state f).
Proof. intro w. apply R_refl. Qed.

Lemma Writes_local {A} (f : GameState -> A * GameState) : Writes R (local f).
Proof.
  intro w. unfold local. destruct (f (state w)) as [a g]. apply R_refl.
Qed.

Lemma Writes_bind {A B} (m : M A) (k : A -> M B) :
  Writes R m -> (forall a, Writes R (k a)) -> Writes R (bind m k).
Proof.
  intros Hm Hk w. unfold bind. specialize (Hm w).
  destruct (m w) as [[a|e] w1]; cbn [snd] in *.
  - eapply R_trans; [exact Hm | apply Hk].
  - exact Hm.
Qed.

Lemma Writes_await_write (effect : string -> Store -> option Store) :
  (forall docId s s', effect docId s = Some s' -> R s s') ->
  Writes R (await_write effect).
Proof.
  intros H w. unfold await_write.
  destruct (replies w) as [|[|docId] rest]; try apply R_refl.
  destruct (effect docId (store w)) as [s'|] eqn:He; cbn [snd store].
  - apply (H docId). exact He.
  - apply R_refl.
Qed.

Lemma Writes_try {A} (body : M A) (handler : JsError -> M A) (fin : M unit) :
  Writes R body -> (forall e, Writes R (handler e)) -> Writes R fin ->
  Writes R (try_catch_finally body handler fin).
Proof.
  intros Hb Hh Hf w. unfold try_catch_finally.
  specialize (Hb w). destruct (body w) as [[a|e] w1]; cbn [snd] in Hb.
  - specialize (Hf w1). destruct (fin w1) as [[u|e] w3]; cbn [snd] in *;
      eapply R_trans; eassumption.
  - specialize (Hh e w1). destruct (handler e w1) as [r2 w2]. cbn [snd] in Hh.
    specialize (Hf w2). destruct (fin w2) as [[u|e'] w3]; cbn [snd] in *;
      (eapply R_trans; [exact Hb |]; eapply R_trans; eassumption).
Qed.

Lemma Writes_commit (ops : list BatchOp) :
  (forall s s', apply_batch ops s = Some s' -> R s s') ->
  Writes R (commit ops).
Proof.
  intro H. destruct ops as [|op ops]; [apply Writes_ret|].
  apply Writes_await_write. intros _ s s'. apply H.
Qed.

End WritesFacts.

Lemma narrated_refl (s : Store) : narrated s s.
Proof.
  unfold narrated. repeat (split; [reflexivity|]).
  exists []. split; [symmetry; apply List.app_nil_r | constructor].
Qed.

Lemma narrated_trans (a b c : Store) : narrated a b -> narrated b c -> narrated a c.
Proof.
  intros [P1 [I1 [H1 [S1 [l1 [M1 F1]]]]]] [P2 [I2 [H2 [S2 [l2 [M2 F2]]]]]].
  unfold narrated.
  split; [congruence|]. split; [congruence|]. split; [congruence|].
  split; [congruence|].
  exists (l1 ++ l2)%list. split.
  - rewrite M2, M1. symmetry. apply List.app_assoc.
  - apply Forall_app. split; assumption.
Qed.

Lemma steady_refl (s : Store) : steady s s.
Proof.
  unfold steady. split; [reflexivity|]. split; [reflexivity|].
  split; [auto|]. exists []. symmetry. apply List.app_nil_r.
Qed.

Lemma steady_trans (a b c : Store) : steady a b -> steady b c -> steady a c.
Proof.
  intros [I1 [H1 [S1 [l1 M1]]]] [I2 [H2 [S2 [l2 M2]]]].
  unfold steady.
  split; [congruence|]. split; [congruence|]. split; [auto|].
  exists (l1 ++ l2)%list. rewrite M2, M1. symmetry. apply List.app_assoc.
Qed.

Lemma narrated_steady (s s' : Store) : narrated s s' -> steady s s'.
Proof.
  intros [_ [I [H [S [l [M _]]]]]]. unfold steady.
  split; [exact I|]. split; [exact H|]. split; [congruence|].
  exists l. exact M.
Qed.

Lemma sheet_update (pid : string) (c : option (list string)) (ps : list Player) :
  map sheet (update_player pid (SetChoices c) ps) = map sheet ps.
Proof.
  unfold update_player. rewrite map_map. apply map_ext. intro p.
  destruct (p_id p =? pid); reflexivity.
Qed.

Lemma apply_op_narrated (op : BatchOp) (s s' : Store) :
  gentle op = true -> apply_op op s = Some s' -> narrated s s'.
Proof.
  intros Hg H. destruct op as [u | pid u]; cbn [apply_op] in H.
  - inversion H; subst s'. unfold narrated.
    cbn [with_room db_players db_room db_messages].
    split; [reflexivity|].
    split; [destruct u; reflexivity|]. split; [destruct u; reflexivity|].
    split; [destruct u; (reflexivity || discriminate Hg)|].
    exists []. split; [symmetry; apply List.app_nil_r | constructor].
  - destruct (has_player pid (db_players s)); [| discriminate].
    inversion H; subst s'. destruct u as [c | b]; [| discriminate Hg].
    unfold narrated. cbn [with_players db_players db_room db_messages].
    split; [apply sheet_update|]. repeat (split; [reflexivity|]).
    exists []. split; [symmetry; apply List.app_nil_r | constructor].
Qed.

Lemma apply_batch_narrated (ops : list BatchOp) :
  Forall (fun op => gentle op = true) ops ->
  forall s s', apply_batch ops s = Some s' -> narrated s s'.
Proof.
  induction 1 as [|op ops Hop _ IH]; intros s s' H.
  - inversion H. apply narrated_refl.
  - cbn [apply_batch] in H. destruct (apply_op op s) as [s1|] eqn:E; [| discriminate].
    eapply narrated_trans; [exact (apply_op_narrated _ _ Hop E) | exact (IH _ _ H)].
Qed.

Lemma batch_ops_gentle (room : GameRoom) (players : list Player)
  (gm : GmResponse) :
  Forall (fun op => gentle op = true) (batch_ops room players gm).
Proof.
  assert (Hch : Forall (fun op => gentle op = true)
                  match gm_choices gm with
                  | Some ch => choices_ops room players ch
                  | None => []
                  end).
  { destruct (gm_choices gm) as [ch|]; [| constructor].
    unfold choices_ops. apply Forall_app. split.
    - destruct (activeRoll room); repeat constructor.
    - apply Forall_forall. intros op Hin. apply choice_ops_target in Hin.
      destruct Hin as [p [c [_ [_ [_ Hop]]]]]. subst op. reflexivity. }
  unfold batch_ops. apply Forall_app. split.
  - destruct (Js.truthy (scene_image_prompt gm)); repeat constructor.
  - destruct (roll_request gm) as [ask|]; [| exact Hch].
    destruct (Js.truthy (targetClassName ask)); [| exact Hch].
    unfold roll_ops. destruct (find _ players) as [tp|]; [| constructor].
    constructor; [reflexivity|].
    apply Forall_forall. intros op Hin. apply in_map_iff in Hin.
    destruct Hin as [p [Hp _]]. subst op. reflexivity.
Qed.

Lemma Writes_narrated_addDoc (d : MessageData) :
  d_role d <> user -> Writes narrated (addDoc d).
Proof.
  intro Hd. apply Writes_await_write; [apply narrated_refl|].
  intros docId s s' H. inversion H. unfold narrated, append_message.
  cbn [db_players db_room db_messages].
  repeat (split; [reflexivity|]).
  eexists. split; [reflexivity|]. constructor; [exact Hd | constructor].
Qed.

Lemma Writes_narrated_resume (room : GameRoom) (players : list Player)
  (outcome : LlmOutcome) :
  Writes narrated (resume_turn room players outcome).
Proof.
  unfold resume_turn.
  apply Writes_try; try apply narrated_refl; try apply narrated_trans.
  - destruct outcome as [| m | | gm].
    + apply Writes_throw. apply narrated_refl.
    + apply Writes_throw. apply narrated_refl.
    + apply Writes_throw. apply narrated_refl.
    + unfold reconcile.
      apply Writes_bind; [apply narrated_trans | |].
      * destruct (narrative (repair players gm)) as [n|];
          [| apply Writes_ret; apply narrated_refl].
        destruct (n =? ""); [apply Writes_ret; apply narrated_refl|].
        apply Writes_narrated_addDoc. discriminate.
      * intros _. apply Writes_commit; [apply narrated_refl|].
        apply apply_batch_narrated. apply batch_ops_gentle.
  - intros _. apply Writes_narrated_addDoc. discriminate.
  - apply Writes_set_state. apply narrated_refl.
Qed.

Lemma Writes_narrated_turn (currentChatHistory : list ChatMessage)
  (service : Ollama.Request -> LlmOutcome) :
  Writes narrated (_triggerGmResponse_call currentChatHistory service).
Proof.
  unfold _triggerGmResponse_call.
  apply Writes_bind; [apply narrated_trans | |].
  - unfold begin_turn. apply Writes_local. apply narrated_refl.
  - intros [[room players]|].
    + apply Writes_narrated_resume.
    + apply Writes_ret. apply narrated_refl.
Qed.

(** X9. Whatever the call of the narration service comes to within the
    embedding (a failure of the call, a content that does not parse, a
    value that is no object, a reply of the announced shape) and
    whatever the backend does with the writes, a turn leaves the
    members of the party and
    their sheets (id, name, avatar, class, scores, ready flag) as they
    were, in the same order, and the id, the host and the status of the
    room; it removes and alters no message, and the messages it adds
    are none of role user. *)
Theorem turn_is_narrated (currentChatHistory : list ChatMessage)
  (service : Ollama.Request -> LlmOutcome) (w : World) :
  narrated (store w)
    (store (snd (_triggerGmResponse_call currentChatHistory service w))).
Proof. apply Writes_narrated_turn. Qed.

(* ----------------------------------------------------------------- *)
(** ** What every step of the room keeps *)

Lemma apply_op_steady (op : BatchOp) (s s' : Store) :
  op <> UpdateRoom (SetGameStatus lobby) ->
  apply_op op s = Some s' -> steady s s'.
Proof.
  intros Hop H. destruct op as [u | pid u]; cbn [apply_op] in H.
  - inversion H; subst s'. unfold steady.
    cbn [with_room db_room db_messages].
    split; [destruct u; reflexivity|]. split; [destruct u; reflexivity|].
    split.
    + destruct u as [sc | a | | g]; cbn; auto.
      destruct g; [contradiction Hop; reflexivity | reflexivity].
    + exists []. symmetry. apply List.app_nil_r.
  - destruct (has_player pid (db_players s)); [| discriminate].
    inversion H; subst s'. unfold steady.
    cbn [with_players db_room db_messages].
    split; [reflexivity|]. split; [reflexivity|]. split; [auto|].
    exists []. symmetry. apply List.app_nil_r.
Qed.

Lemma Writes_steady_addDoc (d : MessageData) : Writes steady (addDoc d).
Proof.
  apply Writes_await_write; [apply steady_refl|].
  intros docId s s' H. inversion H. unfold steady, append_message.
  cbn [db_room db_messages].
  split; [reflexivity|]. split; [reflexivity|]. split; [auto|].
  eexists. reflexivity.
Qed.

Lemma Writes_steady_player (pid : string) (u : PlayerUpdate) :
  Writes steady (updateDoc_player pid u).
Proof.
  apply Writes_await_write; [apply steady_refl|].
  intros _ s s'. apply apply_op_steady. discriminate.
Qed.

Lemma Writes_steady_delete_roll : Writes steady (updateDoc_room DeleteActiveRoll).
Proof.
  apply Writes_await_write; [apply steady_refl|].
  intros _ s s'. apply apply_op_steady. discriminate.
Qed.

Lemma Writes_steady_playing :
  Writes steady (updateDoc_room (SetGameStatus playing)).
Proof.
  apply Writes_await_write; [apply steady_refl|].
  intros _ s s'. apply apply_op_steady. discriminate.
Qed.

Lemma Writes_steady_setDoc (p : Player) : Writes steady (setDoc_player p).
Proof.
  apply Writes_await_write; [apply steady_refl|].
  intros _ s s' H. inversion H. unfold steady.
  cbn [with_players db_room db_messages].
  split; [reflexivity|]. split; [reflexivity|]. split; [auto|].
  exists []. symmetry. apply List.app_nil_r.
Qed.

Ltac steady_steps :=
  repeat first
    [ apply Writes_ret; apply steady_refl
    | apply Writes_get_state; apply steady_refl
    | apply Writes_steady_addDoc
    | apply Writes_steady_player
    | apply Writes_steady_delete_roll
    | apply Writes_steady_playing
    | apply Writes_steady_setDoc
    | apply Writes_bind; [apply steady_trans | | intro]
    | match goal with |- Writes steady (match ?x with _ => _ end) => destruct x end
    | match goal with |- Writes steady (if ?x then _ else _) => destruct x end ].

Lemma step_steady (overlap lag : bool) (s s' : Sys) :
  step overlap lag s s' -> steady (sys_store s) (sys_store s').
Proof.
  intro H.
  destruct H as [s Hov | s before room players after outcome g rs Hturns
                 | s prompt action g rs | s rnd rollReq g rs | s ready g rs
                 | s charData scores g rs | s g rs];
    cbn [sys_store].
  - apply steady_refl.
  - apply narrated_steady.
    apply (@Writes_narrated_resume room players outcome (client (sys_store s) g rs)).
  - assert (Hw : Writes steady (sendMessage prompt action))
      by (unfold sendMessage; steady_steps).
    apply (Hw (client (sys_store s) g rs)).
  - assert (Hw : Writes steady (performRoll rnd rollReq))
      by (unfold performRoll; steady_steps).
    apply (Hw (client (sys_store s) g rs)).
  - assert (Hw : Writes steady (setReadyState ready))
      by (unfold setReadyState; steady_steps).
    apply (Hw (client (sys_store s) g rs)).
  - assert (Hw : Writes steady (createCharacter charData scores))
      by (unfold createCharacter; steady_steps).
    apply (Hw (client (sys_store s) g rs)).
  - assert (Hw : Writes steady startGame_write)
      by (unfold startGame_write; steady_steps).
    apply (Hw (client (sys_store s) g rs)).
Qed.

Lemma run_steady (overlap lag : bool) (s s' : Sys) :
  run overlap lag s s' -> steady (sys_store s) (sys_store s').
Proof.
  induction 1 as [s | s s' s'' _ IH Hstep].
  - apply steady_refl.
  - eapply steady_trans; [exact IH | exact (step_steady Hstep)].
Qed.

(** X10. The log is append-only along every run of the room, turns
    overlapping or not and starting from a current copy of the
    documents or from a lagging one: the messages of an earlier state
    are the first
    messages of every later state, unchanged and in the same order. No
    action of a player and no turn removes or rewrites a message. *)
Theorem log_only_grows (overlap lag : bool) (s s' : Sys) :
  run overlap lag s s' ->
  exists added,
    db_messages (sys_store s') = (db_messages (sys_store s) ++ added)%list.
Proof.
  intro H. destruct (run_steady H) as [_ [_ [_ Hlog]]]. exact Hlog.
Qed.

(** X11. Along every run of the room the id and the host of the room
    stay what they were, and a game that is playing never goes back to
    the lobby. *)
Theorem room_identity_is_kept (overlap lag : bool) (s s' : Sys) :
  run overlap lag s s' ->
  room_id (db_room (sys_store s')) = room_id (db_room (sys_store s)) /\
  hostId (db_room (sys_store s')) = hostId (db_room (sys_store s)) /\
  (gameStatus (db_room (sys_store s)) = playing ->
   gameStatus (db_room (sys_store s')) = playing).
Proof.
  intro H. destruct (run_steady H) as [Hid [Hhost [Hstatus _]]]. auto.
Qed.

(* ----------------------------------------------------------------- *)
(** ** Player ids *)

Lemma ids_update_player (pid : string) (u : PlayerUpdate) (ps : list Player) :
  map p_id (update_player pid u ps) = map p_id ps.
Proof.
  unfold update_player. rewrite map_map. apply map_ext. intro p.
  destruct (p_id p =? pid); [apply apply_player_id | reflexivity].
Qed.

Lemma ids_put_player (np : Player) (ps : list Player) (x : string) :
  In x (map p_id (put_player np ps)) -> x = p_id np \/ In x (map p_id ps).
Proof.
  induction ps as [|p ps IH]; cbn [put_player map].
  - intros [H | []]. left. symmetry. exact H.
  - destruct (String.eqb_spec (p_id p) (p_id np)) as [He | Hne]; cbn [map].
    + intros [H | H]; [left; symmetry; exact H | right; right; exact H].
    + intros [H | H]; [right; left; exact H|].
      destruct (IH H) as [H' | H']; [left; exact H' | right; right; exact H'].
Qed.

Lemma NoDup_put_player (np : Player) (ps : list Player) :
  NoDup (map p_id ps) -> NoDup (map p_id (put_player np ps)).
Proof.
  induction ps as [|p ps IH]; cbn [put_player map]; intro H.
  - constructor; [intros [] | constructor].
  - inversion H as [|? ? Hp Hps]; subst.
    destruct (String.eqb_spec (p_id p) (p_id np)) as [He | Hne]; cbn [map].
    + rewrite <- He. exact H.
    + constructor; [| exact (IH Hps)].
      intro Hin. apply ids_put_player in Hin.
      destruct Hin as [Hin | Hin]; [contradiction | contradiction].
Qed.

Lemma quiet_ids (s s' : Store) :
  quiet s s' -> NoDup (map p_id (db_players s)) ->
  NoDup (map p_id (db_players s')).
Proof.
  induction 1; intro Hnd; cbn [with_players with_room append_message db_players];
    auto.
  - rewrite ids_update_player. exact Hnd.
  - rewrite ids_update_player. exact Hnd.
  - apply NoDup_put_player. exact Hnd.
Qed.

Lemma ids_of_sheets (ps ps' : list Player) :
  map sheet ps' = map sheet ps -> map p_id ps' = map p_id ps.
Proof.
  intro H.
  assert (Hid : forall l, map p_id l
                          = map (fun t => fst (fst (fst (fst (fst t))))) (map sheet l)).
  { intro l. rewrite map_map. reflexivity. }
  rewrite (Hid ps'), (Hid ps), H. reflexivity.
Qed.

Lemma step_ids (overlap lag : bool) (s s' : Sys) :
  step overlap lag s s' ->
  NoDup (map p_id (db_players (sys_store s))) ->
  NoDup (map p_id (db_players (sys_store s'))).
Proof.
  intro H.
  destruct H as [s Hov | s before room players after outcome g rs Hturns
                 | s prompt action g rs | s rnd rollReq g rs | s ready g rs
                 | s charData scores g rs | s g rs];
    cbn [sys_store]; intro Hnd.
  - exact Hnd.
  - destruct (@Writes_narrated_resume room players outcome
                (client (sys_store s) g rs)) as [Hsheets _].
    rewrite (ids_of_sheets _ _ Hsheets). exact Hnd.
  - apply (quiet_ids (@Quiet_sendMessage prompt action
                        (client (sys_store s) g rs)) Hnd).
  - apply (quiet_ids (@Quiet_performRoll rnd rollReq
                        (client (sys_store s) g rs)) Hnd).
  - apply (quiet_ids (@Quiet_setReadyState ready
                        (client (sys_store s) g rs)) Hnd).
  - apply (quiet_ids (@Quiet_createCharacter charData scores
                        (client (sys_store s) g rs)) Hnd).
  - apply (quiet_ids (@Quiet_startGame_write
                        (client (sys_store s) g rs)) Hnd).
Qed.

(** X12. In every state of the room that can be reached from its
    creation, turns overlapping or not and starting from a current copy
    of the documents or from a lagging one, the player documents have
    distinct ids: a participant who creates a character again replaces
    the document instead of adding one. *)
Theorem player_ids_stay_distinct (overlap lag : bool) (s : Sys) :
  reachable overlap lag s -> NoDup (map p_id (db_players (sys_store s))).
Proof.
  induction 1 as [roomId host | s s' _ IH Hstep].
  - constructor.
  - exact (step_ids Hstep IH).
Qed.

(* ----------------------------------------------------------------- *)
(** ** A whole turn *)

Lemma with_narrative_docs (docId : string) (gm : GmResponse) (s : Store) :
  db_room (with_narrative docId gm s) = db_room s /\
  db_players (with_narrative docId gm s) = db_players s.
Proof.
  unfold with_narrative.
  destruct (narrative gm) as [n|]; [destruct (n =? "")|]; split; reflexivity.
Qed.

Lemma commit_accepted (ops : list BatchOp) (w : World) (x : string)
  (rest : list WriteReply) (s' : Store) :
  replies w = Accepted x :: rest ->
  apply_batch ops (store w) = Some s' ->
  exists rest', commit ops w = (Returned tt, mkWorld s' (state w) rest').
Proof.
  intros Hrs Hb. destruct ops as [|op ops].
  - cbn in Hb. inversion Hb; subst s'. exists (replies w).
    destruct w; reflexivity.
  - exists rest. unfold commit, await_write. rewrite Hrs, Hb. reflexivity.
Qed.

(** A turn whose reply parses, the backend accepting the writes and the
    batch applying to the documents: the turn returns normally with the
    documents of the batch. *)
Lemma turn_reply (currentChatHistory : list ChatMessage)
  (service : Ollama.Request -> LlmOutcome) (w : World) (room : GameRoom)
  (gm : GmResponse) (a b : string) (rs : list WriteReply) (s' : Store) :
  gs_room (state w) = Some room ->
  service (Ollama.request (gs_players (state w)) currentChatHistory) = Reply gm ->
  replies w = Accepted a :: Accepted b :: rs ->
  apply_batch
    (batch_ops room (gs_players (state w)) (repair (gs_players (state w)) gm))
    (with_narrative a (repair (gs_players (state w)) gm) (store w)) = Some s' ->
  fst (_triggerGmResponse_call currentChatHistory service w) = Returned tt /\
  store (snd (_triggerGmResponse_call currentChatHistory service w)) = s' /\
  state (snd (_triggerGmResponse_call currentChatHistory service w))
  = put_isAiThinking false (state w).
Proof.
  intros Hroom Hsvc Hrs Hb.
  unfold _triggerGmResponse_call, bind, begin_turn, local, begin_turn_local.
  rewrite Hroom. cbn [state store replies]. rewrite Hsvc.
  unfold resume_turn, try_catch_finally, reconcile, bind.
  set (players := gs_players (state w)) in *.
  set (gm' := repair players gm) in *.
  set (ops := batch_ops room players gm') in *.
  set (w0 := mkWorld (store w) (put_isAiThinking true (state w)) (replies w)).
  assert (Hn : exists w1 x rest,
             match narrative gm' with
             | Some n =>
                 if n =? "" then ret tt
                 else addDoc (mkMessageData assistant n (Some "GM") None)
             | None => ret tt
             end w0 = (Returned tt, w1) /\
             store w1 = with_narrative a gm' (store w) /\
             state w1 = put_isAiThinking true (state w) /\
             replies w1 = Accepted x :: rest).
  { unfold with_narrative.
    destruct (narrative gm') as [n|]; [destruct (n =? "")|].
    - exists w0, a, (Accepted b :: rs). auto.
    - eexists. exists b, rs. unfold addDoc, await_write. subst w0.
      cbn [replies store state]. rewrite Hrs. cbn [store state replies]. auto.
    - exists w0, a, (Accepted b :: rs). auto. }
  destruct Hn as [w1 [x [rest [Hw1 [Hs1 [Hg1 Hr1]]]]]].
  rewrite Hw1. rewrite <- Hs1 in Hb.
  destruct (commit_accepted ops w1 Hr1 Hb) as [rest' Hc].
  rewrite Hc. cbn [set_state fst snd store state]. rewrite Hg1.
  split; [reflexivity|]. split; reflexivity.
Qed.

Lemma roll_branch_commits (s : Store) (gm : GmResponse) (ask : RollAsk)
  (target : string) (tp : Player) :
  roll_request gm = Some ask ->
  targetClassName ask = Some target -> target <> "" ->
  find (is_class target) (db_players s) = Some tp ->
  apply_batch (batch_ops (db_room s) (db_players s) gm) s
  = Some (mkStore
            (apply_room
               (SetActiveRoll
                  (mkRollRequest (p_id tp) (p_name tp)
                     (Js.or_else (ask_diceType ask) "d20")
                     (Js.or_else (ask_reason ask) "Check")))
               (with_scene gm (db_room s)))
            (map (apply_player (SetChoices None)) (db_players s))
            (db_messages s) (db_clock s)).
Proof.
  intros Hask Htarget Hne Hfind.
  assert (Hops : batch_ops (db_room s) (db_players s) gm =
            ((if Js.truthy (scene_image_prompt gm)
              then [UpdateRoom (SetCurrentScene
                                  (Js.or_else (scene_image_prompt gm) ""))]
              else []) ++
             UpdateRoom (SetActiveRoll
                           (mkRollRequest (p_id tp) (p_name tp)
                              (Js.or_else (ask_diceType ask) "d20")
                              (Js.or_else (ask_reason ask) "Check")))
             :: map clear_op (db_players s))%list).
  { unfold batch_ops. rewrite Hask, Htarget. cbn [Js.truthy Js.or_else].
    destruct (String.eqb_spec target ""); [contradiction|]. cbn [negb].
    unfold roll_ops. rewrite Hfind. reflexivity. }
  rewrite apply_batch_commits.
  - f_equal. f_equal.
    + rewrite Hops, room_after_app, scene_ops_room.
      unfold room_after at 1. cbn [fold_left].
      fold (room_after (map clear_op (db_players s))).
      apply room_after_players_only. intro u. apply clear_ops_players_only.
    + apply map_ext_in. intros q Hq.
      rewrite Hops, player_after_app, scene_ops_player.
      unfold player_after at 1. cbn [fold_left].
      fold (player_after (map clear_op (db_players s))).
      apply player_after_clear. apply in_map. exact Hq.
  - intros pid u Hin. rewrite Hops in Hin. apply in_app_or in Hin.
    destruct Hin as [Hin | [Hin | Hin]].
    + destruct (Js.truthy (scene_image_prompt gm)); [| destruct Hin].
      destruct Hin as [Hin | []]. discriminate Hin.
    + discriminate Hin.
    + apply in_map_iff in Hin. destruct Hin as [p [Hp Hin]].
      inversion Hp; subst. apply has_player_In. apply in_map. exact Hin.
Qed.

Lemma choices_branch_commits (s : Store) (gm : GmResponse)
  (ch : list (string * list string)) :
  NoDup (map p_id (db_players s)) ->
  Js.truthy (roll_target gm) = false ->
  gm_choices gm = Some ch ->
  apply_batch (batch_ops (db_room s) (db_players s) gm) s
  = Some (mkStore
            (apply_room DeleteActiveRoll (with_scene gm (db_room s)))
            (map (with_choices ch) (db_players s))
            (db_messages s) (db_clock s)).
Proof.
  intros Hnd Htarget Hch.
  assert (Hops : batch_ops (db_room s) (db_players s) gm =
            ((if Js.truthy (scene_image_prompt gm)
              then [UpdateRoom (SetCurrentScene
                                  (Js.or_else (scene_image_prompt gm) ""))]
              else []) ++
             (match activeRoll (db_room s) with
              | Some _ => [UpdateRoom DeleteActiveRoll]
              | None => []
              end) ++ flat_map (choice_op ch) (db_players s))%list).
  { unfold batch_ops. rewrite Hch. unfold roll_target in Htarget.
    destruct (roll_request gm) as [ask|]; [rewrite Htarget|]; reflexivity. }
  assert (Hnoroom : forall u,
             ~ In (UpdateRoom u) (flat_map (choice_op ch) (db_players s))).
  { intros u Hin. apply choice_ops_target in Hin.
    destruct Hin as [p [c [_ [_ [_ Hop]]]]]. discriminate Hop. }
  rewrite apply_batch_commits.
  - f_equal. f_equal.
    + rewrite Hops, !room_after_app, scene_ops_room.
      rewrite (room_after_players_only _ _ Hnoroom).
      destruct (activeRoll (db_room s)) as [r|] eqn:Hr.
      * reflexivity.
      * cbn. unfold with_scene.
        destruct (Js.truthy (scene_image_prompt gm)).
        -- symmetry. apply room_without_roll. exact Hr.
        -- symmetry. apply room_without_roll. exact Hr.
    + apply map_ext_in. intros q Hq.
      rewrite Hops, !player_after_app, scene_ops_player.
      replace (player_after
                 (match activeRoll (db_room s) with
                  | Some _ => [UpdateRoom DeleteActiveRoll]
                  | None => []
                  end) q) with q
        by (destruct (activeRoll (db_room s)); reflexivity).
      apply player_after_choices; assumption.
  - intros pid u Hin. rewrite Hops in Hin.
    apply in_app_or in Hin. destruct Hin as [Hin | Hin].
    + destruct (Js.truthy (scene_image_prompt gm)); [| destruct Hin].
      destruct Hin as [Hin | []]. discriminate Hin.
    + apply in_app_or in Hin. destruct Hin as [Hin | Hin].
      * destruct (activeRoll (db_room s)); [| destruct Hin].
        destruct Hin as [Hin | []]. discriminate Hin.
      * apply choice_ops_target in Hin.
        destruct Hin as [p [c [Hp [_ [_ Hop]]]]].
        inversion Hop; subst. apply has_player_In. apply in_map. exact Hp.
Qed.

Lemma with_choices_id (ch : list (string * list string)) (q : Player) :
  p_id (with_choices ch q) = p_id q.
Proof.
  unfold with_choices. destruct (characterClass q) as [c|]; [| reflexivity].
  destruct (c =? ""); [reflexivity | apply apply_player_id].
Qed.

Lemma me_of_member (ps : list Player) (p : Player) :
  NoDup (map p_id ps) -> In p ps ->
  Screens.me ps (Some (p_id p)) = Some p.
Proof.
  unfold Screens.me, opt_eqb.
  induction ps as [|q ps IH]; intros Hnd Hin; [destruct Hin|].
  cbn [map] in Hnd. inversion Hnd as [|? ? Hq Hps]; subst.
  cbn [find]. destruct Hin as [He | Hin].
  - subst q. rewrite String.eqb_refl. reflexivity.
  - destruct (String.eqb_spec (p_id q) (p_id p)) as [He | Hne].
    + exfalso. apply Hq. rewrite He. apply in_map. exact Hin.
    + apply IH; assumption.
Qed.

Lemma repaired_choices (players : list Player) (gm : GmResponse) (p : Player)
  (c : string) :
  roll_request gm = None ->
  In p players -> characterClass p = Some c -> c <> "" -> c <> "__proto__" ->
  exists l0,
    ((exists k0, first_key (reply_choices gm) c k0 /\
                 Obj.get k0 (reply_choices gm) = Some l0) \/
     (no_key (reply_choices gm) c /\ l0 = [])) /\
    choicesToUpdate (fold_left repair_player players (reply_choices gm)) c
    = filled l0.
Proof.
  intros Hroll Hin Hc Hne Hproto.
  destruct (repair_fold (reply_choices gm) players c (reply_choices gm))
    as [_ Hfold].
  destruct (Hfold (conj eq_refl eq_refl) p c Hin Hc Hne Hproto eq_refl)
    as [k [Hk [Hget _]]].
  assert (Hlist : choicesToUpdate
                    (fold_left repair_player players (reply_choices gm)) c
                  = pad (entry_for (reply_choices gm) c)).
  { unfold choicesToUpdate. rewrite Hk.
    destruct (String.eqb_spec k "") as [He | _].
    - exfalso. exact (@find_key_nonempty _ c k Hne Hk He).
    - rewrite Hget. reflexivity. }
  exists (entry_for (reply_choices gm) c).
  split; [| rewrite Hlist; apply pad_filled].
  destruct (find_key (reply_choices gm) c) as [k0|] eqn:Hk0.
  - left. exists k0. split; [apply find_key_first; exact Hk0|].
    destruct (find_key_some _ _ Hk0) as [Hin0 _].
    destruct (get_of_key _ _ Hin0) as [l Hl].
    rewrite (@entry_for_found (reply_choices gm) c k0 l Hk0 Hl). exact Hl.
  - right. split.
    + apply find_key_no_key. exact Hk0.
    + apply entry_for_none. exact Hk0.
Qed.

Lemma filled_length (l : list string) : (2 <= List.length (filled l))%nat.
Proof. rewrite <- pad_filled. apply pad_spec. Qed.

(** X7. A turn of choices, end to end. The host holds the room and the
    players as they are in the documents, the player ids are distinct,
    the narration service answers the request of the turn with a reply
    without roll request, and the backend accepts the writes. Then the
    turn returns normally, the thinking flag is down, no roll is
    pending, and every participant with a class other than [__proto__]
    finds on the game screen the list the reply holds for the first key
    equal to the class up to case (the empty list when the reply has no
    such key), filled up to two entries from the pool: a menu of two
    entries or more. *)
Theorem choices_turn_serves_everyone (currentChatHistory : list ChatMessage)
  (service : Ollama.Request -> LlmOutcome) (w : World) (gm : GmResponse)
  (a b : string) (rs : list WriteReply) :
  gs_room (state w) = Some (db_room (store w)) ->
  gs_players (state w) = db_players (store w) ->
  NoDup (map p_id (db_players (store w))) ->
  service (Ollama.request (db_players (store w)) currentChatHistory) = Reply gm ->
  roll_request gm = None ->
  replies w = Accepted a :: Accepted b :: rs ->
  let r := _triggerGmResponse_call currentChatHistory service w in
  let s' := store (snd r) in
  fst r = Returned tt /\
  isAiThinking (state (snd r)) = false /\
  activeRoll (db_room s') = None /\
  forall p c, In p (db_players (store w)) ->
    characterClass p = Some c -> c <> "" -> c <> "__proto__" ->
    exists l0,
      ((exists k0, first_key (reply_choices gm) c k0 /\
                   Obj.get k0 (reply_choices gm) = Some l0) \/
       (no_key (reply_choices gm) c /\ l0 = [])) /\
      Screens.choices_shown (db_room s') (db_players s') (Some (p_id p)) false
      = (l0 ++ firstn (2 - List.length l0)
                 (filter (fun d => negb (existsb (String.eqb d) l0))
                    ["Observe surroundings"; "Ready weapon";
                     "Discuss with party"; "Search area"]))%list /\
      (2 <= List.length
              (Screens.choices_shown (db_room s') (db_players s')
                 (Some (p_id p)) false))%nat.
Proof.
  intros Hroom Hplayers Hnd Hsvc Hroll Hrs r s'.
  set (players := db_players (store w)) in *.
  set (ch' := fold_left repair_player players (reply_choices gm)).
  assert (Hch : gm_choices (repair players gm) = Some ch').
  { unfold repair, reply_choices. rewrite Hroll. reflexivity. }
  assert (Htarget : Js.truthy (roll_target (repair players gm)) = false).
  { unfold roll_target, repair. rewrite Hroll. reflexivity. }
  destruct (with_narrative_docs a (repair players gm) (store w)) as [Hd1 Hd2].
  pose proof (@choices_branch_commits
                (with_narrative a (repair players gm) (store w))
                (repair players gm) ch') as Hb.
  rewrite Hd1, Hd2 in Hb. fold players in Hb.
  specialize (Hb Hnd Htarget Hch).
  rewrite <- Hplayers in Hsvc.
  edestruct (@turn_reply currentChatHistory service w (db_room (store w)) gm a b rs)
    as [Hret [Hstore Hstate]];
    [exact Hroom | exact Hsvc | exact Hrs | rewrite Hplayers; exact Hb |].
  fold r in Hret, Hstore, Hstate. fold s' in Hstore.
  split; [exact Hret|]. split; [rewrite Hstate; reflexivity|].
  rewrite Hstore. cbn [db_room db_players].
  split; [reflexivity|].
  intros p c Hin Hc Hne Hproto.
  destruct (@repaired_choices players gm p c Hroll Hin Hc Hne Hproto)
    as [l0 [Hl0 Hlist]].
  fold ch' in Hlist.
  assert (Hshown : Screens.choices_shown
                     (apply_room DeleteActiveRoll
                        (with_scene (repair players gm) (db_room (store w))))
                     (map (with_choices ch') players) (Some (p_id p)) false
                   = filled l0).
  { unfold Screens.choices_shown. cbn [activeRoll apply_room].
    assert (Hme : Screens.me (map (with_choices ch') players) (Some (p_id p))
                  = Some (with_choices ch' p)).
    { rewrite <- (with_choices_id ch' p). apply me_of_member.
      - rewrite map_map.
        rewrite (map_ext (fun q => p_id (with_choices ch' q)) p_id
                   (with_choices_id ch')).
        exact Hnd.
      - apply in_map. exact Hin. }
    rewrite Hme. unfold with_choices. rewrite Hc.
    destruct (String.eqb_spec c ""); [contradiction|].
    cbn [choices apply_player]. exact Hlist. }
  exists l0. split; [exact Hl0|]. rewrite Hshown.
  split; [reflexivity | apply filled_length].
Qed.

(** X8. A turn that asks for a roll, end to end. The host holds the
    room and the players as they are in the documents, the reply names
    a class that a participant plays, and the backend accepts the
    writes. Then the turn returns normally; the roll is pending for the
    first participant of that class, with the die and the reason of the
    reply (d20 and Check when it gives none); every participant has
    null choices; on the game screen only that participant hands the
    roll to [performRoll], nobody is shown choices, and the Act button
    is disabled for everybody; and no message, action or not, starts a
    turn at a host that holds this room. *)
Theorem roll_turn_hands_the_dice (currentChatHistory : list ChatMessage)
  (service : Ollama.Request -> LlmOutcome) (w : World) (gm : GmResponse)
  (ask : RollAsk) (target : string) (tp : Player)
  (a b : string) (rs : list WriteReply) :
  gs_room (state w) = Some (db_room (store w)) ->
  gs_players (state w) = db_players (store w) ->
  service (Ollama.request (db_players (store w)) currentChatHistory) = Reply gm ->
  roll_request gm = Some ask ->
  targetClassName ask = Some target -> target <> "" ->
  find (is_class target) (db_players (store w)) = Some tp ->
  replies w = Accepted a :: Accepted b :: rs ->
  let r := _triggerGmResponse_call currentChatHistory service w in
  let s' := store (snd r) in
  let roll := mkRollRequest (p_id tp) (p_name tp)
                (Js.or_else (ask_diceType ask) "d20")
                (Js.or_else (ask_reason ask) "Check") in
  fst r = Returned tt /\
  activeRoll (db_room s') = Some roll /\
  Forall (fun p => choices p = None) (db_players s') /\
  (forall viewer,
      Screens.handleRollClick (db_room s') viewer
      = if opt_eqb (p_id tp) viewer then Some roll else None) /\
  (forall viewer thinking,
      Screens.choices_shown (db_room s') (db_players s') viewer thinking = []) /\
  (forall thinking prompt,
      Screens.act_disabled (db_room s') thinking prompt = true) /\
  (forall h x, gs_room h = Some (db_room s') -> trigger_guard h x = false).
Proof.
  intros Hroom Hplayers Hsvc Hroll Htarget Hne Hfind Hrs r s' roll.
  set (players := db_players (store w)) in *.
  assert (Hrep : repair players gm = gm).
  { unfold repair. rewrite Hroll. reflexivity. }
  destruct (with_narrative_docs a gm (store w)) as [Hd1 Hd2].
  pose proof (@roll_branch_commits (with_narrative a gm (store w)) gm ask target tp
                Hroll Htarget Hne) as Hb.
  rewrite Hd1, Hd2 in Hb. fold players in Hb. specialize (Hb Hfind).
  rewrite <- Hplayers in Hsvc.
  edestruct (@turn_reply currentChatHistory service w (db_room (store w)) gm a b rs)
    as [Hret [Hstore _]];
    [exact Hroom | exact Hsvc | exact Hrs
    | rewrite Hplayers; rewrite Hrep; exact Hb |].
  fold r in Hret, Hstore. fold s' in Hstore.
  split; [exact Hret|].
  rewrite Hstore. cbn [db_room db_players]. fold roll.
  assert (Hactive : activeRoll (apply_room (SetActiveRoll roll)
                                  (with_scene gm (db_room (store w))))
                    = Some roll) by reflexivity.
  split; [exact Hactive|]. split; [| split; [| split; [| split]]].
  - apply Forall_forall. intros q Hq. apply in_map_iff in Hq.
    destruct Hq as [q0 [Hq0 _]]. subst q. reflexivity.
  - intro viewer. unfold Screens.handleRollClick, Screens.isMyRoll.
    rewrite Hactive. reflexivity.
  - intros viewer thinking. unfold Screens.choices_shown.
    rewrite Hactive. reflexivity.
  - intros thinking prompt. unfold Screens.act_disabled. rewrite Hactive.
    destruct thinking; reflexivity.
  - intros h x Hh. destruct (trigger_guard h x) eqn:Hg; [| reflexivity].
    apply trigger_guard_iff in Hg.
    destruct Hg as [_ [_ [[room' [Hroom' [Hnone _]]] _]]].
    rewrite Hh in Hroom'. inversion Hroom' as [Heq].
    rewrite <- Heq in Hnone. cbn in Hnone. discriminate Hnone.
Qed.

(* ----------------------------------------------------------------- *)
(** ** Joining the party *)

Lemma find_player_has (pid : string) (ps : list Player) :
  has_player pid ps = match find_player pid ps with
                      | Some _ => true
                      | None => false
                      end.
Proof.
  unfold has_player, find_player.
  induction ps as [|p ps IH]; [reflexivity|].
  cbn [existsb find]. destruct (p_id p =? pid); [reflexivity | exact IH].
Qed.

Lemma length_put_player (np : Player) (ps : list Player) :
  List.length (put_player np ps)
  = if has_player (p_id np) ps then List.length ps else S (List.length ps).
Proof.
  unfold has_player. induction ps as [|p ps IH]; [reflexivity|].
  cbn [put_player existsb]. destruct (p_id p =? p_id np); cbn [orb List.length].
  - reflexivity.
  - rewrite IH. destruct (existsb _ ps); reflexivity.
Qed.

Lemma find_put_same (np : Player) (ps : list Player) :
  find_player (p_id np) (put_player np ps) = Some np.
Proof.
  unfold find_player. induction ps as [|p ps IH]; cbn [put_player find].
  - rewrite String.eqb_refl. reflexivity.
  - destruct (p_id p =? p_id np) eqn:E; cbn [find].
    + rewrite String.eqb_refl. reflexivity.
    + rewrite E. exact IH.
Qed.

Lemma find_put_other (np : Player) (ps : list Player) (pid : string) :
  pid <> p_id np ->
  find_player pid (put_player np ps) = find_player pid ps.
Proof.
  intro Hne. unfold find_player.
  induction ps as [|p ps IH]; cbn [put_player find].
  - destruct (String.eqb_spec (p_id np) pid); [congruence | reflexivity].
  - destruct (String.eqb_spec (p_id p) (p_id np)) as [He | Hn]; cbn [find].
    + destruct (String.eqb_spec (p_id np) pid); [congruence|].
      destruct (String.eqb_spec (p_id p) pid); [congruence | reflexivity].
    + destruct (String.eqb_spec (p_id p) pid); [reflexivity | exact IH].
Qed.

Lemma addDoc_players (d : MessageData) (w : World) :
  db_players (store (snd (addDoc d w))) = db_players (store w).
Proof.
  unfold addDoc, await_write. destruct (replies w) as [|[|x] rest]; reflexivity.
Qed.

(** The player documents after [createCharacter]: as they were, or with
    the document of the caller put, and then the check of the size of
    the party had let the caller through. *)
Lemma createCharacter_players (charData : CharData) (scores : list (string * Z))
  (w : World) :
  let pid := Js.or_else (gs_playerId (state w)) "" in
  let s' := store (snd (createCharacter charData scores w)) in
  db_players s' = db_players (store w) \/
  (andb (4 <=? List.length (gs_players (state w)))%nat
        (match find_player pid (gs_players (state w)) with
         | Some _ => false
         | None => true
         end) = false /\
   db_players s' = put_player (newPlayer pid charData scores)
                     (db_players (store w))).
Proof.
  cbv zeta. unfold createCharacter, bind, get_state.
  destruct (gs_room (state w)) as [room|]; [| left; reflexivity].
  destruct (negb (Js.truthy (gs_playerId (state w)))); [left; reflexivity|].
  destruct (andb _ _) eqn:Hfull; [left; reflexivity|].
  fold (newPlayer (Js.or_else (gs_playerId (state w)) "") charData scores).
  unfold setDoc_player, await_write.
  destruct (replies w) as [|[|x] rest]; try (left; reflexivity).
  right. split; [reflexivity|].
  destruct (find_player _ (gs_players (state w))); [reflexivity|].
  rewrite addDoc_players. reflexivity.
Qed.

(** X13. The party is capped at four as long as the caller of
    [createCharacter] holds the player documents as they are: a party
    of four or fewer stays one of four or fewer, whatever the backend
    answers. The check reads the local copy only: a caller whose copy
    lags behind the documents is let in as a fifth. *)
Theorem party_is_capped :
  (forall charData scores w,
      gs_players (state w) = db_players (store w) ->
      (List.length (db_players (store w)) <= 4)%nat ->
      (List.length
         (db_players (store (snd (createCharacter charData scores w)))) <= 4)%nat) /\
  (exists charData scores w,
      List.length (db_players (store w)) = 4%nat /\
      List.length (gs_players (state w)) = 3%nat /\
      List.length
        (db_players (store (snd (createCharacter charData scores w)))) = 5%nat).
Proof.
  split.
  - intros charData scores w Hfresh Hlen.
    destruct (createCharacter_players charData scores w) as [H | [Hfull H]];
      rewrite H; [exact Hlen|].
    rewrite length_put_player. cbn [newPlayer p_id].
    rewrite Hfresh in Hfull. rewrite find_player_has.
    destruct (find_player _ (db_players (store w))); [exact Hlen|].
    rewrite Bool.andb_true_r in Hfull. apply Nat.leb_gt in Hfull. lia.
  - exists (mkCharData "Eve" None (Some "Bard")), [],
      (mkWorld
         (mkStore Table.room
            [Table.ann; Table.bob;
             mkPlayer "u3" "Cid" None (Some "Rogue") [] false None;
             mkPlayer "u4" "Dee" None (Some "Cleric") [] false None] [] 0)
         (mkGameState (Some Table.room)
            [Table.ann; Table.bob;
             mkPlayer "u3" "Cid" None (Some "Rogue") [] false None] []
            (Some "u5") false false None)
         [Accepted "w1"; Accepted "w2"]).
    split; [reflexivity|]. split; reflexivity.
Qed.

(** X14. What [createCharacter] writes, for a caller who is let
    through (fewer than four players in the local copy, or the caller
    among them) and a backend that accepts the writes: the document of
    the caller is the new sheet, not ready and without choices, whether
    it replaces an older one or is new; the documents of the other
    players are what they were; and the log gets the notice of the
    join exactly when the caller was not in the local copy. *)
Theorem createCharacter_writes_the_sheet (charData : CharData)
  (scores : list (string * Z)) (w : World) (room : GameRoom) (pid : string)
  (a b : string) (rs : list WriteReply) :
  gs_room (state w) = Some room ->
  gs_playerId (state w) = Some pid -> pid <> "" ->
  ((List.length (gs_players (state w)) < 4)%nat \/
   find_player pid (gs_players (state w)) <> None) ->
  replies w = Accepted a :: Accepted b :: rs ->
  let r := createCharacter charData scores w in
  let s' := store (snd r) in
  fst r = Returned tt /\
  find_player pid (db_players s') = Some (newPlayer pid charData scores) /\
  (forall q, q <> pid ->
             find_player q (db_players s') = find_player q (db_players (store w))) /\
  db_room s' = db_room (store w) /\
  db_messages s'
  = (db_messages (store w) ++
       match find_player pid (gs_players (state w)) with
       | Some _ => []
       | None =>
           [mkChatMessage b system
              (join_content (newPlayer pid charData scores)) None None
              (db_clock (store w))]
       end)%list.
Proof.
  intros Hroom Hpid Hne Hlet Hrs r s'. subst r s'.
  assert (Hor : Js.or_else (gs_playerId (state w)) "" = pid).
  { rewrite Hpid. cbn. destruct (String.eqb_spec pid ""); [contradiction | reflexivity]. }
  assert (Ht : Js.truthy (gs_playerId (state w)) = true).
  { rewrite Hpid. cbn. destruct (String.eqb_spec pid ""); [contradiction | reflexivity]. }
  unfold createCharacter, bind, get_state. rewrite Hroom, Ht, Hor. cbn [negb].
  fold (newPlayer pid charData scores).
  assert (Hfull : andb (4 <=? List.length (gs_players (state w)))%nat
                    (match find_player pid (gs_players (state w)) with
                     | Some _ => false
                     | None => true
                     end) = false).
  { destruct Hlet as [Hlt | Hknown].
    - apply Nat.leb_gt in Hlt. rewrite Hlt. reflexivity.
    - destruct (find_player pid (gs_players (state w))); [| contradiction].
      apply Bool.andb_false_r. }
  rewrite Hfull.
  unfold setDoc_player, addDoc, await_write. rewrite Hrs.
  cbn [replies store state].
  destruct (find_player pid (gs_players (state w))) as [old|];
    cbn [fst snd store ret db_players db_room db_messages with_players
         append_message].
  - split; [reflexivity|].
    split; [apply (find_put_same (newPlayer pid charData scores))|].
    split; [intros q Hq; apply find_put_other; exact Hq|].
    split; [reflexivity | symmetry; apply List.app_nil_r].
  - split; [reflexivity|].
    split; [apply (find_put_same (newPlayer pid charData scores))|].
    split; [intros q Hq; apply find_put_other; exact Hq|].
    split; reflexivity.
Qed.

Lemma floor_scale_range (rnd : Q) (max : Z) :
  0 <= rnd -> rnd < 1 -> (0 < max)%Z ->
  (0 <= Qfloor (rnd * inject_Z max) < max)%Z.
Proof.
  intros H0 H1 Hmax.
  assert (Hm : 0 < inject_Z max).
  { change (inject_Z 0 < inject_Z max). rewrite <- Zlt_Qlt. exact Hmax. }
  assert (Hlo : 0 <= rnd * inject_Z max).
  { apply Qmult_le_0_compat; [exact H0 | apply Qlt_le_weak; exact Hm]. }
  assert (Hhi : rnd * inject_Z max < inject_Z max).
  { setoid_replace (inject_Z max) with (1 * inject_Z max) at 2 by ring.
    apply Qmult_lt_compat_r; assumption. }
  split.
  - pose proof (Qfloor_resp_le _ _ Hlo) as Hf. change (Qfloor 0) with 0%Z in Hf. lia.
  - rewrite Zlt_Qlt. eapply Qle_lt_trans; [apply Qfloor_le | exact Hhi].
Qed.

Lemma ability_score_range (rnd : Q) :
  unit_draw rnd -> (3 <= ability_score rnd <= 18)%Z.
Proof.
  intros [H0 H1].
  pose proof (@floor_scale_range rnd 16 H0 H1 ltac:(lia)) as H.
  unfold ability_score. lia.
Qed.

(** X15. The six ability scores [createCharacter] draws, STR, DEX, CON,
    INT, WIS and CHA in this order, lie between 3 and 18 each, for
    values of [Math.random()] in [0, 1). *)
Theorem ability_scores_in_range (d : Draws) :
  unit_draw (r_STR d) -> unit_draw (r_DEX d) -> unit_draw (r_CON d) ->
  unit_draw (r_INT d) -> unit_draw (r_WIS d) -> unit_draw (r_CHA d) ->
  map fst (drawn_stats d) = ["STR"; "DEX"; "CON"; "INT"; "WIS"; "CHA"] /\
  Forall (fun kv => (3 <= snd kv <= 18)%Z) (drawn_stats d).
Proof.
  intros H1 H2 H3 H4 H5 H6. split; [reflexivity|].
  unfold drawn_stats.
  repeat (constructor; [cbn [snd]; apply ability_score_range; assumption|]).
  constructor.
Qed.

(* ----------------------------------------------------------------- *)
(** ** Ready flags and the start of the game *)

Lemma forallb_ready_update (pid : string) (b : bool) (ps : list Player) :
  forallb isReady (update_player pid (SetIsReady b) ps)
  = forallb (fun p => if p_id p =? pid then b else isReady p) ps.
Proof.
  unfold update_player. induction ps as [|p ps IH]; [reflexivity|].
  cbn [map forallb]. rewrite IH. f_equal.
  destruct (p_id p =? pid); reflexivity.
Qed.

(** X16. [setReadyState] and the start button. For a caller with a
    player document and a backend that accepts the write, the ready
    flag of the caller is set and nothing else changes in the player
    documents; a caller who takes the flag down disables the start
    button of the host, and a caller who puts it up enables the button
    when every other player is ready. A caller without a player
    document gets the error of the backend, and the documents stay as
    they were. *)
Theorem ready_flags_gate_the_start (ready : bool) (w : World)
  (room : GameRoom) (pid : string) (x : string) (rs : list WriteReply) :
  gs_room (state w) = Some room ->
  gs_playerId (state w) = Some pid -> pid <> "" ->
  replies w = Accepted x :: rs ->
  let r := setReadyState ready w in
  let s' := store (snd r) in
  (has_player pid (db_players (store w)) = true ->
   fst r = Returned tt /\
   db_players s' = update_player pid (SetIsReady ready) (db_players (store w)) /\
   (ready = false ->
    forall loading, Screens.start_disabled loading (db_players s') = true) /\
   (ready = true ->
    (forall q, In q (db_players (store w)) -> p_id q <> pid -> isReady q = true) ->
    Screens.start_disabled false (db_players s') = false)) /\
  (has_player pid (db_players (store w)) = false ->
   fst r = Threw FirestoreError /\ s' = store w).
Proof.
  intros Hroom Hpid Hne Hrs r s'. subst r s'.
  assert (Hor : Js.or_else (gs_playerId (state w)) "" = pid).
  { rewrite Hpid. cbn. destruct (String.eqb_spec pid ""); [contradiction | reflexivity]. }
  assert (Ht : Js.truthy (gs_playerId (state w)) = true).
  { rewrite Hpid. cbn. destruct (String.eqb_spec pid ""); [contradiction | reflexivity]. }
  unfold setReadyState, bind, get_state. rewrite Hroom, Ht, Hor. cbn [negb].
  unfold updateDoc_player, await_write, apply_op. rewrite Hrs.
  split; intro Hhas; rewrite Hhas; cbn [fst snd store db_players with_players].
  - split; [reflexivity|]. split; [reflexivity|].
    apply existsb_exists in Hhas. destruct Hhas as [me [Hme Hid]].
    split.
    + intros Hready loading. subst ready.
      unfold Screens.start_disabled, Screens.allReady.
      rewrite forallb_ready_update.
      assert (Hf : forallb (fun p => if p_id p =? pid then false else isReady p)
                     (db_players (store w)) = false).
      { destruct (forallb _ (db_players (store w))) eqn:E; [| reflexivity].
        rewrite forallb_forall in E. specialize (E me Hme).
        rewrite Hid in E. discriminate E. }
      rewrite Hf, Bool.andb_false_r. cbn [negb].
      rewrite Bool.orb_true_r. reflexivity.
    + intros Hready Hothers. subst ready.
      unfold Screens.start_disabled, Screens.allReady.
      rewrite forallb_ready_update.
      assert (Hf : forallb (fun p => if p_id p =? pid then true else isReady p)
                     (db_players (store w)) = true).
      { apply forallb_forall. intros q Hq.
        destruct (String.eqb_spec (p_id q) pid); [reflexivity|].
        apply Hothers; assumption. }
      rewrite Hf. unfold update_player. rewrite length_map.
      destruct (db_players (store w)) as [|p ps]; [destruct Hme | reflexivity].
  - split; [reflexivity | reflexivity].
Qed.

Lemma turn_state (currentChatHistory : list ChatMessage)
  (service : Ollama.Request -> LlmOutcome) (w : World) (room : GameRoom) :
  gs_room (state w) = Some room ->
  state (snd (_triggerGmResponse_call currentChatHistory service w))
  = put_isAiThinking false (state w).
Proof.
  intro Hroom.
  unfold _triggerGmResponse_call, bind, begin_turn, local, begin_turn_local.
  rewrite Hroom. cbn [ret]. rewrite resume_turn_state. reflexivity.
Qed.

(** X17. [startGame] writes the status first. When the backend rejects
    that write, the caller gets the error and no turn starts: the
    documents and the local state are what they were. When it accepts,
    [startGame] returns with the game playing, the thinking flag up and
    the first turn waiting for the narration service: its request is
    the one of an empty chat history, it has read the local copy of the
    room and the players, and it has written nothing. When the service
    answers, whatever it answers and whatever the backend does with the
    writes, the turn brings the flag down and the game stays as it was,
    playing. The store checks neither that the caller is the host nor
    that the players are ready. *)
Theorem startGame_writes_the_status_first (s : Store) (g : GameState)
  (room : GameRoom) :
  gs_room g = Some room ->
  (forall rs, rs = [] \/ (exists rs', rs = Rejected :: rs') ->
     fst (startGame (mkWorld s g rs)) = Threw FirestoreError /\
     store (snd (startGame (mkWorld s g rs))) = s /\
     state (snd (startGame (mkWorld s g rs))) = g) /\
  (forall x rs,
     startGame (mkWorld s g (Accepted x :: rs))
     = (Returned
          (Some (mkPending room (gs_players g)
                   (Ollama.request (gs_players g) []))),
        mkWorld
          (mkStore
             (mkGameRoom (room_id (db_room s)) (hostId (db_room s)) playing
                (activeRoll (db_room s)) (currentScene (db_room s)))
             (db_players s) (db_messages s) (db_clock s))
          (mkGameState (gs_room g) (gs_players g) (chatHistory g)
             (gs_playerId g) (isLoading g) true (lastHandledMessageId g))
          rs)) /\
  (forall (t : Pending) (outcome : LlmOutcome) (w : World),
     let w' := snd (_triggerGmResponse_finish t outcome w) in
     isAiThinking (state w') = false /\
     gameStatus (db_room (store w')) = gameStatus (db_room (store w))).
Proof.
  intro Hroom. split; [| split].
  - intros rs Hrs. unfold startGame, bind, get_state. cbn [state].
    rewrite Hroom. unfold updateDoc_room, await_write.
    destruct Hrs as [-> | [rs' ->]]; cbn; auto.
  - intros x rs. unfold startGame, bind, get_state. cbn [state].
    rewrite Hroom. unfold updateDoc_room, await_write, apply_op.
    cbn [replies]. unfold _triggerGmResponse_start, bind, begin_turn, local,
      begin_turn_local, put_isAiThinking, with_room, ret.
    cbn [state store replies apply_room]. rewrite Hroom. reflexivity.
  - intros t outcome w w'. subst w'. unfold _triggerGmResponse_finish. split.
    + rewrite resume_turn_state. reflexivity.
    + destruct (@Writes_narrated_resume (pending_room t) (pending_players t)
                  outcome w) as [_ [_ [_ [Hstatus _]]]].
      exact Hstatus.
Qed.

(* ----------------------------------------------------------------- *)
(** ** Opening and entering a room *)

(** X18. From [createRoom] to the lobby. A caller who is logged in and
    whose room document the backend accepts gets a room in the lobby,
    hosted by the caller, without players and without a pending roll.
    [joinRoom] empties the local copy of the room, the players and the
    log before it waits for the backend, so the page waits; once the
    snapshots of the new room have arrived the caller is shown the
    lobby, with the join button enabled and without the start button,
    which comes with a character. When the backend rejects the room
    document, or fails to read it, the loading flag stays up. *)
Theorem a_new_room_opens_in_the_lobby (g : GameState) (pid roomId : string) :
  gs_playerId g = Some pid -> pid <> "" ->
  fst (createRoom (Accepted roomId) g) = RoomCreated roomId (new_room roomId pid) /\
  isLoading (snd (createRoom Rejected g)) = true /\
  isLoading (snd (joinRoom GetDocFailed g)) = true /\
  let docs := new_room roomId pid in
  let g1 := snd (joinRoom DocExists (snd (createRoom (Accepted roomId) g))) in
  let g2 := snd (on_event (PlayersSnapshot (db_players docs))
                   (snd (on_event (RoomSnapshot (db_room docs)) g1))) in
  gs_room g1 = None /\ gs_players g1 = [] /\ chatHistory g1 = [] /\
  (forall auth, Screens.Room auth g1 = Screens.Waiting) /\
  Screens.Room false g2 = Screens.Lobby /\
  Screens.isHost (db_room docs) (gs_playerId g2) = true /\
  Screens.start_shown (db_room docs) (gs_players g2) (gs_playerId g2) = false /\
  Screens.join_disabled (isLoading g2) (gs_players g2) = false.
Proof.
  intros Hpid Hne.
  assert (Ht : Js.truthy (gs_playerId g) = true).
  { rewrite Hpid. cbn. destruct (String.eqb_spec pid ""); [contradiction | reflexivity]. }
  assert (Hor : Js.or_else (gs_playerId g) "" = pid).
  { rewrite Hpid. cbn. destruct (String.eqb_spec pid ""); [contradiction | reflexivity]. }
  unfold createRoom, joinRoom. rewrite Ht. cbn [negb fst snd].
  rewrite Hor. cbn [put_isLoading cleanup gs_playerId isLoading].
  rewrite Ht. cbn [negb fst snd].
  split; [reflexivity|]. split; [reflexivity|]. split; [reflexivity|].
  cbn. rewrite Hpid. cbn. rewrite String.eqb_refl.
  repeat (split; [reflexivity|]). reflexivity.
Qed.

(* ----------------------------------------------------------------- *)
(** ** What the repair leaves of the reply *)

Lemma filter_all {A : Type} (P : A -> bool) (l : list A) :
  (forall x, In x l -> P x = true) -> filter P l = l.
Proof.
  induction l as [|x l IH]; intro H; [reflexivity|].
  cbn [filter]. rewrite (H x (or_introl eq_refl)). f_equal.
  apply IH. intros y Hy. apply H. right. exact Hy.
Qed.

Lemma filter_filter_sub {A : Type} (P Q : A -> bool) (l : list A) :
  (forall x, P x = true -> Q x = true) ->
  filter P (filter Q l) = filter P l.
Proof.
  intro H. induction l as [|x l IH]; [reflexivity|].
  cbn [filter]. destruct (Q x) eqn:Hq; cbn [filter].
  - rewrite IH. reflexivity.
  - destruct (P x) eqn:Hp; [| exact IH].
    rewrite (H x Hp) in Hq. discriminate.
Qed.

Lemma keys_has (ch : list (string * list string)) :
  filter (fun k => Obj.has k ch) (Obj.keys ch) = Obj.keys ch.
Proof.
  apply filter_all. intros k Hk. apply has_In. apply keys_in. exact Hk.
Qed.

Lemma extends_refl (ch : list (string * list string)) : extends ch ch.
Proof.
  split; [auto|]. split; [apply keys_has|].
  intros k l H. exists []. rewrite List.app_nil_r. exact H.
Qed.

Lemma extends_trans (a b c : list (string * list string)) :
  extends a b -> extends b c -> extends a c.
Proof.
  intros [K1 [F1 G1]] [K2 [F2 G2]]. split; [auto|]. split.
  - rewrite <- (@filter_filter_sub _ (fun k => Obj.has k a)
                  (fun k => Obj.has k b) (Obj.keys c)).
    + rewrite F2. exact F1.
    + intros k Hk. apply has_In. apply keys_in. apply K1.
      apply keys_in. apply has_In. exact Hk.
  - intros k l H. destruct (G1 k l H) as [e1 H1].
    destruct (G2 k _ H1) as [e2 H2]. exists (e1 ++ e2)%list.
    rewrite H2. rewrite List.app_assoc. reflexivity.
Qed.

Lemma extends_define (ch : list (string * list string)) (k : string)
  (l extra : list string) :
  Obj.get k ch = Some l -> extends ch (Obj.define k (l ++ extra)%list ch).
Proof.
  intro Hl. pose proof (get_some_key _ _ Hl) as Hin.
  assert (Hown : Obj.own (Obj.define k (l ++ extra)%list ch) = Obj.own ch)
    by (apply own_define_present; exact Hin).
  split; [| split].
  - intros k' Hk'. unfold Obj.keys in *. rewrite Hown. exact Hk'.
  - unfold Obj.keys at 1. rewrite Hown. apply keys_has.
  - intros k' l' H'. destruct (String.eqb_spec k' k) as [He | Hn].
    + subst k'. rewrite get_define_same.
      assert (l' = l) by congruence. subst l'. eauto.
    + rewrite get_define_other by exact Hn.
      exists []. rewrite List.app_nil_r. exact H'.
Qed.

Lemma extends_new (ch : list (string * list string)) (k : string)
  (v : list string) :
  ~ In k (Obj.own ch) -> extends ch (ch ++ [(k, v)]).
Proof.
  intro Habs.
  destruct (enumerate_snoc (Obj.own ch) k) as [a [b [H1 H2]]].
  assert (Hkeys : Obj.keys (ch ++ [(k, v)]) = (a ++ k :: b)%list).
  { unfold Obj.keys, Obj.own. rewrite map_app. exact H2. }
  split; [| split].
  - intros k' Hk'. rewrite Hkeys. apply in_split_insert. right.
    unfold Obj.keys in Hk'. rewrite H1 in Hk'. exact Hk'.
  - rewrite Hkeys, filter_app. cbn [filter].
    replace (Obj.has k ch) with false.
    + rewrite <- filter_app. fold (Obj.own ch) in H1.
      change (Obj.enumerate (Obj.own ch)) with (Obj.keys ch) in H1.
      rewrite <- H1. apply keys_has.
    + symmetry. destruct (Obj.has k ch) eqn:Hh; [| reflexivity].
      apply has_In in Hh. contradiction.
  - intros k' l' H'. exists [].
    rewrite get_app_present by exact (get_some_key _ _ H').
    rewrite List.app_nil_r. exact H'.
Qed.

Lemma repair_player_extends (ch : list (string * list string)) (p : Player) :
  extends ch (repair_player ch p).
Proof.
  destruct (characterClass p) as [pc|] eqn:Hc.
  - destruct (String.eqb_spec pc "") as [He | Hne].
    + rewrite repair_player_skip; [apply extends_refl|].
      rewrite Hc, He. reflexivity.
    + destruct (find_key ch pc) as [k|] eqn:Hk.
      * destruct (@repair_player_found ch p pc k Hc Hne Hk) as [l [Hl Hrep]].
        rewrite Hrep. destruct (pad_spec l) as [Hpad _]. rewrite Hpad.
        apply extends_define. exact Hl.
      * destruct (String.eqb_spec pc "__proto__") as [Hproto | Hproto].
        -- subst pc. rewrite (@repair_player_proto ch p Hc Hk).
           apply extends_refl.
        -- rewrite (@repair_player_created ch p pc Hc Hne Hproto Hk).
           apply extends_new. apply find_key_none_absent. exact Hk.
  - rewrite repair_player_skip; [apply extends_refl|].
    rewrite Hc. reflexivity.
Qed.

Lemma repair_fold_extends (players : list Player) :
  forall ch, extends ch (fold_left repair_player players ch).
Proof.
  induction players as [|p players IH]; intro ch; [apply extends_refl|].
  cbn [fold_left].
  eapply extends_trans; [apply repair_player_extends | apply IH].
Qed.

(** X19. The repair only adds. The narrative, the scene and the roll
    request of the reply are kept; every key of the choices map of the
    reply is a key of the repaired map, and [Object.keys] lists the
    keys of the reply in the same order as before, whatever keys the
    repair creates between them or after them; and the list of every
    key of the reply is kept as the beginning of the list the repaired
    map holds for it. *)
Theorem repair_only_adds (players : list Player) (gm : GmResponse) :
  narrative (repair players gm) = narrative gm /\
  scene_image_prompt (repair players gm) = scene_image_prompt gm /\
  roll_request (repair players gm) = roll_request gm /\
  extends (reply_choices gm) (reply_choices (repair players gm)).
Proof.
  unfold repair. destruct (roll_request gm) as [ask|] eqn:Hroll.
  - repeat (split; [reflexivity|]). rewrite Hroll. split; [reflexivity|].
    apply extends_refl.
  - cbn [narrative scene_image_prompt roll_request].
    repeat (split; [reflexivity|]).
    unfold reply_choices at 2. cbn [gm_choices].
    apply repair_fold_extends.
Qed.

Lemma repair_player_complete (players : list Player)
  (ch : list (string * list string)) (p : Player) :
  complete_for players ch -> In p players -> repair_player ch p = ch.
Proof.
  intros Hcomplete Hin.
  destruct (characterClass p) as [pc|] eqn:Hc.
  - destruct (String.eqb_spec pc "") as [He | Hne].
    + apply repair_player_skip. rewrite Hc, He. reflexivity.
    + destruct (Hcomplete p pc Hin Hc Hne) as [k [l [Hk [Hl Hlen]]]].
      apply find_key_first in Hk.
      destruct (@repair_player_found ch p pc k Hc Hne Hk) as [l' [Hl' Hrep]].
      rewrite Hrep. assert (l' = l) by congruence. subst l'.
      rewrite (pad_long _ Hlen). apply define_same. exact Hl.
  - apply repair_player_skip. rewrite Hc. reflexivity.
Qed.

Lemma repair_fold_complete (players : list Player)
  (ch : list (string * list string)) :
  complete_for players ch -> fold_left repair_player players ch = ch.
Proof.
  intro Hcomplete.
  assert (H : forall l, (forall p, In p l -> In p players) ->
                        fold_left repair_player l ch = ch).
  { induction l as [|p l IH]; intro Hsub; [reflexivity|].
    cbn [fold_left].
    rewrite (@repair_player_complete players ch p Hcomplete
               (Hsub p (or_introl eq_refl))).
    apply IH. intros q Hq. apply Hsub. right. exact Hq. }
  apply H. auto.
Qed.

Lemma repaired_is_complete (players : list Player)
  (ch0 : list (string * list string)) :
  Forall (fun p => characterClass p <> Some "__proto__") players ->
  complete_for players (fold_left repair_player players ch0).
Proof.
  intros Hnp p c Hin Hc Hne.
  assert (Hproto : c <> "__proto__").
  { rewrite Forall_forall in Hnp. intro He. apply (Hnp p Hin). congruence. }
  destruct (repair_fold ch0 players c ch0) as [_ Hfold].
  destruct (Hfold (conj eq_refl eq_refl) p c Hin Hc Hne Hproto eq_refl)
    as [k [Hk [Hget _]]].
  exists k, (pad (entry_for ch0 c)).
  split; [apply find_key_first; exact Hk|].
  split; [exact Hget | apply pad_spec].
Qed.

(** X20. The repair changes nothing in a reply that is complete, one
    whose choices map holds, for every class that is played, a first
    key equal to the class up to case with two entries or more; and,
    when no participant has the class [__proto__], a repaired reply is
    complete, so that the repair of a repaired reply is that reply. *)
Theorem repair_keeps_a_complete_reply (players : list Player) (gm : GmResponse) :
  (forall ch, gm_choices gm = Some ch -> complete_for players ch ->
              repair players gm = gm) /\
  (Forall (fun p => characterClass p <> Some "__proto__") players ->
   repair players (repair players gm) = repair players gm).
Proof.
  assert (Hkeep : forall gm0 ch, gm_choices gm0 = Some ch ->
                    complete_for players ch -> repair players gm0 = gm0).
  { intros gm0 ch Hch Hcomplete. unfold repair.
    destruct (roll_request gm0) as [ask|] eqn:Hroll; [reflexivity|].
    rewrite Hch, (repair_fold_complete Hcomplete).
    destruct gm0 as [n sc rr gc]. cbn in *. subst. reflexivity. }
  split; [apply Hkeep|]. intro Hnp.
  destruct (roll_request gm) as [ask|] eqn:Hroll.
  - unfold repair. rewrite Hroll. rewrite Hroll. reflexivity.
  - apply Hkeep with (ch := fold_left repair_player players (reply_choices gm)).
    + unfold repair, reply_choices. rewrite Hroll. reflexivity.
    + apply repaired_is_complete. exact Hnp.
Qed.

(* ----------------------------------------------------------------- *)
(** ** The faces of a die *)









End Properties.

(* ================================================================= *)
(** * The properties on sample data

    The samples are ASCII texts, on which the case mapping of
    JavaScript is [Js.ascii_case]. *)

Lemma ascii_lower_empty (s : string) : Js.ascii_lower s = "" <-> s = "".
Proof.
  split; intro H.
  - destruct s; [reflexivity | discriminate].
  - subst s. reflexivity.
Qed.

Lemma ascii_case_proper : Js.proper Js.ascii_case.
Proof. intro s. apply ascii_lower_empty. Qed.

#[local] Existing Instance Js.ascii_case.

Lemma dice_resolver_roll_witness :
  performRoll (1 # 2) Table.d6
    (mkWorld Table.docs Table.host [Accepted "m1"; Accepted "m2"])
  = (Returned tt,
     mkWorld
       (mkStore Table.room [Table.ann; Table.bob]
          [mkChatMessage "m1" user "[Dice Roll] Pick the lock: Rolled a 4 (d6)"
             (Some "System") (Some true) 0]
          1)
       Table.host []).
Proof.
  assert (Hdraw : random_draw (1 # 2)).
  { split; [reflexivity | split; [unfold Qle | unfold Qlt]; simpl; lia]. }
  assert (HN : (1 <= 6 <= 2 ^ 53)%Z)
    by (split; [lia | vm_compute; discriminate]).
  destruct (@dice_resolver_roll Table.host Table.docs Table.room Table.d6
              (1 # 2) "m1" "m2" [] 6%Z eq_refl eq_refl Hdraw
              (or_introl (conj eq_refl HN)))
    as (r & _ & _ & Hexact & Hrun).
  rewrite (Hexact 3%Z ltac:(reflexivity)) in Hrun.
  exact Hrun.
Defined.

(** Against C7 as it is stated. The descriptor d9007199254740995 names
    a positive integer that is no double: [parseInt] gives the double
    next to it, 9007199254740996, and the largest draw rolls that
    number, one more than the faces of the descriptor. *)
Lemma huge_die_rolls_above_its_faces :
  random_draw (9007199254740991 # 9007199254740992) /\
  ~ Spec.dice_in_range 9007199254740995
      (9007199254740991 # 9007199254740992).
Proof.
  split.
  - split; [reflexivity | split; [unfold Qle | unfold Qlt]; simpl; lia].
  - unfold Spec.dice_in_range. intros (r & Hres & Hr).
    vm_compute in Hres. inversion Hres; subst r. lia.
Qed.

Lemma sendMessage_guard_witness :
  sendMessage (" " ++ bytes [194; 160; 226; 128; 131]%nat) true
    (mkWorld Table.docs Table.host [Accepted "m1"])
  = (Returned tt, mkWorld Table.docs Table.host [Accepted "m1"]).
Proof.
  apply sendMessage_guard. right. right. right.
  apply (@blank_more " " _).
  { unfold white_space. simpl. tauto. }
  apply (@blank_more (bytes [194; 160]%nat) _).
  { unfold white_space. simpl. tauto. }
  apply (@blank_more (bytes [226; 128; 131]%nat) "").
  { unfold white_space. simpl. tauto. }
  constructor.
Defined.

Lemma sendMessage_frame_witness :
  db_players (store (snd (sendMessage "Open the door" true
     (mkWorld (mkStore Table.room [Table.bob; Table.ann] [] 0)
        (mkGameState (Some Table.room) [Table.bob; Table.ann] []
           (Some "u2") false false None)
        [Accepted "m1"; Accepted "m2"]))))
  = [mkPlayer "u2" "Bob" None (Some "Wizard") [] true None; Table.ann].
Proof.
  assert (Hprompt : ~ blank "Open the door").
  { intro H. apply trim_blank in H. vm_compute in H. discriminate H. }
  destruct (@sendMessage_frame
              (mkGameState (Some Table.room) [Table.bob; Table.ann] []
                 (Some "u2") false false None)
              (mkStore Table.room [Table.bob; Table.ann] [] 0)
              Table.room "u2" "Open the door" eq_refl eq_refl
              ltac:(discriminate) Hprompt)
    as [Haction _].
  destruct (Haction "m1" "m2" []) as [_ [Hplayers _]].
  rewrite Hplayers. reflexivity.
Defined.

Lemma turn_fires_once_witness :
  fired Chat.run Table.host = ["m1"] /\
  (count_occ string_dec (fired Chat.run Table.host) "m1" <= 1)%nat.
Proof.
  split; [reflexivity|].
  apply turn_fires_once.
  - cbn. repeat split.
    + exists [Chat.m1]. reflexivity.
    + exists []. reflexivity.
    + exists [Chat.m2]. reflexivity.
  - cbn. repeat constructor; cbn; intuition discriminate.
Defined.

Lemma turn_failure_is_recoverable_witness :
  _triggerGmResponse NetworkFailure
    (mkWorld Table.docs Table.host [Accepted "e1"])
  = (Returned tt,
     mkWorld
       (mkStore Table.room [Table.ann; Table.bob]
          [mkChatMessage "e1" system
             "(GM Error: The spirits are confused. Please try acting again.)"
             None None 0]
          1)
       Table.host []).
Proof.
  destruct (@turn_failure_is_recoverable Js.ascii_case Table.room NetworkFailure
              Table.docs Table.host [Accepted "e1"] eq_refl)
    as [_ [Hfail _]].
  destruct (Hfail (or_introl eq_refl)) as [_ [_ [_ [Hreport _]]]].
  exact (Hreport "e1" [] eq_refl).
Defined.

(** Against C8 as it is stated. The notice of a failed turn is a write
    like any other: when the backend rejects it, the turn ends with the
    error of that write, which reaches the caller, and no message is
    appended. *)
Lemma rejected_notice_is_lost :
  ~ Spec.failure_is_reported NetworkFailure
      (mkWorld Table.docs Table.host [Rejected]) /\
  fst (_triggerGmResponse NetworkFailure
         (mkWorld Table.docs Table.host [Rejected]))
  = Threw FirestoreError /\
  db_messages (store (snd (_triggerGmResponse NetworkFailure
                             (mkWorld Table.docs Table.host [Rejected]))))
  = [].
Proof.
  split; [| split; reflexivity].
  unfold Spec.failure_is_reported. intros [H _].
  vm_compute in H. discriminate H.
Qed.

(** Against C1 as it is stated. The narrative is written before the
    batch: when the backend takes the message and rejects the batch, the
    log has the narrative while the scene and the choices are the old
    ones. *)
Lemma narrative_outlives_rejected_batch :
  ~ Spec.all_or_nothing Table.room [Table.ann; Table.bob]
      Cases.gm_choices_reply
      (mkWorld Table.docs Table.host [Accepted "m1"; Rejected]).
Proof.
  unfold Spec.all_or_nothing. intros [H | [docId H]].
  - vm_compute in H. discriminate H.
  - vm_compute in H. discriminate H.
Qed.

Lemma batch_commits_atomically_witness :
  let s' := store (snd (reconcile Table.room [Table.ann; Table.bob]
                          Cases.gm_choices_reply
                          (mkWorld Table.docs Table.host
                             [Accepted "m1"; Accepted "b1"]))) in
  db_messages s'
  = [mkChatMessage "m1" assistant "The door opens." (Some "GM") None 0] /\
  all_applied
    (batch_ops Table.room [Table.ann; Table.bob]
       (repair [Table.ann; Table.bob] Cases.gm_choices_reply)) s'.
Proof.
  assert (Hnd : NoDup (map p_id [Table.ann; Table.bob])).
  { simpl. repeat constructor; simpl; intuition discriminate. }
  destruct (@batch_commits_atomically Js.ascii_case Table.room
              [Table.ann; Table.bob] Cases.gm_choices_reply
              Table.docs Table.host [Accepted "m1"; Accepted "b1"] Hnd)
    as (Hnarrative & _ & _ & _ & Hall & _).
  split.
  - exact (Hnarrative "The door opens." "m1" [Accepted "b1"] eq_refl
             ltac:(discriminate) eq_refl).
  - apply Hall. reflexivity.
Defined.

(** Against C2 as it is stated. Two responses without a roll request
    that resolves to a participant and with an empty batch: a roll
    request that names no class, without choices map; and a roll request
    for a class nobody plays, next to a choices map. In both the pending
    roll stays and nobody gets choices. *)
Lemma unresolved_roll_skips_choices :
  ~ Spec.choices_branch_applies Cases.stale_room [Table.ann; Table.bob]
      Cases.gm_roll_without_target /\
  ~ Spec.choices_branch_applies Cases.stale_room [Table.ann; Table.bob]
      Cases.gm_unmatched_roll.
Proof.
  split; unfold Spec.choices_branch_applies; intro H;
    destruct (H eq_refl) as [Hroll _];
    match type of Hroll with
    | _ -> In _ ?ops =>
        assert (Hin : In (UpdateRoom DeleteActiveRoll) ops)
          by (apply Hroll; discriminate)
    end;
    vm_compute in Hin; exact Hin.
Qed.

Lemma reconciler_branches_witness :
  apply_batch (batch_ops Table.room [Table.ann; Table.bob] Cases.gm_roll)
    Table.docs
  = Some (mkStore
            (mkGameRoom "r1" "u1" playing
               (Some (mkRollRequest "u1" "Ann" "d20" "Dodge")) (Some "a cave"))
            [Table.ann; mkPlayer "u2" "Bob" None (Some "Wizard") [] true None]
            [] 0) /\
  exists players',
    apply_batch
      (batch_ops Cases.stale_room [Table.ann; Table.bob] Cases.gm_choices_reply)
      (mkStore Cases.stale_room [Table.ann; Table.bob] [] 0)
    = Some (mkStore (mkGameRoom "r1" "u1" playing None (Some "an open door"))
              players' [] 0) /\
    Forall2
      (fun p p' =>
         sheet p' = sheet p /\
         match characterClass p with
         | Some c =>
             if c =? "" then choices p' = choices p
             else
               (exists k l,
                   first_key
                     [("Fighter", ["Strike"; "Parry"]); ("Wizard", ["Cast"; "Hide"])]
                     c k /\
                   Obj.get k
                     [("Fighter", ["Strike"; "Parry"]); ("Wizard", ["Cast"; "Hide"])]
                   = Some l /\
                   choices p' = Some l) \/
               (no_key
                  [("Fighter", ["Strike"; "Parry"]); ("Wizard", ["Cast"; "Hide"])]
                  c /\
                choices p' = Some ["Look around"; "Wait"])
         | None => choices p' = choices p
         end)
      [Table.ann; Table.bob] players'.
Proof.
  split.
  - destruct (@reconciler_branches Js.ascii_case ascii_case_proper
                Table.docs Cases.gm_roll) as [Hroll _].
    exact (Hroll (mkRollAsk (Some "Fighter") None (Some "Dodge")) "Fighter"
             [] Table.ann [Table.bob] eq_refl eq_refl ltac:(discriminate)
             eq_refl eq_refl (Forall_nil _)).
  - assert (Hnd : NoDup (map p_id [Table.ann; Table.bob])).
    { simpl. repeat constructor; simpl; intuition discriminate. }
    destruct (@reconciler_branches Js.ascii_case ascii_case_proper
                (mkStore Cases.stale_room [Table.ann; Table.bob] [] 0)
                Cases.gm_choices_reply) as [_ [Hchoices _]].
    exact (Hchoices
             [("Fighter", ["Strike"; "Parry"]); ("Wizard", ["Cast"; "Hide"])]
             Hnd (or_introl eq_refl) eq_refl).
Defined.

(** Against C5 as it is stated. A list of two equal entries is long
    enough for the loop, which leaves it as it is: the fighter keeps one
    choice written twice. *)
Lemma repeated_choice_is_kept :
  ~ Spec.repair_gives_two_distinct [Table.ann] Cases.gm_repeated.
Proof.
  unfold Spec.repair_gives_two_distinct. intro H.
  destruct (H eq_refl Table.ann "Fighter" (or_introl eq_refl) eq_refl)
    as [ch [k [l [Hch [Hk [Hl [_ [a [b [Hab [Ha Hb]]]]]]]]]]].
  - discriminate.
  - vm_compute in Hch. inversion Hch; subst ch.
    vm_compute in Hk. inversion Hk; subst k.
    vm_compute in Hl. inversion Hl; subst l.
    destruct Ha as [Ha | [Ha | []]]; destruct Hb as [Hb | [Hb | []]]; congruence.
Qed.

Lemma repair_pads_every_class_witness :
  exists gm ch,
    outcome_of_content Cases.raw_wrapped = Some (Reply gm) /\
    narrative (repair [Table.bob; Table.ann] gm) = Some "x" /\
    gm_choices (repair [Table.bob; Table.ann] gm) = Some ch /\
    Obj.get "Fighter" ch = Some ["a"; "Observe surroundings"].
Proof.
  destruct (@repair_pads_every_class Js.ascii_case ascii_case_proper
              [Table.bob; Table.ann] Table.ann "Fighter"
              (or_intror (or_introl eq_refl)) eq_refl
              ltac:(discriminate) ltac:(discriminate))
    as [_ Hcase].
  apply Hcase. reflexivity.
Defined.

(** Against C6 as it is stated. The code takes the text from the first
    opening brace to the last closing brace; here the pair that matches
    the first opening brace closes earlier, and what the code takes does
    not parse. *)
Lemma greedy_braces_miss_the_object :
  parse_reply Cases.raw_stray_brace <> Spec.parse_reply Cases.raw_stray_brace.
Proof. vm_compute. discriminate. Qed.


Lemma parse_reply_algorithm_witness :
  parse_reply Cases.raw_wrapped
  = ParsedOk (JObj [("narrative", JStr "x");
                    ("choices", JObj [("Fighter", JArr [JStr "a"])])]).
Proof.
  destruct (parse_reply_algorithm Cases.raw_wrapped)
    as [Hmatch [_ [_ [Hsecond _]]]].
  rewrite (Hsecond eq_refl _
             (Hmatch "blah "
                (Cases.quoted "narrative" ++ ":" ++ Cases.quoted "x" ++ ","
                   ++ Cases.quoted "choices" ++ ":{" ++ Cases.quoted "Fighter"
                   ++ ":[" ++ Cases.quoted "a" ++ "]}")
                " blah" eq_refl eq_refl eq_refl)).
  reflexivity.
Defined.


(** The copy of the room a turn starts from matters as well. Two turns,
    one after the other: the second sets a roll; a third turn starts
    from the copy of the room the client held before, without the
    roll, gives the fighter choices and leaves the roll. *)
Lemma lagging_copy_breaks_the_invariant :
  reachable false true Race.lagged /\
  ~ roll_excludes_choices (sys_store Race.lagged).
Proof.
  split.
  - apply reach_step with (s := Race.third_waits).
    + apply reach_step with (s := Race.rolled).
      * apply reach_step with (s := Race.second_waits).
        -- apply reach_step with (s := Race.choices_first).
           ++ apply reach_step with (s := Race.first_waits).
              ** apply reach_step with (s := Race.started).
                 --- apply reach_step with (s := Race.joined).
                     +++ apply reach_step with (s := Race.created).
                         *** apply reach_new.
                         *** apply step_createCharacter.
                     +++ apply step_startGame.
                 --- apply step_begin; [right; reflexivity | left; reflexivity].
              ** apply (@step_resume Js.ascii_case false true Race.first_waits []
                          (db_room (sys_store Race.started))
                          (db_players (sys_store Race.started)) []).
                 reflexivity.
           ++ apply step_begin; [right; reflexivity | left; reflexivity].
        -- apply (@step_resume Js.ascii_case false true Race.second_waits []
                    (db_room (sys_store Race.choices_first))
                    (db_players (sys_store Race.choices_first)) []).
           reflexivity.
      * apply (@step_begin Js.ascii_case false true Race.rolled
                 (db_room (sys_store Race.choices_first))
                 (db_players (sys_store Race.choices_first)));
          [right; reflexivity | left; reflexivity].
    + apply (@step_resume Js.ascii_case false true Race.third_waits []
               (db_room (sys_store Race.choices_first))
               (db_players (sys_store Race.choices_first)) []).
      reflexivity.
  - unfold roll_excludes_choices. intro H.
    assert (Hroll : activeRoll (db_room (sys_store Race.lagged)) <> None)
      by (vm_compute; discriminate).
    specialize (H Hroll). vm_compute in H.
    inversion H as [|? ? Hann _]. discriminate Hann.
Qed.



Lemma action_reaches_idle_host_witness :
  fst (on_messages
         (db_messages
            (store (snd (sendMessage "Open the door" true
                           (mkWorld Table.docs
                              (mkGameState (Some Table.room) [Table.ann; Table.bob]
                                 [] (Some "u2") false false None)
                              [Accepted "m1"])))))
         Table.host)
  = Some "m1".
Proof.
  assert (Hprompt : ~ blank "Open the door").
  { intro H. apply trim_blank in H. vm_compute in H. discriminate H. }
  exact (@action_reaches_idle_host "Open the door" true
           (mkWorld Table.docs
              (mkGameState (Some Table.room) [Table.ann; Table.bob]
                 [] (Some "u2") false false None)
              [Accepted "m1"])
           Table.room "m1" [] Table.host Table.room
           eq_refl eq_refl Hprompt eq_refl eq_refl eq_refl eq_refl eq_refl
           ltac:(discriminate)).
Defined.

Lemma roll_turn_needs_the_room_first_witness :
  let w := mkWorld (mkStore Cases.stale_room [Table.ann; Table.bob] [] 0)
             (mkGameState (Some Cases.stale_room) [Table.ann; Table.bob] []
                (Some "u2") false false None)
             [Accepted "m1"; Accepted "m2"] in
  let h := mkGameState (Some Cases.stale_room) [Table.ann; Table.bob] []
             (Some "u1") false false None in
  let s' := store (snd (performRoll (1 # 2) Table.d6 w)) in
  fired [MessagesSnapshot (db_messages s'); RoomSnapshot (db_room s')] h = [] /\
  fired [RoomSnapshot (db_room s'); MessagesSnapshot (db_messages s')] h = ["m1"].
Proof.
  apply (@roll_turn_needs_the_room_first (1 # 2) Table.d6
           (mkWorld (mkStore Cases.stale_room [Table.ann; Table.bob] [] 0)
              (mkGameState (Some Cases.stale_room) [Table.ann; Table.bob] []
                 (Some "u2") false false None)
              [Accepted "m1"; Accepted "m2"])
           Cases.stale_room "m1" "m2" []
           (mkGameState (Some Cases.stale_room) [Table.ann; Table.bob] []
              (Some "u1") false false None)
           Cases.stale_room Table.d6 []);
    try reflexivity; try discriminate.
  intros e [].
Defined.

Lemma notices_do_not_reach_the_service_witness :
  Ollama.request [Table.ann]
    ([Chat.m1] ++ [mkChatMessage "m9" system "Ann (Fighter) has joined." None None 2]
       ++ [Chat.m2])
  = Ollama.request [Table.ann] ([Chat.m1] ++ [Chat.m2]).
Proof.
  apply (@notices_do_not_reach_the_service [Table.ann] [Chat.m1]
           [mkChatMessage "m9" system "Ann (Fighter) has joined." None None 2]
           [Chat.m2]).
  repeat constructor.
Defined.

Lemma roll_selects_the_resolve_instruction_witness :
  List.last
    (Ollama.messages
       (Ollama.request [Table.ann; Table.bob]
          (db_messages
             (store (snd (performRoll (1 # 2) Table.d6
                            (mkWorld Table.docs Table.host [Accepted "m1"])))))))
    Ollama.opening
  = Ollama.mkMessage system Ollama.resolve_instruction.
Proof.
  destruct (@roll_selects_the_resolve_instruction [Table.ann; Table.bob]
              (mkWorld Table.docs Table.host [Accepted "m1"]) Table.room "m1" []
              eq_refl eq_refl eq_refl) as [Hroll _].
  apply Hroll.
Defined.

Lemma log_only_grows_witness :
  db_messages (sys_store Race.started)
  = [mkChatMessage "w2" system "Ann (Fighter) has joined." None None 0] /\
  exists added,
    db_messages (sys_store Race.rolled)
    = (db_messages (sys_store Race.started) ++ added)%list.
Proof.
  split; [reflexivity|].
  apply (@log_only_grows Js.ascii_case false false Race.started Race.rolled).
  apply run_step with (s' := Race.second_waits).
  - apply run_step with (s' := Race.choices_first).
    + apply run_step with (s' := Race.first_waits).
      * apply run_step with (s' := Race.started).
        -- apply run_here.
        -- apply step_begin; [right; reflexivity | right; split; reflexivity].
      * apply (@step_resume Js.ascii_case false false Race.first_waits []
                 (db_room (sys_store Race.started))
                 (db_players (sys_store Race.started)) []).
        reflexivity.
    + apply step_begin; [right; reflexivity | right; split; reflexivity].
  - apply (@step_resume Js.ascii_case false false Race.second_waits []
             (db_room (sys_store Race.choices_first))
             (db_players (sys_store Race.choices_first)) []).
    reflexivity.
Defined.

Lemma room_identity_is_kept_witness :
  room_id (db_room (sys_store Race.roll_committed)) = "r1" /\
  hostId (db_room (sys_store Race.roll_committed)) = "u1" /\
  (gameStatus (db_room (sys_store Race.started)) = playing ->
   gameStatus (db_room (sys_store Race.roll_committed)) = playing).
Proof.
  apply (@room_identity_is_kept Js.ascii_case true false Race.started
           Race.roll_committed).
  apply run_step with (s' := Race.both_wait).
  - apply run_step with (s' := Race.started_again).
    + apply run_step with (s' := Race.first_waits).
      * apply run_step with (s' := Race.started).
        -- apply run_here.
        -- apply step_begin; [left; reflexivity | right; split; reflexivity].
      * apply step_startGame.
    + apply step_begin; [left; reflexivity | right; split; reflexivity].
  - apply (@step_resume Js.ascii_case true false Race.both_wait
             [(db_room (sys_store Race.started_again),
               db_players (sys_store Race.started_again))]
             (db_room (sys_store Race.started))
             (db_players (sys_store Race.started))
             [] (Reply Cases.gm_roll) Race.ann_client (Race.accepts "w7" "w8")).
    reflexivity.
Defined.

Lemma player_ids_stay_distinct_witness :
  map p_id (db_players (sys_store Race.ann_again)) = ["u1"; "u2"] /\
  map p_name (db_players (sys_store Race.bob_joined)) = ["Ann"; "Bob"] /\
  map p_name (db_players (sys_store Race.ann_again)) = ["Anna"; "Bob"] /\
  NoDup (map p_id (db_players (sys_store Race.ann_again))).
Proof.
  split; [reflexivity | split; [reflexivity | split; [reflexivity|]]].
  apply (@player_ids_stay_distinct Js.ascii_case false false Race.ann_again).
  apply reach_step with (s := Race.bob_joined).
  - apply reach_step with (s := Race.joined).
    + apply reach_step with (s := Race.created).
      * apply reach_new.
      * apply step_createCharacter.
    + apply step_createCharacter.
  - apply step_createCharacter.
Defined.

Lemma choices_turn_serves_everyone_witness :
  Screens.choices_shown
    (db_room (store (snd (_triggerGmResponse_call [Chat.m1]
                            (fun _ => Reply Cases.gm_repeated)
                            (mkWorld Table.docs Table.host
                               [Accepted "m2"; Accepted "m3"])))))
    (db_players (store (snd (_triggerGmResponse_call [Chat.m1]
                               (fun _ => Reply Cases.gm_repeated)
                               (mkWorld Table.docs Table.host
                                  [Accepted "m2"; Accepted "m3"])))))
    (Some "u2") false
  = ["Observe surroundings"; "Ready weapon"].
Proof.
  assert (Hnd : NoDup (map p_id (db_players Table.docs))).
  { simpl. repeat constructor; simpl; intuition discriminate. }
  destruct (@choices_turn_serves_everyone Js.ascii_case ascii_case_proper
              [Chat.m1] (fun _ => Reply Cases.gm_repeated)
              (mkWorld Table.docs Table.host [Accepted "m2"; Accepted "m3"])
              Cases.gm_repeated "m2" "m3" [] eq_refl eq_refl Hnd
              eq_refl eq_refl eq_refl)
    as [_ [_ [_ Hmenu]]].
  destruct (Hmenu Table.bob "Wizard" (or_intror (or_introl eq_refl)) eq_refl
              ltac:(discriminate) ltac:(discriminate))
    as (l0 & [(k0 & Hfirst & _) | [_ Hl0]] & Hshown & _).
  - exfalso. destruct Hfirst as (before & after & Hkeys & Hlow & _).
    vm_compute in Hkeys.
    destruct before as [|x before].
    + inversion Hkeys; subst. vm_compute in Hlow. discriminate Hlow.
    + inversion Hkeys as [[Hx Hrest]]. destruct before; discriminate Hrest.
  - subst l0. exact Hshown.
Defined.

Lemma roll_turn_hands_the_dice_witness :
  activeRoll
    (db_room (store (snd (_triggerGmResponse_call [Chat.m1]
                            (fun _ => Reply Cases.gm_roll)
                            (mkWorld Table.docs Table.host
                               [Accepted "m2"; Accepted "m3"])))))
  = Some (mkRollRequest "u1" "Ann" "d20" "Dodge").
Proof.
  destruct (@roll_turn_hands_the_dice Js.ascii_case [Chat.m1]
              (fun _ => Reply Cases.gm_roll)
              (mkWorld Table.docs Table.host [Accepted "m2"; Accepted "m3"])
              Cases.gm_roll (mkRollAsk (Some "Fighter") None (Some "Dodge"))
              "Fighter" Table.ann "m2" "m3" []
              eq_refl eq_refl eq_refl eq_refl eq_refl
              ltac:(discriminate) eq_refl eq_refl)
    as [_ [Hroll _]].
  exact Hroll.
Defined.

Lemma party_is_capped_witness :
  (List.length
     (db_players
        (store (snd (createCharacter (mkCharData "Eve" None (Some "Bard")) []
                       (mkWorld Table.docs Table.host
                          [Accepted "w1"; Accepted "w2"]))))) <= 4)%nat.
Proof.
  destruct party_is_capped as [Hcap _].
  apply Hcap.
  - reflexivity.
  - simpl. lia.
Defined.

Lemma createCharacter_writes_the_sheet_witness :
  find_player "u2"
    (db_players
       (store (snd (createCharacter (mkCharData "Bob" None (Some "Bard")) []
                      (mkWorld Table.docs
                         (mkGameState (Some Table.room) [Table.ann; Table.bob] []
                            (Some "u2") false false None)
                         [Accepted "w1"; Accepted "w2"])))))
  = Some (mkPlayer "u2" "Bob" None (Some "Bard") [] false None).
Proof.
  destruct (@createCharacter_writes_the_sheet
              (mkCharData "Bob" None (Some "Bard")) []
              (mkWorld Table.docs
                 (mkGameState (Some Table.room) [Table.ann; Table.bob] []
                    (Some "u2") false false None)
                 [Accepted "w1"; Accepted "w2"])
              Table.room "u2" "w1" "w2" [] eq_refl eq_refl ltac:(discriminate)
              ltac:(left; simpl; lia) eq_refl)
    as [_ [Hsheet _]].
  exact Hsheet.
Defined.

Lemma ability_scores_in_range_witness :
  Forall (fun kv => (3 <= snd kv <= 18)%Z)
    (drawn_stats (mkDraws 0 (1 # 2) (1 # 3) (15 # 16) (99 # 100) (1 # 16))).
Proof.
  apply (@ability_scores_in_range
           (mkDraws 0 (1 # 2) (1 # 3) (15 # 16) (99 # 100) (1 # 16)));
    split; simpl; unfold Qle, Qlt; simpl; lia.
Defined.

Lemma ready_flags_gate_the_start_witness :
  Screens.start_disabled false
    (db_players
       (store (snd (setReadyState true
                      (mkWorld
                         (mkStore Table.room
                            [Table.ann;
                             mkPlayer "u2" "Bob" None (Some "Wizard") [] false None]
                            [] 0)
                         (mkGameState (Some Table.room) [] [] (Some "u2")
                            false false None)
                         [Accepted "w1"])))))
  = false.
Proof.
  destruct (@ready_flags_gate_the_start true
              (mkWorld
                 (mkStore Table.room
                    [Table.ann;
                     mkPlayer "u2" "Bob" None (Some "Wizard") [] false None]
                    [] 0)
                 (mkGameState (Some Table.room) [] [] (Some "u2")
                    false false None)
                 [Accepted "w1"])
              Table.room "u2" "w1" [] eq_refl eq_refl ltac:(discriminate) eq_refl)
    as [Hdoc _].
  destruct (Hdoc eq_refl) as [_ [_ [_ Hup]]].
  apply Hup; [reflexivity|].
  simpl. intros q [Hq | [Hq | []]] Hid; subst q; simpl in *;
    [reflexivity | contradiction].
Defined.

Lemma startGame_writes_the_status_first_witness :
  startGame (mkWorld (new_room "r1" "u1") Race.ann_client [Accepted "w1"])
  = (Returned
       (Some (mkPending (db_room (new_room "r1" "u1")) []
                (Ollama.request [] []))),
     mkWorld
       (mkStore
          (mkGameRoom "r1" "u1" playing None
             (Some "ancient mysterious map, parchment, table top view, dnd mood"))
          [] [] 0)
       (mkGameState (Some (db_room (new_room "r1" "u1"))) [] [] (Some "u1")
          false true None)
       []).
Proof.
  destruct (@startGame_writes_the_status_first Js.ascii_case
              (new_room "r1" "u1") Race.ann_client
              (db_room (new_room "r1" "u1")) eq_refl) as [_ [Hok _]].
  exact (Hok "w1" []).
Defined.

Lemma a_new_room_opens_in_the_lobby_witness :
  fst (createRoom (Accepted "r1")
         (mkGameState None [] [] (Some "u1") false false None))
  = RoomCreated "r1" (new_room "r1" "u1").
Proof.
  destruct (@a_new_room_opens_in_the_lobby
              (mkGameState None [] [] (Some "u1") false false None) "u1" "r1"
              eq_refl ltac:(discriminate)) as [Hcreated _].
  exact Hcreated.
Defined.

Lemma repair_keeps_a_complete_reply_witness :
  repair [Table.ann; Table.bob] Cases.gm_choices_reply = Cases.gm_choices_reply.
Proof.
  destruct (@repair_keeps_a_complete_reply Js.ascii_case ascii_case_proper
              [Table.ann; Table.bob] Cases.gm_choices_reply) as [Hkeep _].
  apply (Hkeep [("Fighter", ["Strike"; "Parry"]); ("Wizard", ["Cast"; "Hide"])]);
    [reflexivity|].
  intros p c [Hp | [Hp | []]] Hc Hne; subst p; inversion Hc; subst c.
  - exists "Fighter", ["Strike"; "Parry"].
    split; [| split; [reflexivity | simpl; lia]].
    exists [], ["Wizard"]. split; [reflexivity | split; [reflexivity | constructor]].
  - exists "Wizard", ["Cast"; "Hide"].
    split; [| split; [reflexivity | simpl; lia]].
    exists ["Fighter"], []. split; [reflexivity | split; [reflexivity|]].
    constructor; [vm_compute; discriminate | constructor].
Defined.

Lemma repair_only_adds_witness :
  narrative (repair [Table.ann; Table.bob] Cases.gm_repeated) = Some "x" /\
  Obj.keys (reply_choices (repair [Table.ann; Table.bob] Cases.gm_repeated))
  = ["Fighter"; "Wizard"] /\
  extends (reply_choices Cases.gm_repeated)
    (reply_choices (repair [Table.ann; Table.bob] Cases.gm_repeated)).
Proof.
  destruct (@repair_only_adds Js.ascii_case ascii_case_proper
              [Table.ann; Table.bob] Cases.gm_repeated)
    as (Hn & _ & _ & Hext).
  split; [exact Hn | split; [reflexivity | exact Hext]].
Defined.


